(** * grv: the reference view (cmd/grv/ref_view.go)

    A shallow embedding of the reference view of grv: the typed rows it
    displays, the chain of filtered row collectors, the generators that
    build the rows from the repository data, the cursor movements, the
    selection and filter commands and the footer.  Go's [uint] is taken at
    its 64-bit width and every arithmetic operation on it is written with
    its wrap-around.  A run-time panic (index out of range, slice bounds
    out of range, nil dereference) ends the program: it is the [Panic]
    outcome and carries no state. *)

From Stdlib Require Import NArith ZArith Ascii String DecimalString.
From stdpp Require Import base list strings.

Local Open Scope string_scope.
Local Open Scope list_scope.
Local Open Scope N_scope.

(** ** Machine integers *)

Module Uint.

Definition bits : N := 64.
Definition modulus : N := 2 ^ bits.

(** Reduction into the range of a Go [uint]. *)
Definition wrap (n : N) : N := n mod modulus.

Definition add (a b : N) : N := wrap (a + b).

(** [a - b] on unsigned words: the result wraps below zero. *)
Definition sub (a b : N) : N := wrap (a + modulus - wrap b).

(** [uint(len(l))]: the length of a slice converted to [uint]. *)
Definition len {A} (l : list A) : N := wrap (N.of_nat (length l)).

End Uint.

(** ** Outcomes: a value, or a panic *)

Inductive outcome (A : Type) : Type :=
| Ret (a : A)
| Panic.
Arguments Ret {A} a.
Arguments Panic {A}.

Global Instance outcome_ret : MRet outcome := fun A a => Ret a.

Global Instance outcome_bind : MBind outcome := fun A B k m =>
  match m with
  | Ret a => k a
  | Panic => Panic
  end.

(** Indexing a slice: [l[i]] panics when [i] is not below [len(l)]. *)
Definition index {A} (l : list A) (i : N) : outcome A :=
  match l !! N.to_nat i with
  | Some a => Ret a
  | None => Panic
  end.

(** ** Rows *)

(** RenderedRefType, in the order of the source's [iota] block. *)
Inductive RenderedRefType : Type :=
| RvLocalBranchGroup
| RvRemoteBranchGroup
| RvLocalBranch
| RvRemoteBranch
| RvTagGroup
| RvTag
| RvSpace
| RvLoading.

Global Instance RenderedRefType_eq_dec : EqDecision RenderedRefType.
Proof. solve_decision. Defined.

(** Modelled from the spec: the object id type [Oid] is declared outside
    ref_view.go.  The view only ever reads its [String()] rendering, which
    is what the model keeps. *)
Record Oid : Type := mkOid { Oid_String : string }.

Global Instance Oid_eq_dec : EqDecision Oid.
Proof. solve_decision. Defined.

(** RenderedRef.  [oid] is a nullable pointer.  [refList] is a nullable
    pointer to one of the view's groups: the groups live in the view's
    [refLists] slice for the lifetime of the view, so the pointer is the
    position of the group in that slice. *)
Record RenderedRef : Type := mkRenderedRef {
  value : string;
  oid : option Oid;
  renderedRefType : RenderedRefType;
  refList : option nat;
  refNum : N
}.

Global Instance RenderedRef_eq_dec : EqDecision RenderedRef.
Proof. solve_decision. Defined.

(** Modelled from the spec: the compiled filter [RefFilter] is declared
    outside ref_view.go.  The view only calls its [MatchesFilter] method,
    the predicate of the filter. *)
Record RefFilter : Type := mkRefFilter {
  MatchesFilter : RenderedRef -> bool
}.

(** ** The chain of row collectors *)

(** renderedRefList: a link of the chain.  [child] and [refFilter] are
    nullable pointers. *)
#[warnings="-register-all"] Inductive renderedRefList : Type :=
| RenderedRefList (child : option renderedRefList)
                  (renderedRefs : list RenderedRef)
                  (refFilter : option RefFilter).

Definition newFilteredRenderedRefList (refFilter : option RefFilter)
  : renderedRefList :=
  RenderedRefList None [] refFilter.

Definition newRenderedRefList : renderedRefList :=
  newFilteredRenderedRefList None.

(** The guard of [Add]: a link with a filter that does not match drops
    the row. *)
Definition rejects (refFilter : option RefFilter) (r : RenderedRef) : bool :=
  match refFilter with
  | Some f => negb (MatchesFilter f r)
  | None => false
  end.

Fixpoint Add (l : renderedRefList) (r : RenderedRef) : renderedRefList :=
  match l with
  | RenderedRefList child rows refFilter =>
      if rejects refFilter r then l
      else
        RenderedRefList
          (match child with
           | Some c => Some (Add c r)
           | None => None
           end)
          (rows ++ [r]) refFilter
  end.

(** The loop of [AddChild]: the rows of the parent are added one by one. *)
Definition AddAll (l : renderedRefList) (rows : list RenderedRef)
  : renderedRefList :=
  foldl Add l rows.

Fixpoint AddChild (l new : renderedRefList) : renderedRefList :=
  match l with
  | RenderedRefList (Some c) rows refFilter =>
      RenderedRefList (Some (AddChild c new)) rows refFilter
  | RenderedRefList None rows refFilter =>
      RenderedRefList (Some (AddAll new rows)) rows refFilter
  end.

Definition Child (l : renderedRefList) : option renderedRefList :=
  match l with
  | RenderedRefList child _ _ => child
  end.

(** RemoveChild returns the list after the call and the flag [removed]. *)
Fixpoint RemoveChild (l : renderedRefList) : renderedRefList * bool :=
  match l with
  | RenderedRefList None _ _ => (l, false)
  | RenderedRefList (Some c) rows refFilter =>
      match Child c with
      | None => (RenderedRefList None rows refFilter, true)
      | Some _ =>
          let (c', removed) := RemoveChild c in
          (RenderedRefList (Some c') rows refFilter, removed)
      end
  end.

Fixpoint Clear (l : renderedRefList) : renderedRefList :=
  match l with
  | RenderedRefList child _ refFilter =>
      RenderedRefList
        (match child with
         | Some c => Some (Clear c)
         | None => None
         end)
        [] refFilter
  end.

Fixpoint RenderedRefs (l : renderedRefList) : list RenderedRef :=
  match l with
  | RenderedRefList (Some c) _ _ => RenderedRefs c
  | RenderedRefList None rows _ => rows
  end.

(** The loop of [Children]: [l] is the link whose child is visited next,
    [children] the counter so far. *)
Fixpoint countChildren (l : renderedRefList) (children : N) : N :=
  match l with
  | RenderedRefList (Some c) _ _ => countChildren c (Uint.add children 1)
  | RenderedRefList None _ _ => children
  end.

Definition Children (l : renderedRefList) : N :=
  countChildren l 0.

(** ** Strings *)

(** [strings.TrimLeft(s, " ")]: the leading space characters are removed. *)
Fixpoint TrimLeft_space (s : string) : string :=
  match s with
  | String c s' => if Ascii.eqb c " "%char then TrimLeft_space s' else s
  | EmptyString => s
  end.

(** [s[0:n]]: panics when [n] exceeds the length of [s]. *)
Definition slice_to (s : string) (n : nat) : outcome string :=
  if (n <=? String.length s)%nat then Ret (substring 0 n s) else Panic.

(** The [%v] rendering of an unsigned number: its decimal digits. *)
Definition fmt_uint (n : N) : string :=
  NilZero.string_of_uint (N.to_uint n).

(** The [%v] rendering of a [len]. *)
Definition fmt_len {A} (l : list A) : string :=
  NilZero.string_of_uint (Nat.to_uint (length l)).

(** ** The repository data, the groups and the view *)

(** A Go [error] value, by its message. *)
Definition error : Type := string.

(** Modelled from the spec: [Branch] and [Tag] are declared outside
    ref_view.go.  The view reads their [name] and [oid] fields. *)
Record Branch : Type := mkBranch {
  Branch_name : string;
  Branch_oid : option Oid
}.

Record Tag : Type := mkTag {
  Tag_name : string;
  Tag_oid : option Oid
}.

(** Modelled from the spec: the data provider [RepoData] is an interface
    declared outside ref_view.go.  The record holds what its synchronous
    accessors return at the moment of the call: [Branches()] gives
    [(localBranches, remoteBranches, branchesLoading)], [LocalTags()] gives
    [(localTags, tagsLoading)] and [Head()] gives [(head, headBranch)]. *)
Record RepoData : Type := mkRepoData {
  localBranches : list Branch;
  remoteBranches : list Branch;
  branchesLoading : bool;
  localTags : list Tag;
  tagsLoading : bool;
  head : option Oid;
  headBranch : option Branch
}.

(** renderedRefGenerator: the two generator functions a group can hold. *)
Inductive renderedRefGenerator : Type :=
| generateBranches_fn
| generateTags_fn.

(** refList: a group. *)
Record refList_t : Type := mkRefList {
  name : string;
  expanded : bool;
  renderer : renderedRefGenerator;
  refList_renderedRefType : RenderedRefType
}.

(** RefListener: the answer of [OnRefSelect], [None] for a nil error. *)
Record RefListener : Type := mkRefListener {
  OnRefSelect : string -> option Oid -> option error
}.

(** What the view does to its collaborators, in the order it does it:
    the calls on [channels] ([Channels] is declared outside ref_view.go)
    and the notifications of the listeners (with the position of the
    listener in [refListeners]). *)
Inductive Effect : Type :=
| UpdateDisplay
| ReportStatus (status : string)
| ReportErrors (errors : list error)
| Notified (listener : nat) (refName : string) (oid : option Oid).

(** Modelled from the spec: [ViewPos] is declared outside ref_view.go.
    It is the cursor record of the spec (selected index, first visible
    row, first visible column) behind an interface, so that the copies
    the handlers take of [refView.viewPos] all denote the one cursor. *)
Record ViewPos : Type := mkViewPos {
  activeRowIndex : N;
  viewStartRowIndex : N;
  viewStartColumn : N
}.

Definition ActiveRowIndex (viewPos : ViewPos) : N := activeRowIndex viewPos.

Definition SetActiveRowIndex (i : N) (viewPos : ViewPos) : ViewPos :=
  mkViewPos i (viewStartRowIndex viewPos) (viewStartColumn viewPos).

(** Modelled from the spec: [ViewDimension] is declared outside
    ref_view.go; the view reads its [rows] and [cols]. *)
Record ViewDimension : Type := mkViewDimension {
  rows : N;
  cols : N
}.

(** Modelled from the spec: [ViewSearch] is declared outside
    ref_view.go; the record holds what [viewSearch.SearchActive()]
    returns. *)
Record ViewSearch : Type := mkViewSearch {
  searchActive : bool;
  searchPattern : string;
  lastSearchFoundMatch : bool
}.

(** RefView.  The handler table is the dispatch of the commands below and
    the lock plays no part in a sequential run; [effects] is the record of
    the calls made on [channels] and on the listeners, oldest first. *)
Record RefView : Type := mkRefView {
  repoData : RepoData;
  refLists : list refList_t;
  refListeners : list RefListener;
  active : bool;
  renderedRefs : renderedRefList;
  viewPos : ViewPos;
  viewDimension : ViewDimension;
  viewSearch : ViewSearch;
  effects : list Effect
}.

Definition set_renderedRefs (l : renderedRefList) (rv : RefView) : RefView :=
  mkRefView (repoData rv) (refLists rv) (refListeners rv) (active rv) l
            (viewPos rv) (viewDimension rv) (viewSearch rv) (effects rv).

Definition set_refLists (ls : list refList_t) (rv : RefView) : RefView :=
  mkRefView (repoData rv) ls (refListeners rv) (active rv) (renderedRefs rv)
            (viewPos rv) (viewDimension rv) (viewSearch rv) (effects rv).

Definition set_viewPos (p : ViewPos) (rv : RefView) : RefView :=
  mkRefView (repoData rv) (refLists rv) (refListeners rv) (active rv)
            (renderedRefs rv) p (viewDimension rv) (viewSearch rv)
            (effects rv).

Definition set_viewDimension (d : ViewDimension) (rv : RefView) : RefView :=
  mkRefView (repoData rv) (refLists rv) (refListeners rv) (active rv)
            (renderedRefs rv) (viewPos rv) d (viewSearch rv) (effects rv).

(** One more call on [channels] or on a listener. *)
Definition emit (e : Effect) (rv : RefView) : RefView :=
  mkRefView (repoData rv) (refLists rv) (refListeners rv) (active rv)
            (renderedRefs rv) (viewPos rv) (viewDimension rv)
            (viewSearch rv) (effects rv ++ [e]).

(** NewRefView: the three groups, in their declared order.  The initial
    cursor comes from [NewViewPosition], declared outside ref_view.go. *)
Definition NewRefView (repoData : RepoData) (NewViewPosition : ViewPos)
  : RefView :=
  {| repoData := repoData;
     refLists :=
       [ mkRefList "Branches" true generateBranches_fn RvLocalBranchGroup;
         mkRefList "Remote Branches" false generateBranches_fn
                   RvRemoteBranchGroup;
         mkRefList "Tags" false generateTags_fn RvTagGroup ];
     refListeners := [];
     active := false;
     renderedRefs := newRenderedRefList;
     viewPos := NewViewPosition;
     viewDimension := mkViewDimension 0 0;
     viewSearch := mkViewSearch false "" false;
     effects := [] |}.

Definition RegisterRefListener (refListener : RefListener) (rv : RefView)
  : RefView :=
  mkRefView (repoData rv) (refLists rv) (refListeners rv ++ [refListener])
            (active rv) (renderedRefs rv) (viewPos rv) (viewDimension rv)
            (viewSearch rv) (effects rv).

Definition getDetachedHeadDisplayValue (oid : option Oid) : outcome string :=
  match oid with
  | Some o =>
      prefix ← slice_to (Oid_String o) 7;
      mret ("HEAD detached at " +:+ prefix)
  | None => Panic
  end.

Definition isSelectableRenderedRef (renderedRefType : RenderedRefType)
  : bool :=
  negb (bool_decide (renderedRefType = RvSpace))
  && negb (bool_decide (renderedRefType = RvLoading)).

(** notifyRefListeners: [k] is the position of the next listener. *)
Fixpoint notifyFrom (k : nat) (listeners : list RefListener)
    (refName : string) (oid : option Oid) (rv : RefView)
  : RefView * option error :=
  match listeners with
  | [] => (rv, None)
  | refListener :: listeners' =>
      let rv' := emit (Notified k refName oid) rv in
      match OnRefSelect refListener refName oid with
      | Some err => (rv', Some err)
      | None => notifyFrom (S k) listeners' refName oid rv'
      end
  end.

Definition notifyRefListeners (refName : string) (oid : option Oid)
    (rv : RefView) : RefView * option error :=
  notifyFrom 0 (refListeners rv) refName oid rv.

(** ** Generation of the rows *)

Definition loadingRow : RenderedRef :=
  {| value := "   Loading...";
     oid := None;
     renderedRefType := RvLoading;
     refList := None;
     refNum := 0 |}.

Definition spaceRow : RenderedRef :=
  {| value := "";
     oid := None;
     renderedRefType := RvSpace;
     refList := None;
     refNum := 0 |}.

(** The loop over [branches] at the end of [generateBranches]; the result
    is the row set after the loop. *)
Fixpoint addBranches (branchRenderedRefType : RenderedRefType)
    (branches : list Branch) (branchNum : N) (renderedRefs : renderedRefList)
  : renderedRefList :=
  match branches with
  | [] => renderedRefs
  | branch :: branches' =>
      addBranches branchRenderedRefType branches' (Uint.add branchNum 1)
        (Add renderedRefs
           {| value := "   " +:+ Branch_name branch;
              oid := Branch_oid branch;
              renderedRefType := branchRenderedRefType;
              refList := None;
              refNum := branchNum |})
  end.

Definition generateBranches (rv : RefView) (group : refList_t)
    (renderedRefs : renderedRefList) : outcome renderedRefList :=
  let localBranches := localBranches (repoData rv) in
  let remoteBranches := remoteBranches (repoData rv) in
  let loading := branchesLoading (repoData rv) in
  if loading then Ret (Add renderedRefs loadingRow)
  else
    let branchNum := 1 in
    if decide (refList_renderedRefType group = RvLocalBranchGroup) then
      let branchRenderedRefType := RvLocalBranch in
      let branches := localBranches in
      match headBranch (repoData rv) with
      | None =>
          display ← getDetachedHeadDisplayValue (head (repoData rv));
          let renderedRefs :=
            Add renderedRefs
              {| value := "   " +:+ display;
                 oid := head (repoData rv);
                 renderedRefType := branchRenderedRefType;
                 refList := None;
                 refNum := branchNum |} in
          let branchNum := Uint.add branchNum 1 in
          Ret (addBranches branchRenderedRefType branches branchNum
                 renderedRefs)
      | Some _ =>
          Ret (addBranches branchRenderedRefType branches branchNum
                 renderedRefs)
      end
    else
      let branchRenderedRefType := RvRemoteBranch in
      let branches := remoteBranches in
      Ret (addBranches branchRenderedRefType branches branchNum renderedRefs).

(** The loop over [tags] of [generateTags]. *)
Fixpoint addTags (tags : list Tag) (tagIndex : nat)
    (renderedRefs : renderedRefList) : renderedRefList :=
  match tags with
  | [] => renderedRefs
  | tag :: tags' =>
      addTags tags' (S tagIndex)
        (Add renderedRefs
           {| value := "   " +:+ Tag_name tag;
              oid := Tag_oid tag;
              renderedRefType := RvTag;
              refList := None;
              refNum := Uint.wrap (N.of_nat (tagIndex + 1)) |})
  end.

Definition generateTags (rv : RefView) (group : refList_t)
    (renderedRefs : renderedRefList) : outcome renderedRefList :=
  let tags := localTags (repoData rv) in
  let loading := tagsLoading (repoData rv) in
  if loading then Ret (Add renderedRefs loadingRow)
  else Ret (addTags tags 0 renderedRefs).

(** The call [refList.renderer(refView, refList, renderedRefs)]. *)
Definition run_renderer (g : renderedRefGenerator)
  : RefView -> refList_t -> renderedRefList -> outcome renderedRefList :=
  match g with
  | generateBranches_fn => generateBranches
  | generateTags_fn => generateTags
  end.

Definition headerRow (refIndex : nat) (group : refList_t) : RenderedRef :=
  let expandChar := if expanded group then "-" else "+" in
  {| value := "  [" +:+ expandChar +:+ "] " +:+ name group;
     oid := None;
     renderedRefType := refList_renderedRefType group;
     refList := Some refIndex;
     refNum := 0 |}.

(** The loop of [generateRenderedRefs] over the groups still to visit;
    [refIndex] is the position of the first of them. *)
Fixpoint generateGroups (rv : RefView) (refIndex : nat)
    (groups : list refList_t) (renderedRefs : renderedRefList)
  : outcome renderedRefList :=
  match groups with
  | [] => Ret renderedRefs
  | group :: groups' =>
      let renderedRefs := Add renderedRefs (headerRow refIndex group) in
      renderedRefs ←
        (if expanded group
         then run_renderer (renderer group) rv group renderedRefs
         else Ret renderedRefs);
      let renderedRefs :=
        if negb (Z.of_nat refIndex =? Z.of_nat (length (refLists rv)) - 1)%Z
        then Add renderedRefs spaceRow
        else renderedRefs in
      generateGroups rv (S refIndex) groups' renderedRefs
  end.

Definition generateRenderedRefs (rv : RefView) : outcome RefView :=
  let renderedRefs := Clear (renderedRefs rv) in
  renderedRefs ← generateGroups rv 0 (refLists rv) renderedRefs;
  Ret (set_renderedRefs renderedRefs rv).

(** ** Load callbacks and initialisation *)

(** The loop of the branch callback looking for the head branch. *)
Fixpoint headBranchRow (localBranches : list Branch) (headBranch : Branch)
    (activeRowIndex : N) : N :=
  match localBranches with
  | [] => activeRowIndex
  | branch :: localBranches' =>
      if String.eqb (Branch_name branch) (Branch_name headBranch)
      then activeRowIndex
      else headBranchRow localBranches' headBranch
             (Uint.add activeRowIndex 1)
  end.

(** The callback given to [LoadBranches]. *)
Definition onBranchesLoaded (localBranches remoteBranches : list Branch)
    (rv : RefView) : outcome (RefView * option error) :=
  rv ← generateRenderedRefs rv;
  let activeRowIndex := 1 in
  let activeRowIndex :=
    match headBranch (repoData rv) with
    | Some headBranch => headBranchRow localBranches headBranch activeRowIndex
    | None => activeRowIndex
    end in
  let rv := set_viewPos (SetActiveRowIndex activeRowIndex (viewPos rv)) rv in
  Ret (emit UpdateDisplay rv, None).

(** The callback given to [LoadLocalTags]. *)
Definition onLocalTagsLoaded (tags : list Tag) (rv : RefView)
  : outcome (RefView * option error) :=
  rv ← generateRenderedRefs rv;
  Ret (emit UpdateDisplay rv, None).

(** Initialise.  The three arguments are what the provider's [LoadHead],
    [LoadBranches] and [LoadLocalTags] return; the callbacks are the two
    definitions above. *)
Definition Initialise (errLoadHead errLoadBranches errLoadLocalTags
    : option error) (rv : RefView) : outcome (RefView * option error) :=
  match errLoadHead with
  | Some err => Ret (rv, Some err)
  | None =>
      match errLoadBranches with
      | Some err => Ret (rv, Some err)
      | None =>
          match errLoadLocalTags with
          | Some err => Ret (rv, Some err)
          | None =>
              rv ← generateRenderedRefs rv;
              let head := head (repoData rv) in
              branchName ←
                match headBranch (repoData rv) with
                | None => getDetachedHeadDisplayValue head
                | Some branch => Ret (Branch_name branch)
                end;
              Ret (notifyRefListeners branchName head rv)
          end
      end
  end.

(** ** Cursor movements *)

(** The loop of [moveUpRef].  The loop variable only goes down, to 0 at
    the latest, so the recursion is on it. *)
Fixpoint scanUp (renderedRefs : list RenderedRef) (activeRowIndex : nat)
  : outcome N :=
  match activeRowIndex with
  | O => Ret 0
  | S below =>
      renderedRef ← index renderedRefs (N.of_nat activeRowIndex);
      if isSelectableRenderedRef (renderedRefType renderedRef)
      then Ret (N.of_nat activeRowIndex)
      else scanUp renderedRefs below
  end.

Definition moveUpRef (rv : RefView) : outcome (RefView * option error) :=
  let viewPos := viewPos rv in
  if ActiveRowIndex viewPos =? 0 then Ret (rv, None)
  else
    let renderedRefs := RenderedRefs (renderedRefs rv) in
    let startIndex := ActiveRowIndex viewPos in
    let activeRowIndex := Uint.sub startIndex 1 in
    activeRowIndex ← scanUp renderedRefs (N.to_nat activeRowIndex);
    renderedRef ← index renderedRefs activeRowIndex;
    if isSelectableRenderedRef (renderedRefType renderedRef)
    then
      Ret (emit UpdateDisplay
             (set_viewPos (SetActiveRowIndex activeRowIndex viewPos) rv),
           None)
    else Ret (rv, None).

(** The loop of [moveDownRef].  [gap] is the distance from the loop
    variable up to [renderedRefNum-1]: the guard of the loop holds exactly
    when it is positive, and it shrinks by one with every increment. *)
Fixpoint scanDown (renderedRefs : list RenderedRef) (gap : nat)
    (activeRowIndex : N) : outcome N :=
  match gap with
  | O => Ret activeRowIndex
  | S gap' =>
      renderedRef ← index renderedRefs activeRowIndex;
      if isSelectableRenderedRef (renderedRefType renderedRef)
      then Ret activeRowIndex
      else scanDown renderedRefs gap' (Uint.add activeRowIndex 1)
  end.

Definition moveDownRef (rv : RefView) : outcome (RefView * option error) :=
  let renderedRefs := RenderedRefs (renderedRefs rv) in
  let renderedRefNum := Uint.len renderedRefs in
  let viewPos := viewPos rv in
  if (renderedRefNum =? 0)
     || negb (ActiveRowIndex viewPos <? Uint.sub renderedRefNum 1)
  then Ret (rv, None)
  else
    let startIndex := ActiveRowIndex viewPos in
    let activeRowIndex := Uint.add startIndex 1 in
    activeRowIndex ←
      scanDown renderedRefs
        (N.to_nat (Uint.sub renderedRefNum 1 - activeRowIndex))
        activeRowIndex;
    renderedRef ← index renderedRefs activeRowIndex;
    if isSelectableRenderedRef (renderedRefType renderedRef)
    then
      Ret (emit UpdateDisplay
             (set_viewPos (SetActiveRowIndex activeRowIndex viewPos) rv),
           None)
    else Ret (rv, None).

(** The loop of [moveUpRefPage]; [pageSize] only goes down. *)
Fixpoint moveUpRefPage_loop (pageSize : nat) (rv : RefView)
  : outcome (RefView * option error) :=
  match pageSize with
  | O => Ret (rv, None)
  | S pageSize' =>
      if 0 <? ActiveRowIndex (viewPos rv) then
        res ← moveUpRef rv;
        match res with
        | (rv', Some err) => Ret (rv', Some err)
        | (rv', None) => moveUpRefPage_loop pageSize' rv'
        end
      else Ret (rv, None)
  end.

Definition moveUpRefPage (rv : RefView) : outcome (RefView * option error) :=
  let pageSize := Uint.sub (rows (viewDimension rv)) 2 in
  moveUpRefPage_loop (N.to_nat pageSize) rv.

(** The loop of [moveDownRefPage]. *)
Fixpoint moveDownRefPage_loop (renderedRefNum : N) (pageSize : nat)
    (rv : RefView) : outcome (RefView * option error) :=
  match pageSize with
  | O => Ret (rv, None)
  | S pageSize' =>
      if Uint.add (ActiveRowIndex (viewPos rv)) 1 <? renderedRefNum then
        res ← moveDownRef rv;
        match res with
        | (rv', Some err) => Ret (rv', Some err)
        | (rv', None) => moveDownRefPage_loop renderedRefNum pageSize' rv'
        end
      else Ret (rv, None)
  end.

Definition moveDownRefPage (rv : RefView)
  : outcome (RefView * option error) :=
  let renderedRefs := RenderedRefs (renderedRefs rv) in
  let renderedRefNum := Uint.len renderedRefs in
  let pageSize := Uint.sub (rows (viewDimension rv)) 2 in
  moveDownRefPage_loop renderedRefNum (N.to_nat pageSize) rv.

(** Modelled from the spec: [MoveToFirstLine] and [MoveToLastLine] are
    methods of [ViewPos], declared outside ref_view.go.  They jump to
    index 0 and to index length-1 without looking at the rows, and
    report whether the cursor moved. *)
Definition MoveToFirstLine (viewPos : ViewPos) : ViewPos * bool :=
  if 0 <? activeRowIndex viewPos
  then (SetActiveRowIndex 0 viewPos, true)
  else (viewPos, false).

Definition MoveToLastLine (rows : N) (viewPos : ViewPos) : ViewPos * bool :=
  if (0 <? rows) && negb (activeRowIndex viewPos =? Uint.sub rows 1)
  then (SetActiveRowIndex (Uint.sub rows 1) viewPos, true)
  else (viewPos, false).

Definition moveToFirstRef (rv : RefView) : outcome (RefView * option error) :=
  let (viewPos, changed) := MoveToFirstLine (viewPos rv) in
  if changed then Ret (emit UpdateDisplay (set_viewPos viewPos rv), None)
  else Ret (set_viewPos viewPos rv, None).

Definition moveToLastRef (rv : RefView) : outcome (RefView * option error) :=
  let renderedRefs := RenderedRefs (renderedRefs rv) in
  let renderedRefNum := Uint.len renderedRefs in
  let (viewPos, changed) := MoveToLastLine renderedRefNum (viewPos rv) in
  if changed then Ret (emit UpdateDisplay (set_viewPos viewPos rv), None)
  else Ret (set_viewPos viewPos rv, None).

(** ** Selection *)

Definition toggle (group : refList_t) : refList_t :=
  mkRefList (name group) (negb (expanded group)) (renderer group)
            (refList_renderedRefType group).

(** selectRef.  The group pointer of a header row is followed into
    [refLists]; a nil pointer panics (a position outside [refLists]
    denotes no pointer the program can hold and is treated alike). *)
Definition selectRef (rv : RefView) : outcome (RefView * option error) :=
  let renderedRefs := RenderedRefs (renderedRefs rv) in
  renderedRef ← index renderedRefs (ActiveRowIndex (viewPos rv));
  match renderedRefType renderedRef with
  | RvLocalBranchGroup | RvRemoteBranchGroup | RvTagGroup =>
      match refList renderedRef with
      | Some i =>
          match refLists rv !! i with
          | Some group =>
              let rv := set_refLists (<[i := toggle group]> (refLists rv)) rv in
              rv ← generateRenderedRefs rv;
              Ret (emit UpdateDisplay rv, None)
          | None => Panic
          end
      | None => Panic
      end
  | RvLocalBranch | RvRemoteBranch | RvTag =>
      match notifyRefListeners (TrimLeft_space (value renderedRef))
              (oid renderedRef) rv with
      | (rv, Some err) => Ret (rv, Some err)
      | (rv, None) => Ret (emit UpdateDisplay rv, None)
      end
  | RvSpace | RvLoading => Ret (rv, None)
  end.

(** ** Filter commands *)

(** An element of [action.Args]: a string, or a value of another type. *)
Inductive Arg : Type :=
| ArgString (s : string)
| ArgOther.

Section FilterCommands.

(** The filter compiler [CreateRefFilter] is declared outside
    ref_view.go: it returns the compiled filter and the list of errors. *)
Variable CreateRefFilter : string -> option RefFilter * list error.

Definition addRefFilter (Args : list Arg) (rv : RefView)
  : outcome (RefView * option error) :=
  match Args with
  | [] => Ret (rv, Some "Expected filter query argument")
  | ArgOther :: _ =>
      Ret (rv, Some "Expected filter query argument to have type string")
  | ArgString query :: _ =>
      let (refFilter, errors) := CreateRefFilter query in
      if (0 <? length errors)%nat
      then Ret (emit (ReportErrors errors) rv, None)
      else
        let beforeRenderedRefNum := length (RenderedRefs (renderedRefs rv)) in
        let rv :=
          set_renderedRefs
            (AddChild (renderedRefs rv) (newFilteredRenderedRefList refFilter))
            rv in
        let afterRenderedRefNum := length (RenderedRefs (renderedRefs rv)) in
        if (afterRenderedRefNum <? beforeRenderedRefNum)%nat
        then Ret (emit (ReportStatus "Filter applied") rv, None)
        else Ret (emit (ReportStatus "Filter had no effect") rv, None)
  end.

End FilterCommands.

Definition removeRefFilter (rv : RefView) : outcome (RefView * option error) :=
  let (chain, removed) := RemoveChild (renderedRefs rv) in
  let rv := set_renderedRefs chain rv in
  if removed
  then Ret (emit (ReportStatus "Removed ref filter") rv, None)
  else Ret (emit (ReportStatus "No ref filter applied to remove") rv, None).

(** ** Rendering *)

(** Modelled from the spec: the theme component identifiers are declared
    outside ref_view.go; these are the ones the view names. *)
Inductive ThemeComponentID : Type :=
| CmpNone
| CmpAllviewSearchMatch
| CmpRefviewTitle
| CmpRefviewFooter
| CmpRefviewLocalBranchesHeader
| CmpRefviewRemoteBranchesHeader
| CmpRefviewLocalBranch
| CmpRefviewRemoteBranch
| CmpRefviewTagsHeader
| CmpRefviewTag.

(** refToTheme: the lookup in the map literal, [None] for a missing key. *)
Definition refToTheme (renderedRefType : RenderedRefType)
  : option ThemeComponentID :=
  match renderedRefType with
  | RvLocalBranchGroup => Some CmpRefviewLocalBranchesHeader
  | RvRemoteBranchGroup => Some CmpRefviewRemoteBranchesHeader
  | RvLocalBranch => Some CmpRefviewLocalBranch
  | RvRemoteBranch => Some CmpRefviewRemoteBranch
  | RvTagGroup => Some CmpRefviewTagsHeader
  | RvTag => Some CmpRefviewTag
  | RvSpace | RvLoading => None
  end.

(** The calls made on the window, in order. *)
Inductive WinCall : Type :=
| SetRow (rowIndex startColumn : N) (cmp : ThemeComponentID) (text : string)
| SetSelectedRow (rowIndex : N) (active : bool)
| DrawBorder
| SetTitle (cmp : ThemeComponentID) (text : string)
| SetFooter (cmp : ThemeComponentID) (text : string)
| Highlight (pattern : string) (cmp : ThemeComponentID).

(** Modelled from the spec: [RenderWindow] is an interface declared
    outside ref_view.go.  The record holds its dimensions and the error
    (if any) with which it answers each call. *)
Record RenderWindow : Type := mkRenderWindow {
  ViewDimensions : ViewDimension;
  Rows : N;
  answer : WinCall -> option error
}.

(** The value of the variable [footer] of [renderFooter] when the
    function reaches its last statement. *)
Definition footer (rv : RefView) (selectedRenderedRef : RenderedRef)
  : string :=
  let filters := Children (renderedRefs rv) in
  if 0 <? filters then
    let plural := if 1 <? filters then "s" else "" in
    fmt_uint filters +:+ " filter" +:+ plural +:+ " applied"
  else
    match renderedRefType selectedRenderedRef with
    | RvLocalBranchGroup =>
        if branchesLoading (repoData rv) then "Branches: Loading..."
        else "Branches: " +:+ fmt_len (localBranches (repoData rv))
    | RvRemoteBranchGroup =>
        if branchesLoading (repoData rv) then "Remote Branches: Loading..."
        else "Remote Branches: " +:+ fmt_len (remoteBranches (repoData rv))
    | RvLocalBranch =>
        "Branch " +:+ fmt_uint (refNum selectedRenderedRef) +:+ " of "
        +:+ fmt_len (localBranches (repoData rv))
    | RvRemoteBranch =>
        "Remote Branch " +:+ fmt_uint (refNum selectedRenderedRef) +:+ " of "
        +:+ fmt_len (remoteBranches (repoData rv))
    | RvTagGroup =>
        if tagsLoading (repoData rv) then "Tags: Loading"
        else "Tags: " +:+ fmt_len (localTags (repoData rv))
    | RvTag =>
        "Tag " +:+ fmt_uint (refNum selectedRenderedRef) +:+ " of "
        +:+ fmt_len (localTags (repoData rv))
    | RvSpace | RvLoading => ""
    end.

(** renderFooter: the calls made on the window and the error returned. *)
Definition renderFooter (win : RenderWindow) (rv : RefView)
    (selectedRenderedRef : RenderedRef) : list WinCall * option error :=
  let footer := footer rv selectedRenderedRef in
  if negb (String.eqb footer "")
  then ([SetFooter CmpRefviewFooter footer],
        answer win (SetFooter CmpRefviewFooter footer))
  else ([], None).

(** Modelled from the spec: [DetermineViewStartRow], [ViewStartRowIndex],
    [ViewStartColumn] and [SelectedRowIndex] are methods of [ViewPos],
    declared outside ref_view.go.  [DetermineViewStartRow] moves the first
    visible row by the least amount that brings the selected row into a
    window of [viewRows] rows; it leaves the selected index alone. *)
Definition DetermineViewStartRow (viewRows rows : N) (viewPos : ViewPos)
  : ViewPos :=
  let selected := activeRowIndex viewPos in
  let start := viewStartRowIndex viewPos in
  let start' :=
    if selected <? start then selected
    else if (0 <? viewRows) && (viewRows <=? selected - start)
         then selected - viewRows + 1
         else start in
  mkViewPos selected start' (viewStartColumn viewPos).

Definition ViewStartRowIndex (viewPos : ViewPos) : N :=
  viewStartRowIndex viewPos.

Definition ViewStartColumn (viewPos : ViewPos) : N :=
  viewStartColumn viewPos.

Definition SelectedRowIndex (viewPos : ViewPos) : N :=
  Uint.sub (activeRowIndex viewPos) (viewStartRowIndex viewPos).

(** The row loop of [Render].  [rest] is what [renderedRefs] holds from
    position [refIndex] on, so that its first element is
    [renderedRefs[refIndex]] and the access is out of range when it is
    empty.  The result is the calls made, and either the error that ended
    the loop or [None]. *)
Fixpoint renderRows (win : RenderWindow) (startColumn rows renderedRefNum : N)
    (rest : list RenderedRef) (winRowIndex refIndex : N)
  : outcome (list WinCall * option error) :=
  if (winRowIndex <? rows) && (refIndex <? renderedRefNum) then
    match rest with
    | [] => Panic
    | renderedRef :: rest' =>
        let themeComponentID :=
          match refToTheme (renderedRefType renderedRef) with
          | Some cmp => cmp
          | None => CmpNone
          end in
        let call :=
          SetRow (Uint.add winRowIndex 1) startColumn themeComponentID
                 (value renderedRef) in
        match answer win call with
        | Some err => Ret ([call], Some err)
        | None =>
            res ← renderRows win startColumn rows renderedRefNum rest'
                    (Uint.add winRowIndex 1) (Uint.add refIndex 1);
            Ret (call :: res.1, res.2)
        end
    end
  else Ret ([], None).

(** Render: the view after the call, the calls made on the window and the
    error returned. *)
Definition Render (win : RenderWindow) (rv : RefView)
  : outcome (RefView * list WinCall * option error) :=
  let rv := set_viewDimension (ViewDimensions win) rv in
  let renderedRefs := RenderedRefs (renderedRefs rv) in
  let renderedRefNum := Uint.len renderedRefs in
  let rows := Uint.sub (Rows win) 2 in
  let viewPos := DetermineViewStartRow rows renderedRefNum (viewPos rv) in
  let rv := set_viewPos viewPos rv in
  let refIndex := ViewStartRowIndex viewPos in
  let startColumn := ViewStartColumn viewPos in
  drawn ← renderRows win startColumn rows renderedRefNum
            (drop (N.to_nat refIndex) renderedRefs) 0 refIndex;
  match drawn with
  | (calls, Some err) => Ret (rv, calls, Some err)
  | (calls, None) =>
      let call := SetSelectedRow (Uint.add (SelectedRowIndex viewPos) 1)
                                 (active rv) in
      let calls := calls ++ [call] in
      match answer win call with
      | Some err => Ret (rv, calls, Some err)
      | None =>
          let calls := calls ++ [DrawBorder] in
          let call := SetTitle CmpRefviewTitle "Refs" in
          let calls := calls ++ [call] in
          match answer win call with
          | Some err => Ret (rv, calls, Some err)
          | None =>
              selectedRenderedRef ←
                index renderedRefs (ActiveRowIndex viewPos);
              match renderFooter win rv selectedRenderedRef with
              | (fcalls, Some err) => Ret (rv, calls ++ fcalls, Some err)
              | (fcalls, None) =>
                  let calls := calls ++ fcalls in
                  if searchActive (viewSearch rv)
                     && lastSearchFoundMatch (viewSearch rv)
                  then
                    let call := Highlight (searchPattern (viewSearch rv))
                                          CmpAllviewSearchMatch in
                    Ret (rv, calls ++ [call], answer win call)
                  else Ret (rv, calls, None)
              end
          end
      end
  end.

(** OnSearchMatch, Line and LineNumber. *)
Definition OnSearchMatch (matchLineIndex : N) (rv : RefView)
  : outcome RefView :=
  let renderedRefs := RenderedRefs (renderedRefs rv) in
  renderedRef ← index renderedRefs matchLineIndex;
  if isSelectableRenderedRef (renderedRefType renderedRef)
  then Ret (set_viewPos (SetActiveRowIndex matchLineIndex (viewPos rv)) rv)
  else Ret rv.

Definition Line (lineIndex : N) (rv : RefView) : outcome string :=
  let renderedRefs := RenderedRefs (renderedRefs rv) in
  let renderedRefNum := Uint.len renderedRefs in
  if renderedRefNum <=? lineIndex then Ret ""
  else
    renderedRef ← index renderedRefs lineIndex;
    Ret (value renderedRef).

Definition LineNumber (rv : RefView) : N :=
  Uint.len (RenderedRefs (renderedRefs rv)).

(** ** The remaining entry points *)

(** OnActiveChange. *)
Definition OnActiveChange (active : bool) (rv : RefView) : RefView :=
  mkRefView (repoData rv) (refLists rv) (refListeners rv) active
            (renderedRefs rv) (viewPos rv) (viewDimension rv)
            (viewSearch rv) (effects rv).

(** The key of the handler table: the action types the view handles
    itself, and any other one. *)
Inductive ActionType : Type :=
| ActionPrevLine
| ActionNextLine
| ActionPrevPage
| ActionNextPage
| ActionScrollRight
| ActionScrollLeft
| ActionFirstLine
| ActionLastLine
| ActionSelect
| ActionAddFilter
| ActionRemoveFilter
| ActionOtherType.

Record Action : Type := mkAction {
  Action_ActionType : ActionType;
  Action_Args : list Arg
}.

Section Dispatch.

(** Declared outside ref_view.go and taken as they are: the filter
    compiler, the two horizontal moves of [ViewPos] (the second reports
    whether the position changed) and the action handler of the search
    collaborator. *)
Variable CreateRefFilter : string -> option RefFilter * list error.
Variable MovePageRight : N -> ViewPos -> ViewPos.
Variable MovePageLeft : N -> ViewPos -> ViewPos * bool.
Variable searchHandleAction :
  Action -> RefView -> outcome (RefView * option error).

Definition scrollRefViewRight (rv : RefView)
  : outcome (RefView * option error) :=
  let viewPos := MovePageRight (cols (viewDimension rv)) (viewPos rv) in
  Ret (emit UpdateDisplay (set_viewPos viewPos rv), None).

Definition scrollRefViewLeft (rv : RefView)
  : outcome (RefView * option error) :=
  let (viewPos, changed) :=
    MovePageLeft (cols (viewDimension rv)) (viewPos rv) in
  if changed then Ret (emit UpdateDisplay (set_viewPos viewPos rv), None)
  else Ret (set_viewPos viewPos rv, None).

(** HandleAction: the lookup in [handlers], and the search collaborator
    for an action type that is not a key of it. *)
Definition HandleAction (action : Action) (rv : RefView)
  : outcome (RefView * option error) :=
  match Action_ActionType action with
  | ActionPrevLine => moveUpRef rv
  | ActionNextLine => moveDownRef rv
  | ActionPrevPage => moveUpRefPage rv
  | ActionNextPage => moveDownRefPage rv
  | ActionScrollRight => scrollRefViewRight rv
  | ActionScrollLeft => scrollRefViewLeft rv
  | ActionFirstLine => moveToFirstRef rv
  | ActionLastLine => moveToLastRef rv
  | ActionSelect => selectRef rv
  | ActionAddFilter => addRefFilter CreateRefFilter (Action_Args action) rv
  | ActionRemoveFilter => removeRefFilter rv
  | ActionOtherType => searchHandleAction action rv
  end.

End Dispatch.

(** * Definitions for the statements

    The vocabulary of the properties below: the names the specification
    uses for the chain operations, the rows of a regeneration written as
    a list, the predicates on the cursor, and the example views on which
    the model is run. *)

(** The names the specification gives to the chain operations:
    [AddFilter] is the call [AddChild(newFilteredRenderedRefList(f))] that
    [addRefFilter] makes, [RemoveFilter] is [RemoveChild], [VisibleRows]
    is [RenderedRefs] and [FilterDepth] is [Children]. *)
Definition AddFilter (l : renderedRefList) (refFilter : option RefFilter)
  : renderedRefList :=
  AddChild l (newFilteredRenderedRefList refFilter).

(** The number of links below the head. *)
Fixpoint depth (l : renderedRefList) : nat :=
  match l with
  | RenderedRefList (Some c) _ _ => S (depth c)
  | RenderedRefList None _ _ => O
  end.

(** A row passes a link when the link's filter, if any, matches it. *)
Definition passes (refFilter : option RefFilter) (r : RenderedRef) : bool :=
  negb (rejects refFilter r).

(** A row passes the chain when it passes every link. *)
Fixpoint passesAll (l : renderedRefList) (r : RenderedRef) : bool :=
  match l with
  | RenderedRefList (Some c) _ refFilter => passes refFilter r && passesAll c r
  | RenderedRefList None _ refFilter => passes refFilter r
  end.

(** What a run of [Add] over [rows] does to a chain, link by link: each
    link keeps the rows that pass it and hands these, and only these,
    to its child. *)
Fixpoint extend (l : renderedRefList) (rows : list RenderedRef)
  : renderedRefList :=
  match l with
  | RenderedRefList child collected refFilter =>
      let kept := filter (λ r, passes refFilter r) rows in
      RenderedRefList
        (match child with
         | Some c => Some (extend c kept)
         | None => None
         end)
        (collected ++ kept) refFilter
  end.

(** No link of the chain holds a row. *)
Fixpoint allEmpty (l : renderedRefList) : bool :=
  match l with
  | RenderedRefList (Some c) collected _ =>
      bool_decide (collected = []) && allEmpty c
  | RenderedRefList None collected _ => bool_decide (collected = [])
  end.

(** The chain after the first [k] filters of [ps] have been added. *)
Definition afterFilters (l : renderedRefList) (ps : list (option RefFilter))
    (k : nat) : renderedRefList :=
  foldl AddFilter l (take k ps).

(** The rows of a regeneration, written as the list the specification
    describes rather than as the run of [Add] calls of the source. *)

(** An entry row: the text is indented by three spaces. *)
Definition entryRow (kind : RenderedRefType) (text : string)
    (id : option Oid) (indexInGroup : N) : RenderedRef :=
  {| value := "   " +:+ text;
     oid := id;
     renderedRefType := kind;
     refList := None;
     refNum := indexInGroup |}.

(** Entries in provider order, numbered from [first] on (in a [uint]). *)
Definition branchRows (kind : RenderedRefType) (first : N)
    (branches : list Branch) : list RenderedRef :=
  imap (λ i branch,
          entryRow kind (Branch_name branch) (Branch_oid branch)
                   (Uint.wrap (first + N.of_nat i)))
       branches.

Definition tagRows (first : nat) (tags : list Tag) : list RenderedRef :=
  imap (λ i tag,
          entryRow RvTag (Tag_name tag) (Tag_oid tag)
                   (Uint.wrap (N.of_nat (first + i + 1))))
       tags.

(** What the generator of a group contributes: one Loading row while the
    backing collection is loading; otherwise the entries, led for the
    local branches by the detached-head row when HEAD is on no branch. *)
Definition generatorRows (rv : RefView) (group : refList_t)
  : outcome (list RenderedRef) :=
  match renderer group with
  | generateBranches_fn =>
      if branchesLoading (repoData rv) then Ret [loadingRow]
      else if decide (refList_renderedRefType group = RvLocalBranchGroup)
      then
        match headBranch (repoData rv) with
        | None =>
            display ← getDetachedHeadDisplayValue (head (repoData rv));
            Ret (entryRow RvLocalBranch display (head (repoData rv)) 1
                 :: branchRows RvLocalBranch 2 (localBranches (repoData rv)))
        | Some _ =>
            Ret (branchRows RvLocalBranch 1 (localBranches (repoData rv)))
        end
      else Ret (branchRows RvRemoteBranch 1 (remoteBranches (repoData rv)))
  | generateTags_fn =>
      if tagsLoading (repoData rv) then Ret [loadingRow]
      else Ret (tagRows 0 (localTags (repoData rv)))
  end.

(** The rows of the groups from position [refIndex] on: per group the
    header, the generator's rows when the group is expanded, and one
    spacer unless the group is the last. *)
Fixpoint groupRows (rv : RefView) (refIndex : nat) (groups : list refList_t)
  : outcome (list RenderedRef) :=
  match groups with
  | [] => Ret []
  | group :: groups' =>
      body ← (if expanded group then generatorRows rv group else Ret []);
      rest ← groupRows rv (S refIndex) groups';
      Ret (headerRow refIndex group
           :: body
           ++ match groups' with [] => [] | _ :: _ => [spaceRow] end
           ++ rest)
  end.

Definition regeneratedRows (rv : RefView) : outcome (list RenderedRef) :=
  groupRows rv 0 (refLists rv).

(** The backing collection of a group is still loading. *)
Definition groupLoading (rv : RefView) (group : refList_t) : bool :=
  match renderer group with
  | generateBranches_fn => branchesLoading (repoData rv)
  | generateTags_fn => tagsLoading (repoData rv)
  end.

(** The kinds of the rows a generator contributes: entries and Loading. *)
Definition generatorKindb (kind : RenderedRefType) : bool :=
  match kind with
  | RvLocalBranch | RvRemoteBranch | RvTag | RvLoading => true
  | RvLocalBranchGroup | RvRemoteBranchGroup | RvTagGroup | RvSpace => false
  end.

Definition generatorKind (r : RenderedRef) : Prop :=
  refList r = None ∧ generatorKindb (renderedRefType r) = true.

(** The number of rows of [rows] of kind [kind]. *)
Definition countKind (kind : RenderedRefType) (rows : list RenderedRef)
  : nat :=
  length (filter (λ r, renderedRefType r = kind) rows).

(** The run of a command on a view known not to panic. *)
Definition returned {A} (default : A) (m : outcome A) : A :=
  match m with
  | Ret a => a
  | Panic => default
  end.

(** The view after the calls [es] have been made, in order. *)
Definition add_effects (es : list Effect) (rv : RefView) : RefView :=
  mkRefView (repoData rv) (refLists rv) (refListeners rv) (active rv)
            (renderedRefs rv) (viewPos rv) (viewDimension rv)
            (viewSearch rv) (effects rv ++ es).

(** The notifications of the listeners at positions [k], ..., [k+n-1]. *)
Definition notifications (k n : nat) (refName : string) (oid : option Oid)
  : list Effect :=
  map (λ i, Notified i refName oid) (seq k n).

Definition isEntry (kind : RenderedRefType) : bool :=
  match kind with
  | RvLocalBranch | RvRemoteBranch | RvTag => true
  | _ => false
  end.

Definition isGroupHeader (kind : RenderedRefType) : bool :=
  match kind with
  | RvLocalBranchGroup | RvRemoteBranchGroup | RvTagGroup => true
  | _ => false
  end.

(** The white space characters of ASCII: tab, line feed, vertical tab,
    form feed, carriage return and space. *)
Definition isWhitespace (c : ascii) : bool :=
  let n := nat_of_ascii c in
  ((9 <=? n)%nat && (n <=? 13)%nat) || (n =? 32)%nat.

(** The text without its leading white space. *)
Fixpoint TrimLeft_whitespace (s : string) : string :=
  match s with
  | String c s' => if isWhitespace c then TrimLeft_whitespace s' else s
  | EmptyString => s
  end.

(** [n] space characters. *)
Fixpoint spaces (n : nat) : string :=
  match n with
  | O => ""
  | S n' => String " " (spaces n')
  end.

(** The row at the cursor, if the selected index is in range. *)
Definition cursorRow (rv : RefView) : option RenderedRef :=
  RenderedRefs (renderedRefs rv) !! N.to_nat (ActiveRowIndex (viewPos rv)).

(** The selected index is in range and the row there is selectable. *)
Definition cursorSelectable (rv : RefView) : bool :=
  match cursorRow rv with
  | Some r => isSelectableRenderedRef (renderedRefType r)
  | None => false
  end.

(** Some visible row is selectable. *)
Definition selectableExists (rv : RefView) : bool :=
  existsb (λ r, isSelectableRenderedRef (renderedRefType r))
          (RenderedRefs (renderedRefs rv)).

(** The view when the provider's data has become [data]. *)
Definition set_repoData (data : RepoData) (rv : RefView) : RefView :=
  mkRefView data (refLists rv) (refListeners rv) (active rv)
            (renderedRefs rv) (viewPos rv) (viewDimension rv)
            (viewSearch rv) (effects rv).

(** What a single step can do: nothing, or a move onto a selectable
    row; the rows stay as they are. *)
Definition stepOutcome (rv rv' : RefView) : Prop :=
  renderedRefs rv' = renderedRefs rv
  ∧ viewDimension rv' = viewDimension rv
  ∧ (rv' = rv ∨ cursorSelectable rv' = true).

(** The rows of groups that all have a group after them: as [groupRows],
    with the spacer after every one of them. *)
Fixpoint leadingRows (rv : RefView) (refIndex : nat) (groups : list refList_t)
  : outcome (list RenderedRef) :=
  match groups with
  | [] => Ret []
  | group :: groups' =>
      body ← (if expanded group then generatorRows rv group else Ret []);
      rest ← leadingRows rv (S refIndex) groups';
      Ret (headerRow refIndex group :: body ++ [spaceRow] ++ rest)
  end.

(** A movement keeps a cursor that rests on a selectable row on a
    selectable row, returns without error and leaves the rows alone. *)
Definition keepsCursorSelectable
    (move : RefView → outcome (RefView * option error)) (rv : RefView)
  : Prop :=
  cursorSelectable rv = true →
  ∃ rv', move rv = Ret (rv', None)
         ∧ cursorSelectable rv' = true
         ∧ renderedRefs rv' = renderedRefs rv.

(** The detached-head text can be built, or is not needed: the branches
    are still loading, or HEAD is on a branch, or the head object id has
    the 7 characters the text takes. *)
Definition headDisplayable (rv : RefView) : Prop :=
  branchesLoading (repoData rv) = true
  ∨ is_Some (headBranch (repoData rv))
  ∨ ∃ o, head (repoData rv) = Some o
         ∧ (7 ≤ String.length (Oid_String o))%nat.



(** The links of the chain from the head down: the rows each of them
    holds, and its filter. *)
Fixpoint links (l : renderedRefList)
  : list (list RenderedRef * option RefFilter) :=
  match l with
  | RenderedRefList child rows refFilter =>
      (rows, refFilter)
      :: match child with
         | Some c => links c
         | None => []
         end
  end.

(** The filters of the first [n] links, and of all the links. *)
Definition filtersUpTo (n : nat) (l : renderedRefList) : list RefFilter :=
  omap snd (take n (links l)).

Definition installedFilters (l : renderedRefList) : list RefFilter :=
  omap snd (links l).

(** The row is matched by each of the filters. *)
Definition matchesEvery (fs : list RefFilter) (r : RenderedRef) : bool :=
  forallb (λ f, MatchesFilter f r) fs.

(** ** Example views *)

(** A view over a repository with two local branches, one remote branch
    and one tag, all loaded, HEAD on the first local branch. *)
Definition exampleOid : Oid := mkOid "abc1234def5678900000".

Definition exampleRepo : RepoData :=
  {| localBranches := [mkBranch "master" (Some exampleOid);
                       mkBranch "dev" (Some (mkOid "1111111222222233333"))];
     remoteBranches := [mkBranch "origin/master" (Some exampleOid)];
     branchesLoading := false;
     localTags := [mkTag "v1.0" (Some exampleOid)];
     tagsLoading := false;
     head := Some exampleOid;
     headBranch := Some (mkBranch "master" (Some exampleOid)) |}.

Definition exampleView : RefView :=
  NewRefView exampleRepo (mkViewPos 0 0 0).

(** A filter that lets only local branch rows pass. *)
Definition onlyLocalBranches : RefFilter :=
  mkRefFilter (λ r, bool_decide (renderedRefType r = RvLocalBranch)).

Definition filteredView : RefView :=
  set_renderedRefs
    (AddFilter (renderedRefs exampleView) (Some onlyLocalBranches))
    exampleView.

(** The example repository with HEAD detached. *)
Definition detachedRepo : RepoData :=
  {| localBranches := localBranches exampleRepo;
     remoteBranches := remoteBranches exampleRepo;
     branchesLoading := false;
     localTags := localTags exampleRepo;
     tagsLoading := false;
     head := Some exampleOid;
     headBranch := None |}.

Definition detachedView : RefView :=
  NewRefView detachedRepo (mkViewPos 0 0 0).

Definition localGroup : refList_t :=
  mkRefList "Branches" true generateBranches_fn RvLocalBranchGroup.

(** A filter that matches no row. *)
Definition matchNothing : RefFilter := mkRefFilter (λ _, false).

(** The example view after its first regeneration, then with the filter
    that matches nothing installed: no row is visible. *)
Definition regeneratedView : RefView :=
  returned exampleView (generateRenderedRefs exampleView).

Definition emptiedView : RefView :=
  set_renderedRefs (AddFilter (renderedRefs regeneratedView)
                              (Some matchNothing))
                   regeneratedView.

(** Three listeners, the second of which fails, registered on the example
    view with the cursor on its first branch row. *)
Definition quietListener : RefListener := mkRefListener (λ _ _, None).

Definition failingListener : RefListener :=
  mkRefListener (λ _ _, Some "listener failed").

Definition listenedView : RefView :=
  set_viewPos (mkViewPos 1 0 0)
    (RegisterRefListener quietListener
       (RegisterRefListener failingListener
          (RegisterRefListener quietListener regeneratedView))).

(** A window that accepts every call. *)
Definition plainWindow : RenderWindow :=
  mkRenderWindow (mkViewDimension 24 80) 24 (λ _, None).

(** The example view when the provider has begun to load the branches
    and the tags anew. *)
Definition reloadingView : RefView :=
  mkRefView
    (mkRepoData (localBranches exampleRepo) (remoteBranches exampleRepo) true
                (localTags exampleRepo) true (head exampleRepo)
                (headBranch exampleRepo))
    (refLists regeneratedView) (refListeners regeneratedView)
    (active regeneratedView) (renderedRefs regeneratedView)
    (mkViewPos 1 0 0) (viewDimension regeneratedView)
    (viewSearch regeneratedView) (effects regeneratedView).

(** A run of the view: it is created while the provider is still
    loading, initialised, the user collapses the "Branches" group, and
    then the branches and the tags arrive. *)
Definition loadingRepo : RepoData :=
  {| localBranches := [];
     remoteBranches := [];
     branchesLoading := true;
     localTags := [];
     tagsLoading := true;
     head := head exampleRepo;
     headBranch := headBranch exampleRepo |}.

Definition startView : RefView :=
  NewRefView loadingRepo (mkViewPos 0 0 0).

Definition initialisedView : RefView :=
  (returned (startView, None) (Initialise None None None startView)).1.

Definition collapsedView : RefView :=
  (returned (initialisedView, None) (selectRef initialisedView)).1.

Definition afterBranchesView : RefView :=
  (returned (collapsedView, None)
     (onBranchesLoaded (localBranches exampleRepo)
        (remoteBranches exampleRepo)
        (set_repoData exampleRepo collapsedView))).1.

Definition afterTagsView : RefView :=
  (returned (afterBranchesView, None)
     (onLocalTagsLoaded (localTags exampleRepo) afterBranchesView)).1.

(** ** Further definitions for the statements *)

(** The rows a link holds itself, and its filter. *)
Definition collected (l : renderedRefList) : list RenderedRef :=
  match l with
  | RenderedRefList _ rows _ => rows
  end.

Definition filterOf (l : renderedRefList) : option RefFilter :=
  match l with
  | RenderedRefList _ _ refFilter => refFilter
  end.

(** Every link below the head holds exactly the rows of its parent that
    pass its own filter. *)
Fixpoint consistent (l : renderedRefList) : Prop :=
  match l with
  | RenderedRefList (Some c) rows _ =>
      collected c = filter (λ r, passes (filterOf c) r) rows ∧ consistent c
  | RenderedRefList None _ _ => True
  end.

(** A row passes every link below the head. *)
Definition passesBelow (l : renderedRefList) (r : RenderedRef) : bool :=
  match Child l with
  | Some c => passesAll c r
  | None => true
  end.

(** The filter of the last link. *)
Fixpoint lastFilter (l : renderedRefList) : option RefFilter :=
  match l with
  | RenderedRefList (Some c) _ _ => lastFilter c
  | RenderedRefList None _ refFilter => refFilter
  end.

(** The row at index [j] exists and is selectable. *)
Definition selectableAt (rows : list RenderedRef) (j : N) : bool :=
  match rows !! N.to_nat j with
  | Some r => isSelectableRenderedRef (renderedRefType r)
  | None => false
  end.

(** The view with the cursor moved to [j] and a redraw requested. *)
Definition movedTo (j : N) (rv : RefView) : RefView :=
  emit UpdateDisplay (set_viewPos (SetActiveRowIndex j (viewPos rv)) rv).

(** The theme component a row is drawn with. *)
Definition themeOf (r : RenderedRef) : ThemeComponentID :=
  match refToTheme (renderedRefType r) with
  | Some cmp => cmp
  | None => CmpNone
  end.

(** The calls that draw [rows] on consecutive window rows, the first of
    them on window row [winRowIndex + 1]. *)
Definition rowCalls (startColumn winRowIndex : N) (rows : list RenderedRef)
  : list WinCall :=
  imap (λ k r,
          SetRow (winRowIndex + N.of_nat k + 1) startColumn (themeOf r)
                 (value r))
       rows.

(** The range in which the number of an entry row of [rv] lies: from 1 to
    the size of the collection the footer prints beside it, and one more
    for the local branches while HEAD is detached.  Rows that are no
    entries carry the number 0. *)
Definition numbered (rv : RefView) (r : RenderedRef) : Prop :=
  match renderedRefType r with
  | RvLocalBranch =>
      1 ≤ refNum r
      ≤ N.of_nat (length (localBranches (repoData rv)))
        + match headBranch (repoData rv) with Some _ => 0 | None => 1 end
  | RvRemoteBranch =>
      1 ≤ refNum r ≤ N.of_nat (length (remoteBranches (repoData rv)))
  | RvTag => 1 ≤ refNum r ≤ N.of_nat (length (localTags (repoData rv)))
  | _ => refNum r = 0
  end.

(** The collections are small enough for the [uint] counters. *)
Definition countable (rv : RefView) : Prop :=
  N.of_nat (length (localBranches (repoData rv))) + 1 < Uint.modulus
  ∧ N.of_nat (length (remoteBranches (repoData rv))) < Uint.modulus
  ∧ N.of_nat (length (localTags (repoData rv))) < Uint.modulus.

(** [n] runs of [move], one after the other, stopping at the first error
    (and panicking with the first run that panics). *)
Fixpoint repeatMove (n : nat)
    (move : RefView → outcome (RefView * option error)) (rv : RefView)
  : outcome (RefView * option error) :=
  match n with
  | O => Ret (rv, None)
  | S n' =>
      res ← move rv;
      match res with
      | (rv', Some err) => Ret (rv', Some err)
      | (rv', None) => repeatMove n' move rv'
      end
  end.

(** The actions that move the cursor or scroll the view. *)
Definition movementAction (t : ActionType) : bool :=
  match t with
  | ActionPrevLine | ActionNextLine | ActionPrevPage | ActionNextPage
  | ActionScrollRight | ActionScrollLeft | ActionFirstLine | ActionLastLine =>
      true
  | ActionSelect | ActionAddFilter | ActionRemoveFilter | ActionOtherType =>
      false
  end.

(** From [rv] to [rv'] nothing but the cursor has changed, and nothing
    but requests to redraw has been sent. *)
Definition onlyCursorMoved (rv rv' : RefView) : Prop :=
  repoData rv' = repoData rv
  ∧ refLists rv' = refLists rv
  ∧ refListeners rv' = refListeners rv
  ∧ active rv' = active rv
  ∧ renderedRefs rv' = renderedRefs rv
  ∧ viewDimension rv' = viewDimension rv
  ∧ viewSearch rv' = viewSearch rv
  ∧ ∃ n, effects rv' = effects rv ++ replicate n UpdateDisplay.

(** ** Further example views *)

(** The rows of the example view behind the filter that lets only local
    branch rows pass. *)
Definition filteredChain : renderedRefList :=
  AddFilter (renderedRefs regeneratedView) (Some onlyLocalBranches).

(** The filtered example view after a regeneration. *)
Definition regeneratedFilteredView : RefView :=
  returned filteredView (generateRenderedRefs filteredView).

(** The example view with the cursor on the "Remote Branches" header,
    just below the first spacer, and on the last branch row, just above
    it. *)
Definition belowSpacerView : RefView :=
  set_viewPos (mkViewPos 4 0 0) regeneratedView.

Definition aboveSpacerView : RefView :=
  set_viewPos (mkViewPos 2 0 0) regeneratedView.

(** What [Render] gives for the example view on the plain window. *)
Definition renderedExample : RefView * list WinCall * option error :=
  returned (regeneratedView, [], None) (Render plainWindow regeneratedView).

(** The example view with HEAD detached, after its first regeneration. *)
Definition detachedRegeneratedView : RefView :=
  returned detachedView (generateRenderedRefs detachedView).

(** Two filter compilers: every query gives the filter that matches
    nothing, or the one that lets local branch rows pass. *)
Definition compileMatchNothing (query : string)
  : option RefFilter * list error :=
  (Some matchNothing, []).

Definition compileOnlyLocalBranches (query : string)
  : option RefFilter * list error :=
  (Some onlyLocalBranches, []).

(** A search collaborator that handles nothing, and the page-down action
    on the rendered example view (22 rows to the page). *)
Definition idleSearch (action : Action) (rv : RefView)
  : outcome (RefView * option error) :=
  Ret (rv, None).

Definition pageDownAction : Action := mkAction ActionNextPage [].

Definition pagedDownExample : RefView * option error :=
  returned (renderedExample.1.1, None)
    (HandleAction compileMatchNothing (λ _ p, p) (λ _ p, (p, false))
                  idleSearch pageDownAction renderedExample.1.1).


(** The initialised view with the cursor on the "Remote Branches"
    header, when the provider's data has arrived and the rows have not
    been regenerated yet: the rows are those of the last regeneration,
    not those a regeneration would produce now. *)
Definition staleView : RefView :=
  set_viewPos (mkViewPos 3 0 0) (set_repoData exampleRepo initialisedView).

Definition staleToggledView : RefView :=
  (returned (staleView, None) (selectRef staleView)).1.

(** * Properties *)

(** ** The chain *)

Section Chain.

Implicit Types (l c : renderedRefList) (r : RenderedRef).
Implicit Types (rs : list RenderedRef) (f : option RefFilter).

(** Induction along the chain. *)
Lemma chain_ind (P : renderedRefList → Prop) :
  (∀ rs f, P (RenderedRefList None rs f)) →
  (∀ c rs f, P c → P (RenderedRefList (Some c) rs f)) →
  ∀ l, P l.
Proof.
  intros Hend Hlink. fix IH 1. intros [[c|] rs f].
  - apply Hlink, IH.
  - apply Hend.
Qed.

Lemma extend_nil l : extend l [] = l.
Proof.
  induction l as [rs f|c rs f IH] using chain_ind; simpl;
    rewrite filter_nil, app_nil_r.
  - reflexivity.
  - now rewrite IH.
Qed.

Lemma Add_extend l r : Add l r = extend l [r].
Proof.
  induction l as [rs f|c rs f IH] using chain_ind; simpl;
    rewrite filter_cons, filter_nil; unfold passes;
    destruct (rejects f r); simpl.
  - now rewrite app_nil_r.
  - reflexivity.
  - now rewrite extend_nil, app_nil_r.
  - now rewrite IH.
Qed.

Lemma extend_app l rs1 rs2 :
  extend (extend l rs1) rs2 = extend l (rs1 ++ rs2).
Proof.
  revert rs1 rs2.
  induction l as [rs f|c rs f IH] using chain_ind; intros rs1 rs2; simpl.
  - now rewrite filter_app, app_assoc.
  - now rewrite IH, filter_app, app_assoc.
Qed.

(** A run of [Add] is [extend]. *)
Lemma AddAll_extend rs l : AddAll l rs = extend l rs.
Proof.
  unfold AddAll. revert l.
  induction rs as [|r rs IH]; intros l; simpl.
  - now rewrite extend_nil.
  - now rewrite IH, Add_extend, extend_app.
Qed.

Lemma RenderedRefs_extend l rs :
  RenderedRefs (extend l rs)
  = RenderedRefs l ++ filter (λ r, passesAll l r) rs.
Proof.
  revert rs.
  induction l as [rs0 f|c rs0 f IH] using chain_ind; intros rs; simpl.
  - reflexivity.
  - rewrite IH. f_equal. rewrite list_filter_filter.
    apply list_filter_iff. intros r.
    destruct (passes f r), (passesAll c r); simpl; tauto.
Qed.

Lemma depth_extend l rs : depth (extend l rs) = depth l.
Proof.
  revert rs. induction l as [rs0 f|c rs0 f IH] using chain_ind;
    intros rs; simpl; [reflexivity|now rewrite IH].
Qed.

Lemma allEmpty_Clear l : allEmpty (Clear l) = true.
Proof.
  induction l as [rs f|c rs f IH] using chain_ind; simpl;
    [reflexivity|now rewrite IH].
Qed.

Lemma passesAll_Clear l r : passesAll (Clear l) r = passesAll l r.
Proof.
  induction l as [rs f|c rs f IH] using chain_ind; simpl;
    [reflexivity|now rewrite IH].
Qed.

Lemma RenderedRefs_allEmpty l : allEmpty l = true → RenderedRefs l = [].
Proof.
  induction l as [rs f|c rs f IH] using chain_ind; simpl; intros H.
  - now apply bool_decide_eq_true in H.
  - apply andb_prop in H as [_ H]. auto.
Qed.

(** [AddChild] hangs the new link below the last one and feeds it the
    rows the last one holds. *)
Lemma RenderedRefs_AddChild l new :
  RenderedRefs (AddChild l new) = RenderedRefs (AddAll new (RenderedRefs l)).
Proof.
  induction l as [rs f|c rs f IH] using chain_ind; simpl;
    [reflexivity|exact IH].
Qed.

Lemma RenderedRefs_AddFilter l f :
  RenderedRefs (AddFilter l f)
  = filter (λ r, passes f r) (RenderedRefs l).
Proof.
  unfold AddFilter. rewrite RenderedRefs_AddChild, AddAll_extend,
    RenderedRefs_extend. reflexivity.
Qed.

Lemma Child_AddChild l new : Child (AddChild l new) ≠ None.
Proof. destruct l as [[c|] rs f]; simpl; discriminate. Qed.

Lemma Child_extend_None l rs : Child l = None → Child (extend l rs) = None.
Proof. destruct l as [[c|] rs0 f]; simpl; [discriminate|reflexivity]. Qed.

Lemma RemoveChild_AddChild l new :
  Child new = None → RemoveChild (AddChild l new) = (l, true).
Proof.
  intros Hnew.
  induction l as [rs f|c rs f IH] using chain_ind; simpl.
  - rewrite AddAll_extend, Child_extend_None by assumption. reflexivity.
  - destruct (Child (AddChild c new)) eqn:E.
    + now rewrite IH.
    + now apply Child_AddChild in E.
Qed.

Lemma depth_AddChild l new :
  depth (AddChild l new) = S (depth l + depth new).
Proof.
  induction l as [rs f|c rs f IH] using chain_ind; simpl.
  - now rewrite AddAll_extend, depth_extend.
  - now rewrite IH.
Qed.

End Chain.

(** ** The links of the chain, one by one *)

Section ChainLinks.

Implicit Types (l : renderedRefList) (r : RenderedRef).

Lemma passes_matches (refFilter : option RefFilter) r :
  passes refFilter r
  = match refFilter with
    | Some f => MatchesFilter f r
    | None => true
    end.
Proof.
  unfold passes, rejects. destruct refFilter; [apply negb_involutive|].
  reflexivity.
Qed.

Lemma filters_cons (rows : list RenderedRef) (refFilter : option RefFilter)
    (rest : list (list RenderedRef * option RefFilter)) r :
  matchesEvery (omap snd ((rows, refFilter) :: rest)) r
  = passes refFilter r && matchesEvery (omap snd rest) r.
Proof. rewrite passes_matches. now destruct refFilter. Qed.

Lemma passesAll_matchesEvery l r :
  passesAll l r = matchesEvery (installedFilters l) r.
Proof.
  unfold installedFilters.
  induction l as [rs f|c rs f IH] using chain_ind; cbn [passesAll links].
  - rewrite filters_cons. simpl. now rewrite andb_true_r.
  - now rewrite filters_cons, IH.
Qed.

Lemma length_links l : length (links l) = S (depth l).
Proof.
  induction l as [rs f|c rs f IH] using chain_ind; simpl;
    [reflexivity|now rewrite IH].
Qed.

(** A chain is its links. *)
Lemma links_inj l1 l2 : links l1 = links l2 → l1 = l2.
Proof.
  revert l2. induction l1 as [rs f|c rs f IH] using chain_ind;
    intros [[c2|] rs2 f2]; cbn [links]; intros H; inversion H; subst.
  - destruct c2 as [? ? ?]; discriminate.
  - reflexivity.
  - f_equal. f_equal. now apply IH.
  - destruct c as [? ? ?]; discriminate.
Qed.

Lemma filters_Clear l : map snd (links (Clear l)) = map snd (links l).
Proof.
  induction l as [rs f|c rs f IH] using chain_ind; simpl;
    [reflexivity|now rewrite IH].
Qed.

Lemma filters_extend l rows :
  map snd (links (extend l rows)) = map snd (links l).
Proof.
  revert rows. induction l as [rs f|c rs f IH] using chain_ind;
    intros rows; simpl; [reflexivity|now rewrite IH].
Qed.

Lemma installedFilters_map l1 l2 :
  map snd (links l1) = map snd (links l2) →
  installedFilters l1 = installedFilters l2.
Proof.
  unfold installedFilters.
  assert (H : ∀ ls : list (list RenderedRef * option RefFilter),
            omap snd ls = omap id (map snd ls)).
  { induction ls as [|[rs [f|]] ls IH]; [reflexivity| |]; cbn [omap map snd list_omap fmap list_fmap id];
      [now f_equal|exact IH]. }
  intros E. now rewrite !H, E.
Qed.

(** What each link holds after a run of [Add] over [rows] on the cleared
    chain: the rows matched by its filter and by the filters of the links
    above it. *)
Lemma links_extend_Clear l rows k held f :
  links (extend (Clear l) rows) !! k = Some (held, f) →
  held = filter (λ r, matchesEvery (filtersUpTo (S k) l) r) rows.
Proof.
  unfold filtersUpTo. revert rows k.
  induction l as [rs f0|c rs f0 IH] using chain_ind; intros rows k;
    cbn [Clear extend links]; destruct k as [|k]; cbn [lookup list_lookup take].
  - intros [= <- <-]. cbn [app]. apply list_filter_iff. intros r.
    rewrite filters_cons. simpl. now rewrite andb_true_r.
  - discriminate.
  - intros [= <- <-]. cbn [app]. apply list_filter_iff. intros r.
    rewrite take_0, filters_cons. simpl. now rewrite andb_true_r.
  - intros H. rewrite (IH _ _ H), list_filter_filter.
    apply list_filter_iff. intros r. rewrite filters_cons, andb_True. tauto.
Qed.

(** [RemoveChild] takes the last link off, when there is one below the
    head. *)
Lemma links_RemoveChild l :
  links (RemoveChild l).1
  = if bool_decide (0 < depth l)%nat then removelast (links l) else links l.
Proof.
  induction l as [rs f|c rs f IH] using chain_ind; [reflexivity|].
  cbn [RemoveChild depth]. rewrite bool_decide_eq_true_2 by lia.
  destruct (Child c) as [c0|] eqn:E.
  - destruct (RemoveChild c) as [c' removed] eqn:Hc. cbn [fst links] in *.
    rewrite IH. destruct c as [[c1|] crs cf]; [|discriminate].
    rewrite bool_decide_eq_true_2 by (simpl; lia). reflexivity.
  - destruct c as [[c1|] crs cf]; [discriminate|]. reflexivity.
Qed.

Lemma matchesEvery_spec (fs : list RefFilter) r :
  matchesEvery fs r ↔ ∀ f, f ∈ fs → MatchesFilter f r = true.
Proof.
  unfold matchesEvery. induction fs as [|f0 fs IH]; simpl.
  - split; [|exact (λ _, I)]. intros _ f Hf. now apply elem_of_nil in Hf.
  - rewrite andb_True, IH. split.
    + intros [H0 H] f [->|Hf]%elem_of_cons; [now apply Is_true_eq_true|].
      now apply H.
    + intros H. split.
      * apply Is_true_eq_left, H. now left.
      * intros f Hf. apply H. now right.
Qed.

Lemma filter_keeps_all (P : RenderedRef → Prop) `{∀ r, Decision (P r)}
    (rows : list RenderedRef) :
  (∀ r, P r) → filter P rows = rows.
Proof.
  intros HP. induction rows as [|r rows IH]; [reflexivity|].
  rewrite filter_cons_True by apply HP. now rewrite IH.
Qed.

(** The chain after a regeneration that produced [rows], link by link. *)
Lemma links_regenerated l rows :
  map snd (links (extend (Clear l) rows)) = map snd (links l)
  ∧ (∀ k held f,
       links (extend (Clear l) rows) !! k = Some (held, f) →
       held = filter (λ r, matchesEvery (filtersUpTo (S k) l) r) rows)
  ∧ RenderedRefs (extend (Clear l) rows)
    = filter (λ r, matchesEvery (installedFilters l) r) rows.
Proof.
  split; [now rewrite filters_extend, filters_Clear|].
  split; [intros k held f; apply links_extend_Clear|].
  rewrite RenderedRefs_extend.
  rewrite (RenderedRefs_allEmpty _ (allEmpty_Clear _)). simpl.
  apply list_filter_iff. intros r.
  now rewrite passesAll_Clear, passesAll_matchesEvery.
Qed.

End ChainLinks.

(** ** Arithmetic on [uint] *)

Section UintFacts.

Lemma wrap_lt n : Uint.wrap n < Uint.modulus.
Proof. apply N.mod_lt. discriminate. Qed.

Lemma wrap_small n : n < Uint.modulus → Uint.wrap n = n.
Proof. apply N.mod_small. Qed.

Lemma wrap_le n : Uint.wrap n ≤ n.
Proof. apply N.Div0.mod_le. Qed.

Lemma wrap_add_l a b : Uint.wrap (Uint.wrap a + b) = Uint.wrap (a + b).
Proof. apply N.Div0.add_mod_idemp_l. Qed.

Lemma add_small a b : a + b < Uint.modulus → Uint.add a b = a + b.
Proof. apply wrap_small. Qed.

Lemma sub_small a b : b ≤ a → a < Uint.modulus → Uint.sub a b = a - b.
Proof.
  intros Hba Ha. unfold Uint.sub.
  rewrite (wrap_small b) by lia.
  replace (a + Uint.modulus - b) with ((a - b) + 1 * Uint.modulus) by lia.
  unfold Uint.wrap. rewrite N.Div0.mod_add. apply N.mod_small. lia.
Qed.

Lemma len_le {A} (l : list A) : Uint.len l ≤ N.of_nat (length l).
Proof. apply wrap_le. Qed.

Lemma len_lt {A} (l : list A) : Uint.len l < Uint.modulus.
Proof. apply wrap_lt. Qed.

End UintFacts.

Section ChainCount.

Lemma countChildren_depth l n :
  countChildren l (Uint.wrap n) = Uint.wrap (n + N.of_nat (depth l)).
Proof.
  revert n. induction l as [rs f|c rs f IH] using chain_ind; intros n; simpl.
  - now rewrite N.add_0_r.
  - unfold Uint.add. rewrite wrap_add_l, IH. f_equal. lia.
Qed.

(** [Children] counts the links below the head, in a [uint]. *)
Lemma Children_depth l : Children l = Uint.wrap (N.of_nat (depth l)).
Proof. unfold Children. apply (countChildren_depth l 0). Qed.

End ChainCount.

(** ** C3 and C4: adding and removing a filter *)

(** C3. For every chain and every filter, AddFilter followed at once by
    RemoveFilter reports a removal and gives back the chain as it was:
    VisibleRows() and FilterDepth() have the values they had before the
    AddFilter call. *)
Theorem AddFilter_RemoveFilter_round_trip
    (l : renderedRefList) (p : option RefFilter) :
  let back := RemoveChild (AddFilter l p) in
  back.2 = true
  ∧ RenderedRefs back.1 = RenderedRefs l
  ∧ Children back.1 = Children l
  ∧ back.1 = l.
Proof.
  unfold AddFilter. rewrite RemoveChild_AddChild by reflexivity.
  simpl. auto.
Qed.

Lemma afterFilters_S l ps k p :
  ps !! k = Some p →
  afterFilters l ps (S k) = AddFilter (afterFilters l ps k) p.
Proof.
  intros Hk. unfold afterFilters.
  rewrite (take_S_r _ _ _ Hk), foldl_snoc. reflexivity.
Qed.

(** C4. For every chain and every sequence of AddFilter calls on it, the
    rows visible after the k-th call are an order-preserving subsequence
    of the rows visible just before it; they are the rows that were
    visible and that the new filter lets pass. *)
Theorem AddFilter_visible_sublist
    (l : renderedRefList) (ps : list (option RefFilter)) (k : nat) :
  RenderedRefs (afterFilters l ps (S k))
    `sublist_of` RenderedRefs (afterFilters l ps k)
  ∧ ∀ p, ps !! k = Some p →
      RenderedRefs (afterFilters l ps (S k))
      = filter (λ r, passes p r) (RenderedRefs (afterFilters l ps k)).
Proof.
  destruct (ps !! k) as [p|] eqn:Hk.
  - rewrite (afterFilters_S _ _ _ _ Hk), RenderedRefs_AddFilter. split.
    + apply sublist_filter.
    + intros p' [= <-]. reflexivity.
  - split; [|discriminate].
    unfold afterFilters. apply lookup_ge_None in Hk.
    rewrite !take_ge by lia. reflexivity.
Qed.

(** ** Regeneration: the rows it produces *)

Section Regeneration.

Implicit Types (rv : RefView) (l : renderedRefList).

Lemma addBranches_rows kind branches first l :
  addBranches kind branches (Uint.wrap first) l
  = AddAll l (branchRows kind first branches).
Proof.
  revert first l. induction branches as [|b bs IH]; intros first l.
  - reflexivity.
  - cbn [addBranches]. unfold Uint.add. rewrite wrap_add_l, IH.
    unfold branchRows. rewrite imap_cons. unfold AddAll. cbn [foldl].
    rewrite N.add_0_r. f_equal.
    apply imap_ext. intros i x _. simpl. do 2 f_equal. lia.
Qed.

Lemma addTags_rows tags first l :
  addTags tags first l = AddAll l (tagRows first tags).
Proof.
  revert first l. induction tags as [|t ts IH]; intros first l.
  - reflexivity.
  - cbn [addTags]. rewrite IH. unfold tagRows. rewrite imap_cons.
    unfold AddAll. cbn [foldl]. rewrite Nat.add_0_r. f_equal.
    apply imap_ext. intros i x _. simpl. do 3 f_equal. lia.
Qed.

(** A generator adds to the row set the rows [generatorRows] lists. *)
Lemma run_renderer_rows rv group l :
  run_renderer (renderer group) rv group l
  = (rows ← generatorRows rv group; Ret (AddAll l rows)).
Proof.
  unfold generatorRows.
  destruct (renderer group); simpl;
    unfold generateBranches, generateTags.
  - destruct (branchesLoading (repoData rv)); [reflexivity|].
    destruct (decide _).
    + destruct (headBranch (repoData rv)).
      * simpl. now rewrite <- addBranches_rows.
      * destruct (getDetachedHeadDisplayValue _); [|reflexivity].
        simpl. now rewrite <- (addBranches_rows _ _ 2).
    + simpl. now rewrite <- addBranches_rows.
  - destruct (tagsLoading (repoData rv)); [reflexivity|].
    simpl. now rewrite addTags_rows.
Qed.

(** The loop of [generateRenderedRefs] adds the rows [groupRows] lists. *)
Lemma generateGroups_rows rv refIndex groups l :
  (refIndex + length groups = length (refLists rv))%nat →
  generateGroups rv refIndex groups l
  = (rows ← groupRows rv refIndex groups; Ret (AddAll l rows)).
Proof.
  revert refIndex l.
  induction groups as [|g gs IH]; intros refIndex l Hlen.
  - reflexivity.
  - simpl in Hlen. simpl.
    assert (Hlast : negb (Z.of_nat refIndex
                          =? Z.of_nat (length (refLists rv)) - 1)%Z
                    = match gs with [] => false | _ :: _ => true end).
    { destruct gs; simpl in *.
      - apply negb_false_iff, Z.eqb_eq. lia.
      - apply negb_true_iff, Z.eqb_neq. lia. }
    rewrite Hlast.
    destruct (expanded g).
    + rewrite run_renderer_rows.
      destruct (generatorRows rv g) as [body|]; [|reflexivity].
      simpl. rewrite IH by (simpl; lia).
      destruct (groupRows rv (S refIndex) gs) as [rest|]; [|reflexivity].
      simpl. f_equal. destruct gs; simpl;
        now rewrite !AddAll_extend, ?Add_extend, !extend_app.
    + simpl. rewrite IH by (simpl; lia).
      destruct (groupRows rv (S refIndex) gs) as [rest|]; [|reflexivity].
      simpl. f_equal. destruct gs; simpl;
        now rewrite !AddAll_extend, ?Add_extend, !extend_app.
Qed.

(** Regeneration empties the chain and feeds it [regeneratedRows]. *)
Lemma generateRenderedRefs_rows rv :
  generateRenderedRefs rv
  = (rows ← regeneratedRows rv;
     Ret (set_renderedRefs (extend (Clear (renderedRefs rv)) rows) rv)).
Proof.
  unfold generateRenderedRefs, regeneratedRows.
  rewrite generateGroups_rows by reflexivity.
  destruct (groupRows rv 0 (refLists rv)); simpl; [|reflexivity].
  now rewrite AddAll_extend.
Qed.

End Regeneration.

(** ** C8, C10: what a regeneration leaves in the chain *)

Section RegenerationShape.

Implicit Types (rv : RefView) (rows : list RenderedRef).

Lemma generatorKind_imap {A} (f : nat → A → RenderedRef) (xs : list A) :
  (∀ i x, generatorKind (f i x)) → Forall generatorKind (imap f xs).
Proof.
  intros Hf. revert f Hf. induction xs as [|x xs IH]; intros f Hf.
  - constructor.
  - rewrite imap_cons. constructor; [apply Hf|]. apply IH.
    intros i y. apply Hf.
Qed.

Lemma generatorRows_kind rv group rows :
  generatorRows rv group = Ret rows → Forall generatorKind rows.
Proof.
  unfold generatorRows. intros H.
  assert (Hload : Forall generatorKind [loadingRow]).
  { repeat constructor. }
  destruct (renderer group).
  - destruct (branchesLoading _); [injection H as <-; exact Hload|].
    destruct (decide _).
    + destruct (headBranch _).
      * injection H as <-. apply generatorKind_imap. now split.
      * destruct (getDetachedHeadDisplayValue _); [|discriminate].
        injection H as <-. constructor; [now split|].
        apply generatorKind_imap. now split.
    + injection H as <-. apply generatorKind_imap. now split.
  - destruct (tagsLoading _); [injection H as <-; exact Hload|].
    injection H as <-. apply generatorKind_imap. now split.
Qed.

Lemma omap_refList_generator rows :
  Forall generatorKind rows → omap refList rows = [].
Proof.
  induction 1 as [|r rows [Hr _] _ IH]; [reflexivity|].
  simpl. now rewrite Hr.
Qed.

Lemma countKind_app kind rows1 rows2 :
  countKind kind (rows1 ++ rows2)
  = (countKind kind rows1 + countKind kind rows2)%nat.
Proof. unfold countKind. now rewrite filter_app, length_app. Qed.

Lemma countKind_generator rows kind :
  generatorKindb kind = false →
  Forall generatorKind rows → countKind kind rows = 0%nat.
Proof.
  intros Hk. induction 1 as [|r rows [_ Hr] _ IH]; [reflexivity|].
  unfold countKind in *. rewrite filter_cons_False; [exact IH|].
  intros E. rewrite E in Hr. congruence.
Qed.

(** What one group contributes ahead of the rows of the later groups. *)
Lemma groupRows_cons rv refIndex g gs rows :
  groupRows rv refIndex (g :: gs) = Ret rows →
  ∃ body rest,
    Forall generatorKind body
    ∧ (if expanded g then generatorRows rv g else Ret []) = Ret body
    ∧ groupRows rv (S refIndex) gs = Ret rest
    ∧ rows = [headerRow refIndex g] ++ body
             ++ match gs with [] => [] | _ :: _ => [spaceRow] end ++ rest.
Proof.
  simpl. intros H.
  destruct (if expanded g then generatorRows rv g else Ret [])
    as [body|] eqn:Eb; [|discriminate].
  destruct (groupRows rv (S refIndex) gs) as [rest|] eqn:E; [|discriminate].
  injection H as <-. exists body, rest. repeat split.
  destruct (expanded g).
  - eapply generatorRows_kind, Eb.
  - injection Eb as <-. constructor.
Qed.

(** The headers come one per group, in the order of the groups. *)
Lemma groupRows_headers rv refIndex groups rows :
  groupRows rv refIndex groups = Ret rows →
  omap refList rows = seq refIndex (length groups).
Proof.
  revert refIndex rows.
  induction groups as [|g gs IH]; intros refIndex rows H.
  - injection H as <-. reflexivity.
  - apply groupRows_cons in H as (body & rest & Hbody & _ & E & ->).
    rewrite !omap_app, (omap_refList_generator body Hbody), (IH _ _ E).
    destruct gs; reflexivity.
Qed.

(** One spacer after every group but the last (no group is itself of the
    spacer kind). *)
Lemma groupRows_spacers rv refIndex groups rows :
  Forall (λ g, refList_renderedRefType g ≠ RvSpace) groups →
  groupRows rv refIndex groups = Ret rows →
  countKind RvSpace rows = pred (length groups).
Proof.
  intros Hgroups. revert refIndex rows.
  induction Hgroups as [|g gs Hg _ IH]; intros refIndex rows H.
  - injection H as <-. reflexivity.
  - apply groupRows_cons in H as (body & rest & Hbody & _ & E & ->).
    rewrite !countKind_app, (IH _ _ E).
    rewrite (countKind_generator body) by (assumption || reflexivity).
    assert (countKind RvSpace [headerRow refIndex g] = 0%nat) as ->.
    { unfold countKind. rewrite filter_cons_False; [reflexivity|exact Hg]. }
    destruct gs; reflexivity.
Qed.

(** A regeneration returns: nothing but the detached-head text can
    panic. *)
Lemma generatorRows_returns rv group :
  headDisplayable rv → ∃ rows, generatorRows rv group = Ret rows.
Proof.
  intros Hhead. unfold generatorRows.
  destruct (renderer group).
  - destruct (branchesLoading (repoData rv)) eqn:Hload; [eauto|].
    destruct (decide _); [|eauto].
    destruct (headBranch (repoData rv)) eqn:Hbranch; [eauto|].
    destruct Hhead as [Hl|[[b Hb]|(o & Ho & Hlen)]]; try congruence.
    rewrite Ho. unfold getDetachedHeadDisplayValue, slice_to.
    apply Nat.leb_le in Hlen. rewrite Hlen. simpl. eauto.
  - destruct (tagsLoading (repoData rv)); eauto.
Qed.

Lemma groupRows_returns rv refIndex groups :
  headDisplayable rv → ∃ rows, groupRows rv refIndex groups = Ret rows.
Proof.
  intros Hhead. revert refIndex.
  induction groups as [|g gs IH]; intros refIndex; simpl; [eauto|].
  destruct (IH (S refIndex)) as [rest ->].
  destruct (expanded g).
  - destruct (generatorRows_returns rv g Hhead) as [body ->]. simpl. eauto.
  - simpl. eauto.
Qed.

Lemma generateRenderedRefs_returns rv :
  headDisplayable rv → ∃ rv', generateRenderedRefs rv = Ret rv'.
Proof.
  intros Hhead. rewrite generateRenderedRefs_rows. unfold regeneratedRows.
  destruct (groupRows_returns rv 0 (refLists rv) Hhead) as [rows ->].
  simpl. eauto.
Qed.

End RegenerationShape.

(** C8. Every regeneration clears every link of the chain and then feeds
    it, for each group in the order of [refLists], one header row (with
    "-" in its text when the group is expanded and "+" when it is
    collapsed), the rows of the group's generator only when the group is
    expanded, and one spacer row unless the group is the last; a generator
    whose backing collection is still loading adds exactly the one
    Loading row.  After the regeneration the chain has the links and the
    filters it had, and each link holds, in the order of generation,
    exactly the generated rows that its own filter and the filters of
    the links above it match: in a chain without filter, all of them. *)
Theorem regeneration_clears_then_lists_groups (rv : RefView) :
  allEmpty (Clear (renderedRefs rv)) = true
  ∧ generateRenderedRefs rv
    = (rows ← regeneratedRows rv;
       Ret (set_renderedRefs (AddAll (Clear (renderedRefs rv)) rows) rv))
  ∧ (∀ i g gs,
       groupRows rv i (g :: gs)
       = (body ← (if expanded g then generatorRows rv g else Ret []);
          rest ← groupRows rv (S i) gs;
          Ret ([headerRow i g] ++ body
               ++ (if decide (gs = []) then [] else [spaceRow]) ++ rest)))
  ∧ (∀ i g,
       renderedRefType (headerRow i g) = refList_renderedRefType g
       ∧ refList (headerRow i g) = Some i
       ∧ value (headerRow i g)
         = "  [" +:+ (if expanded g then "-" else "+") +:+ "] " +:+ name g)
  ∧ (∀ g l,
       groupLoading rv g = true →
       run_renderer (renderer g) rv g l = Ret (Add l loadingRow))
  ∧ (∀ rows,
       regeneratedRows rv = Ret rows →
       omap refList rows = seq 0 (length (refLists rv))
       ∧ (Forall (λ g, refList_renderedRefType g ≠ RvSpace) (refLists rv) →
          countKind RvSpace rows = pred (length (refLists rv))))
  ∧ (headDisplayable rv → ∃ rv', generateRenderedRefs rv = Ret rv')
  ∧ (∀ rv',
       generateRenderedRefs rv = Ret rv' →
       ∃ rows,
         regeneratedRows rv = Ret rows
         ∧ map snd (links (renderedRefs rv'))
           = map snd (links (renderedRefs rv))
         ∧ (∀ k held f,
              links (renderedRefs rv') !! k = Some (held, f) →
              held
              = filter (λ r, matchesEvery
                               (filtersUpTo (S k) (renderedRefs rv)) r)
                       rows)
         ∧ (∀ old,
              renderedRefs rv = RenderedRefList None old None →
              renderedRefs rv' = RenderedRefList None rows None)).
Proof.
  split; [apply allEmpty_Clear|].
  split.
  { rewrite generateRenderedRefs_rows.
    destruct (regeneratedRows rv); simpl; [|reflexivity].
    now rewrite AddAll_extend. }
  split.
  { intros i g gs. simpl.
    destruct (if expanded g then generatorRows rv g else Ret []);
      [|reflexivity].
    simpl. destruct (groupRows rv (S i) gs); [|reflexivity].
    simpl. destruct gs; reflexivity. }
  split.
  { intros i g. repeat split. }
  split.
  { intros g l Hload. unfold groupLoading in Hload.
    destruct (renderer g); simpl;
      unfold generateBranches, generateTags; now rewrite Hload. }
  split.
  { intros rows H. split.
    - apply (groupRows_headers rv 0 _ _ H).
    - intros Hgroups. apply (groupRows_spacers rv 0 _ _ Hgroups H). }
  split; [apply generateRenderedRefs_returns|].
  intros rv'. rewrite generateRenderedRefs_rows.
  destruct (regeneratedRows rv) as [rows|]; [|discriminate].
  simpl. intros [= <-]. exists rows. split; [reflexivity|]. simpl.
  destruct (links_regenerated (renderedRefs rv) rows) as (Hf & Hheld & _).
  split; [exact Hf|]. split; [exact Hheld|].
  intros old ->. simpl. f_equal. apply filter_keeps_all. intros r. exact I.
Qed.

Lemma regeneration_clears_then_lists_groups_witness :
  (∃ rows,
     regeneratedRows exampleView = Ret rows
     ∧ renderedRefs regeneratedView = RenderedRefList None rows None)
  ∧ ∃ rows,
      regeneratedRows filteredView = Ret rows
      ∧ map snd (links (renderedRefs regeneratedFilteredView))
        = map snd (links (renderedRefs filteredView))
      ∧ ∀ k held f,
          links (renderedRefs regeneratedFilteredView) !! k
          = Some (held, f) →
          held
          = filter (λ r, matchesEvery
                           (filtersUpTo (S k) (renderedRefs filteredView)) r)
                   rows.
Proof.
  split.
  - destruct (proj2 (proj2 (proj2 (proj2 (proj2 (proj2 (proj2
                (regeneration_clears_then_lists_groups exampleView)))))))
                regeneratedView eq_refl)
      as (rows & Hrows & _ & _ & Hplain).
    exists rows. split; [exact Hrows|]. exact (Hplain [] eq_refl).
  - destruct (proj2 (proj2 (proj2 (proj2 (proj2 (proj2 (proj2
                (regeneration_clears_then_lists_groups filteredView)))))))
                regeneratedFilteredView eq_refl)
      as (rows & Hrows & Hfilters & Hheld & _).
    exists rows. split; [exact Hrows|]. split; [exact Hfilters|exact Hheld].
Defined.

(** C10. A regeneration offers every row it generates, whatever its
    kind, to the filters of the chain through [Add]: the rows visible
    afterwards are exactly the generated rows that every installed
    filter matches, so a generated row (a header or a spacer as much as
    an entry) that some installed filter does not match is not among
    them, and a generated row that all of them match is. *)
Theorem regeneration_filters_every_kind (rv rv' : RefView) :
  generateRenderedRefs rv = Ret rv' →
  ∃ rows,
    regeneratedRows rv = Ret rows
    ∧ renderedRefs rv' = AddAll (Clear (renderedRefs rv)) rows
    ∧ RenderedRefs (renderedRefs rv')
      = filter (λ r, passesAll (renderedRefs rv) r) rows
    ∧ (∀ r, r ∈ rows →
         passesAll (renderedRefs rv) r = false →
         r ∉ RenderedRefs (renderedRefs rv'))
    ∧ installedFilters (renderedRefs rv') = installedFilters (renderedRefs rv)
    ∧ RenderedRefs (renderedRefs rv')
      = filter (λ r, matchesEvery (installedFilters (renderedRefs rv)) r)
               rows
    ∧ (∀ r f, r ∈ rows →
         f ∈ installedFilters (renderedRefs rv) →
         MatchesFilter f r = false →
         r ∉ RenderedRefs (renderedRefs rv'))
    ∧ (∀ r, r ∈ rows →
         (∀ f, f ∈ installedFilters (renderedRefs rv) →
               MatchesFilter f r = true) →
         r ∈ RenderedRefs (renderedRefs rv')).
Proof.
  rewrite generateRenderedRefs_rows.
  destruct (regeneratedRows rv) as [rows|]; [|discriminate].
  simpl. intros [= <-]. exists rows. simpl.
  assert (Hvis : RenderedRefs (extend (Clear (renderedRefs rv)) rows)
                 = filter (λ r, passesAll (renderedRefs rv) r) rows).
  { rewrite RenderedRefs_extend.
    rewrite (RenderedRefs_allEmpty _ (allEmpty_Clear _)). simpl.
    apply list_filter_iff. intros r. now rewrite passesAll_Clear. }
  destruct (links_regenerated (renderedRefs rv) rows) as (Hf & _ & Hmatch).
  split; [reflexivity|]. split; [now rewrite AddAll_extend|].
  split; [exact Hvis|]. split.
  { intros r _ Hrej. rewrite Hvis, list_elem_of_filter, Hrej.
    intros [[] _]. }
  split; [now apply installedFilters_map|]. split; [exact Hmatch|]. split.
  - intros r f _ Hf' Hno. rewrite Hmatch, list_elem_of_filter.
    intros [Hall _]. rewrite matchesEvery_spec in Hall.
    rewrite (Hall f Hf') in Hno. discriminate.
  - intros r Hr Hall. rewrite Hmatch, list_elem_of_filter.
    split; [now apply matchesEvery_spec|exact Hr].
Qed.

Lemma regeneration_filters_every_kind_witness :
  installedFilters (renderedRefs filteredView) = [onlyLocalBranches]
  ∧ (headerRow 0 localGroup
     ∉ RenderedRefs (renderedRefs regeneratedFilteredView))
  ∧ (spaceRow ∉ RenderedRefs (renderedRefs regeneratedFilteredView))
  ∧ (entryRow RvLocalBranch "master" (Some exampleOid) 1
     ∈ RenderedRefs (renderedRefs regeneratedFilteredView)).
Proof.
  destruct (regeneration_filters_every_kind filteredView
              regeneratedFilteredView eq_refl)
    as (rows & Hrows & _ & _ & _ & _ & _ & Hout & Hin).
  injection Hrows as <-.
  assert (Hfilter : onlyLocalBranches
                    ∈ installedFilters (renderedRefs filteredView))
    by (apply (list_elem_of_lookup_2 _ 0%nat); reflexivity).
  split; [reflexivity|]. split; [|split].
  - apply (Hout _ onlyLocalBranches); [|exact Hfilter|reflexivity].
    apply (list_elem_of_lookup_2 _ 0%nat). reflexivity.
  - apply (Hout _ onlyLocalBranches); [|exact Hfilter|reflexivity].
    apply (list_elem_of_lookup_2 _ 3%nat). reflexivity.
  - apply Hin.
    + apply (list_elem_of_lookup_2 _ 1%nat). reflexivity.
    + intros f Hf. apply list_elem_of_singleton in Hf as ->. reflexivity.
Defined.

(** ** C7: the local branches, with HEAD detached or not *)

Lemma wrap_index (first : N) (n i : nat) :
  (i < n)%nat → first + N.of_nat n ≤ Uint.modulus →
  Uint.wrap (first + N.of_nat i) = first + N.of_nat i.
Proof. intros Hi Hn. apply wrap_small. lia. Qed.

Lemma branchRows_plain kind first branches :
  first + N.of_nat (length branches) ≤ Uint.modulus →
  branchRows kind first branches
  = imap (λ i b, entryRow kind (Branch_name b) (Branch_oid b)
                          (first + N.of_nat i)) branches.
Proof.
  intros Hn. unfold branchRows. apply imap_ext. intros i b Hb.
  simpl. f_equal. apply lookup_lt_Some in Hb.
  now apply (wrap_index first (length branches)).
Qed.

Lemma getDetachedHeadDisplayValue_ok o :
  (7 ≤ String.length (Oid_String o))%nat →
  getDetachedHeadDisplayValue (Some o)
  = Ret ("HEAD detached at " +:+ substring 0 7 (Oid_String o)).
Proof.
  intros H. unfold getDetachedHeadDisplayValue, slice_to.
  apply Nat.leb_le in H. now rewrite H.
Qed.

(** C7, as amended.  With the local branches loaded and HEAD detached,
    the local-branches generator first adds a row whose text is three
    spaces of indentation, then the marker "HEAD detached at ", then the
    first 7 characters of the head object id; the row carries the head
    object id and the number 1, and the named local branches follow in
    provider order numbered 2, 3, and so on.  With HEAD on a named
    branch the named branches are numbered from 1. *)
Theorem generateBranches_local_numbering
    (rv : RefView) (group : refList_t) (l : renderedRefList) :
  refList_renderedRefType group = RvLocalBranchGroup →
  branchesLoading (repoData rv) = false →
  N.of_nat (length (localBranches (repoData rv))) + 2 ≤ Uint.modulus →
  (∀ o,
     headBranch (repoData rv) = None →
     head (repoData rv) = Some o →
     (7 ≤ String.length (Oid_String o))%nat →
     generateBranches rv group l
     = Ret (AddAll l
              ({| value := "   HEAD detached at "
                           +:+ substring 0 7 (Oid_String o);
                  oid := Some o;
                  renderedRefType := RvLocalBranch;
                  refList := None;
                  refNum := 1 |}
               :: imap (λ i b,
                          {| value := "   " +:+ Branch_name b;
                             oid := Branch_oid b;
                             renderedRefType := RvLocalBranch;
                             refList := None;
                             refNum := N.of_nat i + 2 |})
                       (localBranches (repoData rv)))))
  ∧ (∀ b,
       headBranch (repoData rv) = Some b →
       generateBranches rv group l
       = Ret (AddAll l
                (imap (λ i b,
                         {| value := "   " +:+ Branch_name b;
                            oid := Branch_oid b;
                            renderedRefType := RvLocalBranch;
                            refList := None;
                            refNum := N.of_nat i + 1 |})
                      (localBranches (repoData rv))))).
Proof.
  intros Hgroup Hload Hlen.
  pose proof (run_renderer_rows rv
                (mkRefList (name group) (expanded group) generateBranches_fn
                           (refList_renderedRefType group)) l) as Hrun.
  simpl in Hrun. unfold generatorRows in Hrun. simpl in Hrun.
  rewrite Hload in Hrun.
  destruct (decide _) as [_|Hne]; [|contradiction].
  assert (Hgen : ∀ g', refList_renderedRefType g'
                       = refList_renderedRefType group →
                       generateBranches rv g' l = generateBranches rv group l).
  { intros g' Hg'. unfold generateBranches. now rewrite Hg'. }
  rewrite Hgen in Hrun by reflexivity.
  split.
  - intros o Hdet Hhead Hoid. rewrite Hrun, Hdet, Hhead.
    rewrite getDetachedHeadDisplayValue_ok by assumption. simpl.
    rewrite branchRows_plain by lia.
    erewrite imap_ext; [reflexivity|].
    intros i b _. unfold entryRow. simpl. f_equal. lia.
  - intros b Hb. rewrite Hrun, Hb. simpl.
    rewrite branchRows_plain by lia.
    erewrite imap_ext; [reflexivity|].
    intros i b' _. unfold entryRow. simpl. f_equal. lia.
Qed.

Lemma generateBranches_local_numbering_witness :
  generateBranches detachedView localGroup newRenderedRefList
  = Ret (AddAll newRenderedRefList
           [ {| value := "   HEAD detached at abc1234";
                oid := Some exampleOid;
                renderedRefType := RvLocalBranch;
                refList := None;
                refNum := 1 |};
             {| value := "   master";
                oid := Some exampleOid;
                renderedRefType := RvLocalBranch;
                refList := None;
                refNum := 2 |};
             {| value := "   dev";
                oid := Some (mkOid "1111111222222233333");
                renderedRefType := RvLocalBranch;
                refList := None;
                refNum := 3 |} ]).
Proof.
  refine (proj1 (generateBranches_local_numbering detachedView localGroup
                   newRenderedRefList _ _ _) exampleOid _ _ _).
  - reflexivity.
  - reflexivity.
  - vm_compute. discriminate.
  - reflexivity.
  - reflexivity.
  - vm_compute. lia.
Defined.

(** C7 as stated fails: the text of the detached-head row is not the
    marker followed by the 7 characters, it starts with the indentation
    every entry row has. *)
Lemma detached_row_text_counterexample :
  ∃ l r,
    generateBranches detachedView localGroup newRenderedRefList = Ret l
    ∧ RenderedRefs l !! 0%nat = Some r
    ∧ head (repoData detachedView) = Some exampleOid
    ∧ substring 0 7 (Oid_String exampleOid) = "abc1234"
    ∧ value r = "   HEAD detached at abc1234"
    ∧ value r ≠ "HEAD detached at abc1234".
Proof.
  eexists _, _. split; [vm_compute; reflexivity|].
  split; [reflexivity|]. repeat split. discriminate.
Qed.

(** ** C2: the row at the cursor is read without a bounds check *)

Section CursorAccess.

Implicit Types (rv : RefView) (win : RenderWindow).

Lemma index_ge {A} (l : list A) (i : N) :
  N.of_nat (length l) ≤ i → index l i = Panic.
Proof.
  intros H. unfold index. rewrite (proj2 (lookup_ge_None l (N.to_nat i)));
    [reflexivity|lia].
Qed.

Lemma index_lt {A} (l : list A) (i : N) :
  i < N.of_nat (length l) → ∃ a, index l i = Ret a ∧ l !! N.to_nat i = Some a.
Proof.
  intros H. unfold index.
  destruct (lookup_lt_is_Some_2 l (N.to_nat i)) as [a Ha]; [lia|].
  exists a. now rewrite Ha.
Qed.

Lemma index_Ret {A} (l : list A) (i : N) (a : A) :
  index l i = Ret a ↔ l !! N.to_nat i = Some a.
Proof.
  unfold index. destruct (l !! N.to_nat i); split; congruence.
Qed.


(** When the loop of [Render] ends with an error, the window gave it. *)
Lemma renderRows_error win startColumn rows renderedRefNum rest
    winRowIndex refIndex calls err :
  renderRows win startColumn rows renderedRefNum rest winRowIndex refIndex
  = Ret (calls, Some err) →
  ∃ call, call ∈ calls ∧ answer win call = Some err
          ∧ ∀ cmp text, call ≠ SetFooter cmp text.
Proof.
  revert winRowIndex refIndex calls.
  induction rest as [|r rest IH]; intros winRowIndex refIndex calls; simpl.
  - destruct (_ && _); [discriminate|]. intros [= <-].
  - destruct (_ && _); [|intros [= <-]].
    destruct (answer win _) eqn:E.
    + intros [= <- <-]. eexists. split; [left|].
      split; [exact E|discriminate].
    + destruct (renderRows _ _ _ _ _ _ _) as [[calls' err']|] eqn:Hrec;
        [|discriminate].
      simpl. intros [= <- ->].
      destruct (IH _ _ _ Hrec) as (call & Hin & Hcall).
      exists call. split; [now right|exact Hcall].
Qed.

End CursorAccess.

(** C2. In every state in which the active row index is not below the
    number of visible rows (in particular whenever no row is visible),
    [selectRef] panics on its index expression, and so does [Render]
    unless a window call that comes before the access fails: neither
    function checks the index, returns an error of its own or skips the
    access. *)
Theorem cursor_row_read_unchecked (rv : RefView) :
  N.of_nat (length (RenderedRefs (renderedRefs rv)))
    ≤ ActiveRowIndex (viewPos rv) →
  selectRef rv = Panic
  ∧ (∀ win, (∀ call, answer win call = None) → Render win rv = Panic)
  ∧ (∀ win rv' calls err,
       Render win rv = Ret (rv', calls, err) →
       ∃ call e, err = Some e ∧ call ∈ calls ∧ answer win call = Some e
                 ∧ ∀ text, call ≠ SetFooter CmpRefviewFooter text).
Proof.
  intros Hout. split; [|split].
  - unfold selectRef. now rewrite index_ge.
  - intros win Hwin. unfold Render.
    destruct (renderRows _ _ _ _ _ _ _) as [[calls [err|]]|] eqn:Hrows;
      [|simpl|reflexivity].
    + apply renderRows_error in Hrows as (call & _ & Hcall & _).
      rewrite Hwin in Hcall. discriminate.
    + rewrite !Hwin. simpl. now rewrite index_ge.
  - intros win rv' calls err. unfold Render.
    destruct (renderRows _ _ _ _ _ _ _) as [[rcalls [rerr|]]|] eqn:Hrows;
      [| |discriminate]; simpl.
    + intros [= <- <- <-].
      apply renderRows_error in Hrows as (call & Hin & Hcall & Hkind).
      exists call, rerr. repeat split; try assumption. apply Hkind.
    + destruct (answer win (SetSelectedRow _ _)) as [e|] eqn:Hsel.
      { intros [= <- <- <-]. eexists _, e.
        repeat split; [|exact Hsel|discriminate].
        apply elem_of_app. right. left. }
      destruct (answer win (SetTitle _ _)) as [e|] eqn:Htitle.
      { intros [= <- <- <-]. eexists _, e.
        repeat split; [|exact Htitle|discriminate].
        apply elem_of_app. right. left. }
      now rewrite index_ge.
Qed.

Lemma cursor_row_read_unchecked_witness :
  RenderedRefs (renderedRefs emptiedView) = []
  ∧ selectRef emptiedView = Panic
  ∧ (∀ win, (∀ call, answer win call = None) →
            Render win emptiedView = Panic).
Proof.
  split; [reflexivity|].
  pose proof (cursor_row_read_unchecked emptiedView) as H.
  destruct H as (Hsel & Hrender & _).
  - vm_compute. discriminate.
  - split; [exact Hsel|exact Hrender].
Defined.

(** ** C5: activating the row at the cursor *)

Section Activation.

Implicit Types (rv : RefView) (refName : string) (oid : option Oid).

Lemma add_effects_nil rv : add_effects [] rv = rv.
Proof. destruct rv. unfold add_effects. simpl. now rewrite app_nil_r. Qed.

Lemma add_effects_app es1 es2 rv :
  add_effects es2 (add_effects es1 rv) = add_effects (es1 ++ es2) rv.
Proof. unfold add_effects. simpl. now rewrite app_assoc. Qed.

Lemma emit_add_effects e rv : emit e rv = add_effects [e] rv.
Proof. reflexivity. Qed.

(** [TrimLeft] with the cutset " " removes a run of spaces, the longest
    there is at the front. *)
Lemma TrimLeft_space_spec (s : string) :
  ∃ n, s = spaces n +:+ TrimLeft_space s
       ∧ ∀ rest, TrimLeft_space s ≠ String " " rest.
Proof.
  induction s as [|c s (n & Hn & Hrest)]; simpl.
  - exists 0%nat. split; [reflexivity|discriminate].
  - destruct (Ascii.eqb c " ") eqn:E.
    + apply Ascii.eqb_eq in E as ->. exists (S n).
      split; [|exact Hrest].
      change (String " " s = String " " (spaces n +:+ TrimLeft_space s)).
      f_equal. exact Hn.
    + exists 0%nat. split; [reflexivity|]. intros rest [= -> _].
      discriminate.
Qed.

(** Stripping the leading spaces strips all the leading white space
    unless what follows the spaces starts with another white space
    character. *)
Lemma TrimLeft_space_whitespace (s : string) :
  (∀ c rest, TrimLeft_space s = String c rest → isWhitespace c = false) →
  TrimLeft_space s = TrimLeft_whitespace s.
Proof.
  induction s as [|c s IH]; simpl; [reflexivity|].
  destruct (Ascii.eqb c " ") eqn:E.
  - apply Ascii.eqb_eq in E as ->. simpl. exact IH.
  - intros H. now rewrite (H c s eq_refl).
Qed.

Lemma notifyFrom_ok k listeners refName oid rv :
  Forall (λ lst, OnRefSelect lst refName oid = None) listeners →
  notifyFrom k listeners refName oid rv
  = (add_effects (notifications k (length listeners) refName oid) rv, None).
Proof.
  intros H. revert k rv. induction H as [|lst listeners Hl _ IH];
    intros k rv; simpl.
  - now rewrite add_effects_nil.
  - rewrite Hl, IH, emit_add_effects, add_effects_app. reflexivity.
Qed.

Lemma notifyFrom_err k listeners refName oid rv j lst e :
  listeners !! j = Some lst →
  OnRefSelect lst refName oid = Some e →
  (∀ i lst', (i < j)%nat → listeners !! i = Some lst' →
             OnRefSelect lst' refName oid = None) →
  notifyFrom k listeners refName oid rv
  = (add_effects (notifications k (S j) refName oid) rv, Some e).
Proof.
  revert k rv j. induction listeners as [|l0 listeners IH];
    intros k rv j Hj He Hbefore; [discriminate|].
  destruct j as [|j]; simpl in *.
  - injection Hj as ->. now rewrite He.
  - rewrite (Hbefore 0%nat l0) by (lia || reflexivity).
    rewrite (IH (S k) _ j Hj He).
    + now rewrite emit_add_effects, add_effects_app.
    + intros i lst' Hi Hl. apply (Hbefore (S i)); [lia|exact Hl].
Qed.

(** Activating a group header: toggle, regenerate, redraw. *)
Lemma selectRef_header rv r i g :
  RenderedRefs (renderedRefs rv) !! N.to_nat (ActiveRowIndex (viewPos rv))
  = Some r →
  isGroupHeader (renderedRefType r) = true →
  refList r = Some i →
  refLists rv !! i = Some g →
  selectRef rv
  = (rv' ← generateRenderedRefs
             (set_refLists (<[i := toggle g]> (refLists rv)) rv);
     Ret (emit UpdateDisplay rv', None)).
Proof.
  intros Hrow Hheader Hi Hg. apply index_Ret in Hrow.
  unfold selectRef. rewrite Hrow. simpl. rewrite Hi, Hg.
  destruct (renderedRefType r); try discriminate; reflexivity.
Qed.

End Activation.

(** C5. With an entry row (branch or tag) at the cursor, activation
    notifies the listeners in registration order with the row's text
    stripped of its leading spaces (all of its leading white space,
    unless a name starts with a tab or the like) and the row's object
    id; the first
    listener that returns an error is the last one notified and its error
    is what the caller gets; when none fails a redraw is requested.  With
    a group header at the cursor, activation toggles the [expanded] flag
    of the header's group, regenerates the rows, requests a redraw and
    notifies no listener. *)
Theorem selectRef_activation (rv : RefView) (r : RenderedRef) :
  RenderedRefs (renderedRefs rv) !! N.to_nat (ActiveRowIndex (viewPos rv))
  = Some r →
  let refName := TrimLeft_space (value r) in
  (∃ n, value r = spaces n +:+ refName
        ∧ ∀ rest, refName ≠ String " " rest)
  ∧ ((∀ c rest, refName = String c rest → isWhitespace c = false) →
     refName = TrimLeft_whitespace (value r))
  ∧ (isEntry (renderedRefType r) = true →
     (∀ k lst e,
        refListeners rv !! k = Some lst →
        OnRefSelect lst refName (oid r) = Some e →
        (∀ j lst', (j < k)%nat → refListeners rv !! j = Some lst' →
                   OnRefSelect lst' refName (oid r) = None) →
        selectRef rv
        = Ret (add_effects (notifications 0 (S k) refName (oid r)) rv,
               Some e))
     ∧ (Forall (λ lst, OnRefSelect lst refName (oid r) = None)
               (refListeners rv) →
        selectRef rv
        = Ret (add_effects
                 (notifications 0 (length (refListeners rv)) refName (oid r)
                  ++ [UpdateDisplay]) rv,
               None)))
  ∧ (isGroupHeader (renderedRefType r) = true →
     ∀ i g,
       refList r = Some i →
       refLists rv !! i = Some g →
       let toggled := set_refLists (<[i := toggle g]> (refLists rv)) rv in
       selectRef rv
       = (rv' ← generateRenderedRefs toggled; Ret (emit UpdateDisplay rv', None))
       ∧ ∀ rv' err,
           selectRef rv = Ret (rv', err) →
           err = None
           ∧ refLists rv' = <[i := toggle g]> (refLists rv)
           ∧ refLists rv' !! i = Some (toggle g)
           ∧ expanded (toggle g) = negb (expanded g)
           ∧ (∃ rows, regeneratedRows toggled = Ret rows
                      ∧ renderedRefs rv'
                        = AddAll (Clear (renderedRefs rv)) rows)
           ∧ effects rv' = effects rv ++ [UpdateDisplay]).
Proof.
  intros Hrow refName. pose proof Hrow as Hrow'. apply index_Ret in Hrow.
  split; [apply TrimLeft_space_spec|].
  split; [apply TrimLeft_space_whitespace|]. split.
  - intros Hentry. split.
    + intros k lst e Hk He Hbefore. unfold selectRef. rewrite Hrow. simpl.
      unfold notifyRefListeners.
      rewrite (notifyFrom_err 0 _ _ _ _ k lst e Hk He Hbefore).
      destruct (renderedRefType r); try discriminate; reflexivity.
    + intros Hall. unfold selectRef. rewrite Hrow. simpl.
      unfold notifyRefListeners. rewrite (notifyFrom_ok 0 _ _ _ _ Hall).
      rewrite emit_add_effects, add_effects_app.
      destruct (renderedRefType r); try discriminate; reflexivity.
  - intros Hheader i g Hi Hg toggled.
    pose proof (selectRef_header rv r i g Hrow' Hheader Hi Hg) as Hsel.
    fold toggled in Hsel.
    split; [exact Hsel|].
    intros rv' err. rewrite Hsel, generateRenderedRefs_rows.
    destruct (regeneratedRows toggled) as [rows|] eqn:Hrows;
      [|discriminate].
    simpl. intros [= <- <-]. simpl.
    repeat split.
    + apply list_lookup_insert_eq. now apply lookup_lt_Some in Hg.
    + exists rows. split; [reflexivity|]. now rewrite AddAll_extend.
Qed.

Lemma selectRef_activation_witness :
  selectRef listenedView
  = Ret (add_effects [Notified 0 "master" (Some exampleOid);
                      Notified 1 "master" (Some exampleOid)] listenedView,
         Some "listener failed").
Proof.
  pose proof (selectRef_activation listenedView
                (entryRow RvLocalBranch "master" (Some exampleOid) 1)
                eq_refl) as (_ & _ & Hentry & _).
  destruct (Hentry eq_refl) as (Herr & _).
  apply (Herr 1%nat failingListener "listener failed").
  - reflexivity.
  - reflexivity.
  - intros j lst' Hj. assert (j = 0%nat) as -> by lia.
    intros [= <-]. reflexivity.
Defined.

(** ** C6: the add-filter command *)

(** C6. The add-filter command returns an error exactly when its
    argument list is empty or its first argument is not a string, and
    then changes nothing.  With a string argument: when the compiler
    reports errors these are reported, the chain stays as it was and no
    error is returned; otherwise the compiled filter becomes the new last
    link, fed the rows that were visible, and the status reported is
    "Filter applied" exactly when fewer rows are visible than before and
    "Filter had no effect" otherwise. *)
Theorem addRefFilter_outcomes
    (CreateRefFilter : string → option RefFilter * list error)
    (Args : list Arg) (rv : RefView) :
  (∃ rv' err, addRefFilter CreateRefFilter Args rv = Ret (rv', err)
              ∧ (err ≠ None ↔ Args = [] ∨ ∃ rest, Args = ArgOther :: rest)
              ∧ (err ≠ None → rv' = rv))
  ∧ ∀ query rest,
      Args = ArgString query :: rest →
      let refFilter := (CreateRefFilter query).1 in
      let errors := (CreateRefFilter query).2 in
      (errors ≠ [] →
       addRefFilter CreateRefFilter Args rv
       = Ret (emit (ReportErrors errors) rv, None)
       ∧ renderedRefs (emit (ReportErrors errors) rv) = renderedRefs rv)
      ∧ (errors = [] →
         let chain := AddFilter (renderedRefs rv) refFilter in
         let status :=
           if decide (length (RenderedRefs chain)
                      < length (RenderedRefs (renderedRefs rv)))%nat
           then "Filter applied" else "Filter had no effect" in
         addRefFilter CreateRefFilter Args rv
         = Ret (emit (ReportStatus status) (set_renderedRefs chain rv), None)
         ∧ RenderedRefs chain
           = filter (λ r, passes refFilter r) (RenderedRefs (renderedRefs rv))
         ∧ depth chain = S (depth (renderedRefs rv))
         ∧ RemoveChild chain = (renderedRefs rv, true)).
Proof.
  split.
  - assert (Hnone : ∀ rv', ∃ rv'' (err : option error),
              Ret (rv', None) = Ret (rv'', err)
              ∧ (err ≠ None ↔ False) ∧ (err ≠ None → rv'' = rv)).
    { intros rv'. exists rv', None. split; [reflexivity|].
      split; [|congruence]. split; [congruence|contradiction]. }
    destruct Args as [|[query|] rest]; simpl.
    + exists rv, (Some "Expected filter query argument").
      split; [reflexivity|]. split; [|reflexivity].
      split; [now left|discriminate].
    + destruct (CreateRefFilter query) as [refFilter errors].
      assert (Hiff : False
                     ↔ ArgString query :: rest = []
                       ∨ ∃ rest0, ArgString query :: rest = ArgOther :: rest0).
      { split; [contradiction|]. intros [?|[? ?]]; discriminate. }
      destruct (0 <? length errors)%nat; [|destruct (_ <? _)%nat];
        match goal with
        | |- ∃ _ _, Ret (?x, None) = _ ∧ _ =>
            destruct (Hnone x) as (rv'' & err & Heq & Herr & Hsame);
            exists rv'', err; rewrite <- Hiff; auto
        end.
    + exists rv, (Some "Expected filter query argument to have type string").
      split; [reflexivity|]. split; [|reflexivity].
      split; [right; eauto|discriminate].
  - intros query rest -> refFilter errors. subst refFilter errors. simpl.
    destruct (CreateRefFilter query) as [refFilter errors]. simpl. split.
    + intros Herr. destruct errors as [|e errors]; [contradiction|].
      split; reflexivity.
    + intros ->. simpl.
      split; [|split; [apply RenderedRefs_AddFilter|split]].
      * fold (AddFilter (renderedRefs rv) refFilter).
        destruct (decide _) as [Hlt|Hge].
        -- apply Nat.ltb_lt in Hlt. now rewrite Hlt.
        -- apply Nat.ltb_nlt in Hge. now rewrite Hge.
      * unfold AddFilter. rewrite depth_AddChild. simpl. lia.
      * apply RemoveChild_AddChild. reflexivity.
Qed.

(** ** C9: the footer *)

Section Footer.







End Footer.




(** ** C1: the cursor after movements and regenerations *)

Section Movements.

Implicit Types (rv : RefView) (rows : list RenderedRef).

Lemma sub_1_lt a : 0 < a → Uint.sub a 1 < a.
Proof.
  intros Ha. destruct (N.lt_ge_cases a Uint.modulus) as [Hs|Hl].
  - rewrite sub_small by lia. lia.
  - pose proof (wrap_lt (a + Uint.modulus - Uint.wrap 1)).
    unfold Uint.sub. lia.
Qed.

(** The scan of [moveUpRef] stays in range and ends at or below its
    starting point. *)
Lemma scanUp_returns rows (i : nat) :
  (i < length rows)%nat →
  ∃ j, scanUp rows i = Ret j ∧ j ≤ N.of_nat i.
Proof.
  induction i as [|i IH]; intros Hi; cbn [scanUp].
  - exists 0. split; [reflexivity|lia].
  - destruct (index_lt rows (N.of_nat (S i))) as (r & -> & _); [lia|].
    cbn [mbind outcome_bind]. destruct (isSelectableRenderedRef _).
    + eexists. split; [reflexivity|lia].
    + destruct IH as (j & -> & Hj); [lia|].
      exists j. split; [reflexivity|lia].
Qed.

(** The scan of [moveDownRef] stays in range and ends within its gap. *)
Lemma scanDown_returns rows (gap : nat) (i : N) :
  i + N.of_nat gap < N.of_nat (length rows) →
  i + N.of_nat gap < Uint.modulus →
  ∃ j, scanDown rows gap i = Ret j ∧ i ≤ j ∧ j ≤ i + N.of_nat gap.
Proof.
  revert i. induction gap as [|gap IH]; intros i Hrange Hsmall; simpl.
  - exists i. split; [reflexivity|lia].
  - destruct (index_lt rows i) as (r & -> & _); [lia|].
    simpl. destruct (isSelectableRenderedRef _).
    + exists i. split; [reflexivity|lia].
    + rewrite add_small by lia.
      destruct (IH (i + 1)) as (j & -> & Hj); [lia|lia|].
      exists j. split; [reflexivity|lia].
Qed.

Lemma stepOutcome_refl rv : stepOutcome rv rv.
Proof. repeat split. now left. Qed.

(** The movement returns the view as it is. *)
Local Ltac stays :=
  match goal with
  | |- ∃ rv', Ret (?rv, None) = Ret (rv', None) ∧ _ =>
      exists rv; split; [reflexivity|apply stepOutcome_refl]
  end.

Lemma stepOutcome_trans rv1 rv2 rv3 :
  stepOutcome rv1 rv2 → stepOutcome rv2 rv3 → stepOutcome rv1 rv3.
Proof.
  intros (Hr1 & Hd1 & H1) (Hr2 & Hd2 & H2). repeat split; try congruence.
  destruct H2 as [->|H2]; [assumption|now right].
Qed.

Lemma stepOutcome_selectable rv rv' :
  stepOutcome rv rv' → cursorSelectable rv = true →
  cursorSelectable rv' = true.
Proof. intros (_ & _ & [->|H]) Hsel; assumption. Qed.

Lemma moved_selectable rv rows i r :
  rows = RenderedRefs (renderedRefs rv) →
  index rows i = Ret r →
  isSelectableRenderedRef (renderedRefType r) = true →
  stepOutcome rv
    (emit UpdateDisplay (set_viewPos (SetActiveRowIndex i (viewPos rv)) rv)).
Proof.
  intros -> Hr Hsel. repeat split. right.
  unfold cursorSelectable, cursorRow. simpl.
  apply index_Ret in Hr. now rewrite Hr.
Qed.

(** A step upwards that returns has done one of the two things. *)
Lemma moveUpRef_step rv rv' err :
  moveUpRef rv = Ret (rv', err) → err = None ∧ stepOutcome rv rv'.
Proof.
  unfold moveUpRef.
  destruct (ActiveRowIndex (viewPos rv) =? 0).
  { intros [= <- <-]. split; [reflexivity|apply stepOutcome_refl]. }
  destruct (scanUp _ _) as [i|]; [|discriminate]. simpl.
  destruct (index _ i) as [r|] eqn:Hr; [|discriminate]. simpl.
  destruct (isSelectableRenderedRef _) eqn:Hsel; intros [= <- <-].
  - split; [reflexivity|]. eapply moved_selectable; eauto.
  - split; [reflexivity|apply stepOutcome_refl].
Qed.

(** A step upwards returns whenever the cursor is in range. *)
Lemma moveUpRef_returns rv :
  ActiveRowIndex (viewPos rv)
    < N.of_nat (length (RenderedRefs (renderedRefs rv))) →
  ∃ rv', moveUpRef rv = Ret (rv', None).
Proof.
  intros Hrange. unfold moveUpRef.
  destruct (ActiveRowIndex (viewPos rv) =? 0) eqn:E0; [eauto|].
  apply N.eqb_neq in E0.
  pose proof (sub_1_lt (ActiveRowIndex (viewPos rv))) as Hsub.
  destruct (scanUp_returns (RenderedRefs (renderedRefs rv))
              (N.to_nat (Uint.sub (ActiveRowIndex (viewPos rv)) 1)))
    as (i & -> & Hi); [lia|].
  simpl. destruct (index_lt (RenderedRefs (renderedRefs rv)) i)
    as (r & -> & _); [lia|].
  simpl. destruct (isSelectableRenderedRef _); eauto.
Qed.

(** A step downwards always returns, and has done one of the two
    things. *)
Lemma moveDownRef_step rv :
  ∃ rv', moveDownRef rv = Ret (rv', None) ∧ stepOutcome rv rv'.
Proof.
  unfold moveDownRef.
  set (rows := RenderedRefs (renderedRefs rv)).
  set (a := ActiveRowIndex (viewPos rv)).
  destruct (Uint.len rows =? 0) eqn:E0; simpl.
  { stays. }
  apply N.eqb_neq in E0.
  destruct (a <? Uint.sub (Uint.len rows) 1) eqn:Ea; simpl.
  2:{ stays. }
  apply N.ltb_lt in Ea.
  pose proof (wrap_lt (N.of_nat (length rows))) as Hlt.
  pose proof (len_le rows) as Hle. fold (Uint.len rows) in Hlt.
  rewrite sub_small in * by lia.
  rewrite add_small by lia.
  destruct (scanDown_returns rows
              (N.to_nat (Uint.len rows - 1 - (a + 1))) (a + 1))
    as (i & -> & Hi1 & Hi2); [lia|lia|].
  simpl. destruct (index_lt rows i) as (r & Hr & _); [lia|].
  rewrite Hr. simpl.
  destruct (isSelectableRenderedRef _) eqn:Hsel.
  - eexists. split; [reflexivity|]. eapply moved_selectable; eauto.
  - stays.
Qed.

Lemma cursorSelectable_in_range rv :
  cursorSelectable rv = true →
  ActiveRowIndex (viewPos rv)
    < N.of_nat (length (RenderedRefs (renderedRefs rv))).
Proof.
  unfold cursorSelectable, cursorRow.
  destruct (_ !! _) eqn:E; [|discriminate].
  intros _. apply lookup_lt_Some in E. lia.
Qed.

Lemma moveUpRefPage_loop_step pageSize rv :
  cursorSelectable rv = true →
  ∃ rv', moveUpRefPage_loop pageSize rv = Ret (rv', None)
         ∧ stepOutcome rv rv'.
Proof.
  revert rv. induction pageSize as [|p IH]; intros rv Hsel; simpl.
  - stays.
  - destruct (0 <? ActiveRowIndex (viewPos rv)).
    2:{ stays. }
    destruct (moveUpRef_returns rv) as (rv1 & H1);
      [now apply cursorSelectable_in_range|].
    rewrite H1. simpl.
    apply moveUpRef_step in H1 as (_ & Hstep).
    destruct (IH rv1) as (rv2 & -> & Hstep2).
    { eapply stepOutcome_selectable; eauto. }
    exists rv2. split; [reflexivity|]. eapply stepOutcome_trans; eauto.
Qed.

Lemma moveDownRefPage_loop_step renderedRefNum pageSize rv :
  ∃ rv', moveDownRefPage_loop renderedRefNum pageSize rv = Ret (rv', None)
         ∧ stepOutcome rv rv'.
Proof.
  revert rv. induction pageSize as [|p IH]; intros rv; simpl.
  - stays.
  - destruct (_ <? renderedRefNum).
    2:{ stays. }
    destruct (moveDownRef_step rv) as (rv1 & -> & Hstep). simpl.
    destruct (IH rv1) as (rv2 & -> & Hstep2).
    exists rv2. split; [reflexivity|]. eapply stepOutcome_trans; eauto.
Qed.

End Movements.

Section Toggle.

Implicit Types (rv : RefView) (rows : list RenderedRef).

Lemma groupRows_unfold rv k g gs :
  groupRows rv k (g :: gs)
  = (body ← (if expanded g then generatorRows rv g else Ret []);
     rest ← groupRows rv (S k) gs;
     Ret (headerRow k g
          :: body ++ match gs with [] => [] | _ :: _ => [spaceRow] end
          ++ rest)).
Proof. reflexivity. Qed.

Lemma groupRows_app rv k pre g post :
  groupRows rv k (pre ++ g :: post)
  = (before ← leadingRows rv k pre;
     after ← groupRows rv (k + length pre) (g :: post);
     Ret (before ++ after)).
Proof.
  revert k. induction pre as [|p pre IH]; intros k.
  - cbn [app leadingRows length]. rewrite Nat.add_0_r.
    generalize (groupRows rv k (g :: post)). now intros [after|].
  - cbn [app length leadingRows]. rewrite groupRows_unfold, IH.
    replace (S k + length pre)%nat with (k + S (length pre))%nat by lia.
    generalize (groupRows rv (k + S (length pre)) (g :: post)).
    intros after.
    destruct (if expanded p then generatorRows rv p else Ret [])
      as [body|]; [|reflexivity].
    destruct (leadingRows rv (S k) pre) as [before|]; [|reflexivity].
    destruct after as [after|]; [|reflexivity].
    cbn [mbind outcome_bind]. f_equal.
    destruct pre; cbn [app]; now rewrite <- !app_assoc.
Qed.

(** The generated rows depend on the view through its repository data
    only (and through the groups handed over). *)
Lemma generatorRows_data rv rv' g :
  repoData rv = repoData rv' → generatorRows rv g = generatorRows rv' g.
Proof. intros H. unfold generatorRows. now rewrite H. Qed.

Lemma leadingRows_data rv rv' k groups :
  repoData rv = repoData rv' →
  leadingRows rv k groups = leadingRows rv' k groups.
Proof.
  intros H. revert k. induction groups as [|g gs IH]; intros k;
    [reflexivity|].
  cbn [leadingRows]. now rewrite IH, (generatorRows_data rv rv' g H).
Qed.

Lemma groupRows_first rv k g post rows :
  groupRows rv k (g :: post) = Ret rows →
  rows !! 0%nat = Some (headerRow k g).
Proof.
  intros H. apply groupRows_cons in H as (body & rest & _ & _ & _ & ->).
  reflexivity.
Qed.

(** Two rows of a list whose group pointers are pairwise distinct point
    to the same group only if they are the same element. *)
Lemma refList_position rows a b x y i :
  NoDup (omap refList rows) →
  rows !! a = Some x → rows !! b = Some y →
  refList x = Some i → refList y = Some i → a = b.
Proof.
  revert a b. induction rows as [|r rows IH]; intros a b Hnd Ha Hb Hx Hy;
    [discriminate|].
  assert (Hin : ∀ c z, rows !! c = Some z → refList z = Some i →
                       i ∈ omap refList rows).
  { intros c z Hc Hz. apply list_elem_of_omap. exists z.
    split; [|exact Hz]. eapply list_elem_of_lookup_2, Hc. }
  destruct a as [|a], b as [|b]; simpl in *.
  - reflexivity.
  - injection Ha as ->. rewrite Hx in Hnd. apply NoDup_cons in Hnd as [Hn _].
    exfalso. apply Hn. eapply Hin; eauto.
  - injection Hb as ->. rewrite Hy in Hnd. apply NoDup_cons in Hnd as [Hn _].
    exfalso. apply Hn. eapply Hin; eauto.
  - f_equal. eapply IH; eauto.
    destruct (refList r); [now apply NoDup_cons in Hnd as [_ ?]|exact Hnd].
Qed.

Lemma filter_passes_None rows : filter (λ r, passes None r) rows = rows.
Proof.
  induction rows as [|r rows IH]; [reflexivity|].
  rewrite filter_cons_True by exact I. now rewrite IH.
Qed.

(** After a toggle the header of the toggled group is where it was. *)
Lemma toggle_keeps_header rv rows a r i g rows' :
  regeneratedRows rv = Ret rows →
  rows !! a = Some r →
  refList r = Some i →
  refLists rv !! i = Some g →
  regeneratedRows (set_refLists (<[i := toggle g]> (refLists rv)) rv)
  = Ret rows' →
  rows' !! a = Some (headerRow i (toggle g)).
Proof.
  intros Hrows Ha Hr Hg Hrows'.
  pose proof (lookup_lt_Some _ _ _ Hg) as Hi.
  pose proof (groupRows_headers rv 0 _ _ Hrows) as Hheaders.
  unfold regeneratedRows in *. cbn [refLists set_refLists] in Hrows'.
  rewrite insert_take_drop in Hrows' by exact Hi.
  rewrite <- (take_drop_middle _ _ _ Hg) in Hrows.
  rewrite groupRows_app in Hrows, Hrows'.
  rewrite (leadingRows_data _ rv) in Hrows' by reflexivity.
  destruct (leadingRows rv 0 (take i (refLists rv))) as [before|];
    [|discriminate].
  cbn [mbind outcome_bind] in Hrows, Hrows'.
  rewrite length_take_le in Hrows, Hrows' by lia.
  destruct (groupRows rv (0 + i) (g :: _)) as [after|] eqn:Hafter;
    [|discriminate].
  destruct (groupRows _ (0 + i) (toggle g :: _)) as [after'|] eqn:Hafter';
    [|discriminate].
  cbn [mbind outcome_bind] in Hrows, Hrows'.
  injection Hrows as <-. injection Hrows' as <-.
  apply groupRows_first in Hafter, Hafter'. simpl in Hafter, Hafter'.
  assert (a = length before) as ->.
  { eapply (refList_position (before ++ after) a (length before) r
              (headerRow i g) i); eauto.
    - rewrite Hheaders. apply NoDup_seq.
    - rewrite lookup_app_r, Nat.sub_diag by lia. exact Hafter. }
  rewrite lookup_app_r, Nat.sub_diag by lia. exact Hafter'.
Qed.

End Toggle.

(** C1, as amended.  A regeneration never touches the cursor: it does
    not re-clamp the selected index.  The moves by one row and by one
    page only ever put the cursor on a selectable row, so a cursor that
    rests on a selectable row still does after them; the jumps to the
    first and to the last row go to index 0 and to the last index
    whatever the kind of the row there.  When a group header is
    activated in a view without filter whose rows are exactly the rows a
    regeneration would produce from its groups and its repository data
    as they are now, the header of the toggled group is at the same
    index after the regeneration, so the cursor still rests on a
    selectable row.  (On rows that are stale, because the repository
    data has changed since they were generated, it need not: see
    [selectRef_on_stale_rows].) *)
Theorem cursor_after_moves_and_regeneration (rv : RefView) :
  (∀ rv', generateRenderedRefs rv = Ret rv' → viewPos rv' = viewPos rv)
  ∧ (∀ rv' err, moveUpRef rv = Ret (rv', err) →
                rv' = rv ∨ cursorSelectable rv' = true)
  ∧ (∃ rv', moveDownRef rv = Ret (rv', None)
            ∧ (rv' = rv ∨ cursorSelectable rv' = true))
  ∧ keepsCursorSelectable moveUpRef rv
  ∧ keepsCursorSelectable moveDownRef rv
  ∧ keepsCursorSelectable moveUpRefPage rv
  ∧ keepsCursorSelectable moveDownRefPage rv
  ∧ (∃ rv', moveToFirstRef rv = Ret (rv', None)
            ∧ ActiveRowIndex (viewPos rv') = 0)
  ∧ (0 < Uint.len (RenderedRefs (renderedRefs rv)) →
     ∃ rv', moveToLastRef rv = Ret (rv', None)
            ∧ ActiveRowIndex (viewPos rv')
              = Uint.len (RenderedRefs (renderedRefs rv)) - 1)
  ∧ (∀ rows r,
       renderedRefs rv = RenderedRefList None rows None →
       regeneratedRows rv = Ret rows →
       cursorRow rv = Some r →
       isGroupHeader (renderedRefType r) = true →
       ∀ rv' err,
         selectRef rv = Ret (rv', err) →
         viewPos rv' = viewPos rv
         ∧ cursorSelectable rv' = true
         ∧ ∃ i g, refLists rv !! i = Some g
                  ∧ cursorRow rv' = Some (headerRow i (toggle g))).
Proof.
  assert (Hkeep : ∀ move,
            (cursorSelectable rv = true →
             ∃ rv', move rv = Ret (rv', None) ∧ stepOutcome rv rv') →
            keepsCursorSelectable move rv).
  { intros move H Hsel. destruct (H Hsel) as (rv' & Hmove & Hstep).
    exists rv'. split; [exact Hmove|]. split.
    - eapply stepOutcome_selectable; eauto.
    - apply Hstep. }
  split.
  { intros rv'. rewrite generateRenderedRefs_rows.
    destruct (regeneratedRows rv); [|discriminate].
    now intros [= <-]. }
  split.
  { intros rv' err H. now apply moveUpRef_step in H as (_ & _ & _ & H). }
  split.
  { destruct (moveDownRef_step rv) as (rv' & H & _ & _ & Hstep). eauto. }
  split.
  { apply Hkeep. intros Hsel.
    destruct (moveUpRef_returns rv) as (rv' & H);
      [now apply cursorSelectable_in_range|].
    exists rv'. split; [exact H|]. now apply moveUpRef_step in H as (_ & H). }
  split.
  { apply Hkeep. intros _. apply moveDownRef_step. }
  split.
  { apply Hkeep. intros Hsel. now apply moveUpRefPage_loop_step. }
  split.
  { apply Hkeep. intros _. apply moveDownRefPage_loop_step. }
  split.
  { unfold moveToFirstRef, MoveToFirstLine.
    destruct (0 <? activeRowIndex (viewPos rv)) eqn:E.
    - eexists. split; reflexivity.
    - eexists. split; [reflexivity|]. simpl.
      apply N.ltb_ge in E. unfold ActiveRowIndex. lia. }
  split.
  { intros Hpos. unfold moveToLastRef, MoveToLastLine.
    pose proof (len_lt (RenderedRefs (renderedRefs rv))).
    rewrite sub_small by lia.
    destruct (_ && _) eqn:E.
    - eexists. split; reflexivity.
    - eexists. split; [reflexivity|]. simpl.
      apply andb_false_iff in E as [E|E].
      + apply N.ltb_ge in E. lia.
      + apply negb_false_iff, N.eqb_eq in E. exact E. }
  intros rows r Hchain Hrows Hcur Hkind rv' err Hsel.
  unfold cursorRow in Hcur. rewrite Hchain in Hcur. simpl in Hcur.
  assert (∃ i g, refList r = Some i ∧ refLists rv !! i = Some g)
    as (i & g & Hi & Hg).
  { unfold selectRef in Hsel. rewrite Hchain in Hsel. simpl in Hsel.
    rewrite (proj2 (index_Ret _ _ _) Hcur) in Hsel. simpl in Hsel.
    destruct (refList r) as [i|] eqn:Ei.
    - destruct (refLists rv !! i) as [g|] eqn:Eg; [eauto|].
      destruct (renderedRefType r); discriminate.
    - destruct (renderedRefType r); discriminate. }
  assert (Hrow : RenderedRefs (renderedRefs rv)
                   !! N.to_nat (ActiveRowIndex (viewPos rv)) = Some r).
  { now rewrite Hchain. }
  rewrite (selectRef_header rv r i g Hrow Hkind Hi Hg),
    generateRenderedRefs_rows in Hsel.
  destruct (regeneratedRows
              (set_refLists (<[i:=toggle g]> (refLists rv)) rv))
    as [rows'|] eqn:Hrows'; [|discriminate].
  simpl in Hsel. injection Hsel as <- <-.
  pose proof (toggle_keeps_header rv rows _ r i g rows' Hrows Hcur Hi Hg Hrows')
    as Hnew.
  assert (Hcur' : cursorRow
                    (emit UpdateDisplay
                       (set_renderedRefs
                          (extend (Clear (renderedRefs rv)) rows')
                          (set_refLists (<[i:=toggle g]> (refLists rv)) rv)))
                  = Some (headerRow i (toggle g))).
  { unfold cursorRow. simpl. rewrite Hchain. simpl.
    now rewrite filter_passes_None. }
  split; [reflexivity|]. split; [|eauto].
  unfold cursorSelectable. rewrite Hcur'. simpl.
  assert (r = headerRow i g) as Hr.
  { pose proof (lookup_lt_Some _ _ _ Hg) as Hlt.
    pose proof (groupRows_headers rv 0 _ _ Hrows) as Hheaders.
    unfold regeneratedRows in Hrows.
    rewrite <- (take_drop_middle _ _ _ Hg), groupRows_app in Hrows.
    destruct (leadingRows rv 0 (take i (refLists rv))) as [before|];
      [|discriminate].
    cbn [mbind outcome_bind] in Hrows.
    rewrite length_take_le in Hrows by lia.
    destruct (groupRows rv (0 + i) (g :: _)) as [after|] eqn:Hafter;
      [|discriminate].
    cbn [mbind outcome_bind] in Hrows. injection Hrows as <-.
    apply groupRows_first in Hafter. simpl in Hafter.
    assert (Hpos : (before ++ after) !! length before = Some (headerRow i g)).
    { rewrite lookup_app_r, Nat.sub_diag by lia. exact Hafter. }
    assert (N.to_nat (ActiveRowIndex (viewPos rv)) = length before) as Ha.
    { eapply (refList_position (before ++ after)); eauto.
      rewrite Hheaders. apply NoDup_seq. }
    rewrite Ha in Hcur. congruence. }
  rewrite Hr in Hkind. simpl in Hkind.
  unfold isSelectableRenderedRef.
  destruct (refList_renderedRefType g); try discriminate; reflexivity.
Qed.

Lemma cursor_after_moves_and_regeneration_witness :
  ∃ rv', moveDownRef regeneratedView = Ret (rv', None)
         ∧ cursorSelectable rv' = true
         ∧ renderedRefs rv' = renderedRefs regeneratedView.
Proof.
  exact (proj1 (proj2 (proj2 (proj2 (proj2
           (cursor_after_moves_and_regeneration regeneratedView)))))
           eq_refl).
Defined.

(** C1 as stated fails.  In the run above the branch callback
    regenerates the rows and leaves the cursor on the spacer below the
    collapsed "Branches" header although selectable rows exist, and the
    regeneration of the tag callback that follows does not move it. *)
Lemma regeneration_cursor_counterexample :
  Initialise None None None startView = Ret (initialisedView, None)
  ∧ cursorSelectable initialisedView = true
  ∧ selectRef initialisedView = Ret (collapsedView, None)
  ∧ cursorSelectable collapsedView = true
  ∧ onBranchesLoaded (localBranches exampleRepo) (remoteBranches exampleRepo)
      (set_repoData exampleRepo collapsedView)
    = Ret (afterBranchesView, None)
  ∧ selectableExists afterBranchesView = true
  ∧ cursorRow afterBranchesView = Some spaceRow
  ∧ cursorSelectable afterBranchesView = false
  ∧ onLocalTagsLoaded (localTags exampleRepo) afterBranchesView
    = Ret (afterTagsView, None)
  ∧ selectableExists afterTagsView = true
  ∧ cursorRow afterTagsView = Some spaceRow
  ∧ cursorSelectable afterTagsView = false.
Proof. repeat split. Qed.

(** ** Runs of the model on the example views *)

Example fmt_uint_decimal : fmt_uint 12 = "12" ∧ fmt_len [1; 2; 3] = "3".
Proof. split; reflexivity. Qed.

Example TrimLeft_space_run : TrimLeft_space "   origin/master " = "origin/master ".
Proof. reflexivity. Qed.

(** The first regeneration of the example view: the "Branches" group is
    expanded, the other two are collapsed. *)
Example regenerated_example_rows :
  generateRenderedRefs exampleView = Ret regeneratedView
  ∧ map value (RenderedRefs (renderedRefs regeneratedView))
    = ["  [-] Branches"; "   master"; "   dev"; "";
       "  [+] Remote Branches"; ""; "  [+] Tags"]
  ∧ map renderedRefType (RenderedRefs (renderedRefs regeneratedView))
    = [RvLocalBranchGroup; RvLocalBranch; RvLocalBranch; RvSpace;
       RvRemoteBranchGroup; RvSpace; RvTagGroup].
Proof. repeat split. Qed.

(** With the filter that keeps local branches only, a regeneration
    leaves neither header nor spacer visible. *)
Example regenerated_filtered_rows :
  map value
      (RenderedRefs
         (renderedRefs
            (returned filteredView (generateRenderedRefs filteredView))))
  = ["   master"; "   dev"].
Proof. reflexivity. Qed.

(** The add-filter command on the regenerated example view. *)
Example addRefFilter_run :
  ∃ rv',
    addRefFilter (λ _, (Some onlyLocalBranches, [])) [ArgString "branch"]
                 regeneratedView
    = Ret (rv', None)
    ∧ effects rv' = [ReportStatus "Filter applied"]
    ∧ map value (RenderedRefs (renderedRefs rv')) = ["   master"; "   dev"]
    ∧ Children (renderedRefs rv') = 1.
Proof. eexists. repeat split. Qed.

(** The footer of the "Tags" header while the tags are loading: the text
    has no dots, unlike the texts of the two branch headers. *)
Example footer_headers_loading :
  footer reloadingView
         (headerRow 0 (mkRefList "Branches" true generateBranches_fn
                                 RvLocalBranchGroup))
  = "Branches: Loading..."
  ∧ footer reloadingView
           (headerRow 1 (mkRefList "Remote Branches" false generateBranches_fn
                                   RvRemoteBranchGroup))
    = "Remote Branches: Loading..."
  ∧ footer reloadingView
           (headerRow 2 (mkRefList "Tags" false generateTags_fn RvTagGroup))
    = "Tags: Loading".
Proof. repeat split. Qed.

(** [Line], unlike [Render] and [selectRef], checks its index. *)
Example Line_checks_index :
  Line 0 emptiedView = Ret "" ∧ Line 1 regeneratedView = Ret "   master".
Proof. split; reflexivity. Qed.

(** A whole [Render] of the regenerated example view. *)
Example Render_run :
  ∃ rv',
    Render plainWindow regeneratedView
    = Ret (rv',
           [SetRow 1 0 CmpRefviewLocalBranchesHeader "  [-] Branches";
            SetRow 2 0 CmpRefviewLocalBranch "   master";
            SetRow 3 0 CmpRefviewLocalBranch "   dev";
            SetRow 4 0 CmpNone "";
            SetRow 5 0 CmpRefviewRemoteBranchesHeader "  [+] Remote Branches";
            SetRow 6 0 CmpNone "";
            SetRow 7 0 CmpRefviewTagsHeader "  [+] Tags";
            SetSelectedRow 1 false;
            DrawBorder;
            SetTitle CmpRefviewTitle "Refs";
            SetFooter CmpRefviewFooter "Branches: 2"],
           None).
Proof. eexists. reflexivity. Qed.

(** Activating a header on stale rows: the rows of the view are those
    of its last regeneration, but the branches have been loaded since.
    The regeneration lists the two local branches, the header that was
    activated moves down, and the cursor is left on the spacer; a second
    activation there does nothing. *)
Example selectRef_on_stale_rows :
  Children (renderedRefs staleView) = 0
  ∧ renderedRefs staleView = renderedRefs initialisedView
  ∧ cursorRow staleView
    = Some (headerRow 1 (mkRefList "Remote Branches" false
                                   generateBranches_fn RvRemoteBranchGroup))
  ∧ regeneratedRows staleView
    ≠ Ret (RenderedRefs (renderedRefs staleView))
  ∧ selectRef staleView = Ret (staleToggledView, None)
  ∧ viewPos staleToggledView = viewPos staleView
  ∧ cursorRow staleToggledView = Some spaceRow
  ∧ cursorSelectable staleToggledView = false
  ∧ selectRef staleToggledView = Ret (staleToggledView, None).
Proof. repeat split. discriminate. Qed.

(** The remove-filter command, with a filter installed and without. *)
Example removeRefFilter_run :
  ∃ rv',
    removeRefFilter filteredView = Ret (rv', None)
    ∧ effects rv' = [ReportStatus "Removed ref filter"]
    ∧ renderedRefs rv' = renderedRefs exampleView
    ∧ removeRefFilter rv'
      = Ret (emit (ReportStatus "No ref filter applied to remove") rv', None).
Proof. eexists. repeat split. Qed.

(** * Further properties of the chain *)

Section ChainInvariant.

Implicit Types (l c : renderedRefList) (r : RenderedRef).
Implicit Types (rs : list RenderedRef) (f : option RefFilter).

Lemma collected_Add l r :
  collected (Add l r)
  = collected l ++ filter (λ x, passes (filterOf l) x) [r].
Proof.
  destruct l as [child rs f]. simpl. rewrite filter_cons, filter_nil.
  unfold passes. destruct (rejects f r); simpl; [now rewrite app_nil_r|].
  reflexivity.
Qed.

Lemma filterOf_Add l r : filterOf (Add l r) = filterOf l.
Proof. destruct l as [child rs f]. simpl. now destruct (rejects f r). Qed.

Lemma consistent_Add l r : consistent l → consistent (Add l r).
Proof.
  induction l as [rs f|c rs f IH] using chain_ind; simpl.
  - now destruct (rejects f r).
  - intros [Hc Hcons]. destruct (rejects f r); simpl; [now split|].
    split; [|now apply IH].
    rewrite collected_Add, filterOf_Add, Hc, filter_app. reflexivity.
Qed.

Lemma consistent_AddAll l rs : consistent l → consistent (AddAll l rs).
Proof.
  unfold AddAll. revert l. induction rs as [|r rs IH]; intros l Hl; simpl.
  - exact Hl.
  - apply IH. now apply consistent_Add.
Qed.

Lemma consistent_AddFilter l f : consistent l → consistent (AddFilter l f).
Proof.
  unfold AddFilter.
  induction l as [rs f0|c rs f0 IH] using chain_ind; simpl.
  - intros _. rewrite AddAll_extend. simpl. auto.
  - intros [Hc Hcons]. split; [|now apply IH].
    destruct c as [[c'|] crs cf]; exact Hc.
Qed.

Lemma consistent_RemoveChild l : consistent l → consistent (RemoveChild l).1.
Proof.
  induction l as [rs f|c rs f IH] using chain_ind; simpl; [auto|].
  intros [Hc Hcons]. destruct (Child c) eqn:E; simpl; [|exact I].
  specialize (IH Hcons). destruct (RemoveChild c) as [c' removed] eqn:Erem.
  simpl in *. split; [|exact IH].
  destruct c as [[c0|] crs cf]; [|discriminate]. simpl in Erem.
  destruct (Child c0); [destruct (RemoveChild c0)|];
    injection Erem as <- _; exact Hc.
Qed.

Lemma consistent_Clear l : consistent (Clear l).
Proof.
  induction l as [rs f|c rs f IH] using chain_ind; simpl; [exact I|].
  split; [|exact IH]. now destruct c as [[c'|] crs cf].
Qed.

Lemma consistent_visible l :
  consistent l →
  RenderedRefs l = filter (λ r, passesBelow l r) (collected l).
Proof.
  induction l as [rs f|c rs f IH] using chain_ind; simpl.
  - intros _. unfold passesBelow. simpl.
    induction rs as [|r rs IHrs]; [reflexivity|].
    rewrite filter_cons_True by exact I. now rewrite <- IHrs.
  - intros [Hc Hcons]. rewrite (IH Hcons), Hc, list_filter_filter.
    apply list_filter_iff. intros r. unfold passesBelow. simpl.
    destruct c as [[c'|] crs cf]; simpl;
      destruct (passes cf r); simpl; try destruct (passesAll c' r); simpl;
      tauto.
Qed.

Lemma depth_RemoveChild l : depth (RemoveChild l).1 = pred (depth l).
Proof.
  induction l as [rs f|c rs f IH] using chain_ind; simpl; [reflexivity|].
  destruct (Child c) eqn:E.
  - destruct (RemoveChild c) as [c' removed]. simpl in *. rewrite IH.
    destruct c as [[c0|] crs cf]; [reflexivity|discriminate].
  - destruct c as [[c0|] crs cf]; [discriminate|reflexivity].
Qed.

Lemma removed_RemoveChild l :
  (RemoveChild l).2 = bool_decide (0 < depth l)%nat.
Proof.
  induction l as [rs f|c rs f IH] using chain_ind; simpl; [reflexivity|].
  destruct (Child c) eqn:E.
  - destruct (RemoveChild c) as [c' removed]. simpl in *. rewrite IH.
    destruct c as [[c0|] crs cf]; [reflexivity|discriminate].
  - reflexivity.
Qed.

End ChainInvariant.

(** X1. The chain keeps its links consistent: in a chain built from a
    new list by [Add], by adding filters, by [RemoveChild] and by
    [Clear], every link below the head holds exactly the rows of its
    parent that pass its filter, and the visible rows are the rows of the
    head that pass every installed filter. *)
Theorem chain_consistency_kept (l : renderedRefList) :
  consistent l →
  (∀ r, consistent (Add l r))
  ∧ (∀ p, consistent (AddFilter l p))
  ∧ consistent (RemoveChild l).1
  ∧ consistent (Clear l)
  ∧ RenderedRefs l = filter (λ r, passesBelow l r) (collected l).
Proof.
  intros Hl. split; [intros r; now apply consistent_Add|].
  split; [intros p; now apply consistent_AddFilter|].
  split; [now apply consistent_RemoveChild|].
  split; [apply consistent_Clear|now apply consistent_visible].
Qed.

Lemma chain_consistency_kept_witness :
  consistent filteredChain
  ∧ consistent (RemoveChild filteredChain).1
  ∧ RenderedRefs filteredChain
    = filter (λ r, passesBelow filteredChain r) (collected filteredChain).
Proof.
  assert (H : consistent filteredChain) by (split; [reflexivity|exact I]).
  split; [exact H|].
  split; [exact (proj1 (proj2 (proj2 (chain_consistency_kept _ H))))|].
  exact (proj2 (proj2 (proj2 (proj2 (chain_consistency_kept _ H))))).
Defined.

(** X2. [RemoveChild] removes the last link and nothing else: with a
    filter installed the links of the chain afterwards are the links it
    had, each with its rows and its filter, less the last one, and with
    none installed the chain is left as it is.  It reports a removal
    exactly when a filter is installed, and in a consistent chain every
    row that was visible is still visible, in the same order. *)
Theorem RemoveChild_last_link (l : renderedRefList) :
  (RemoveChild l).2 = bool_decide (0 < depth l)%nat
  ∧ depth (RemoveChild l).1 = pred (depth l)
  ∧ (depth l = 0%nat → (RemoveChild l).1 = l)
  ∧ (consistent l →
     RenderedRefs l `sublist_of` RenderedRefs (RemoveChild l).1)
  ∧ links (RemoveChild l).1
    = (if bool_decide (0 < depth l)%nat
       then take (depth l) (links l)
       else links l)
  ∧ (∀ l', links l' = links (RemoveChild l).1 → l' = (RemoveChild l).1).
Proof.
  split; [apply removed_RemoveChild|].
  split; [apply depth_RemoveChild|]. split.
  { destruct l as [[c|] rs f]; [discriminate|reflexivity]. }
  split.
  { induction l as [rs f|c rs f IH] using chain_ind; simpl; [reflexivity|].
    intros [Hc Hcons]. destruct (Child c) eqn:E.
    + specialize (IH Hcons). destruct (RemoveChild c) as [c' removed].
      exact IH.
    + simpl. destruct c as [[c0|] crs cf]; [discriminate|].
      simpl in *. rewrite Hc. apply sublist_filter. }
  split; [|intros l'; apply links_inj].
  rewrite links_RemoveChild. destruct (bool_decide _); [|reflexivity].
  rewrite removelast_firstn_len, length_links. reflexivity.
Qed.

(** X3. In a consistent chain with a filter installed, removing the last
    filter and adding it again gives back the chain as it was. *)
Theorem RemoveFilter_AddFilter_round_trip (l : renderedRefList) :
  consistent l →
  (0 < depth l)%nat →
  AddFilter (RemoveChild l).1 (lastFilter l) = l.
Proof.
  unfold AddFilter.
  induction l as [rs f|c rs f IH] using chain_ind; simpl; [lia|].
  intros [Hc Hcons] _. destruct (Child c) eqn:E.
  - assert (Hd : (0 < depth c)%nat).
    { destruct c as [[c0|] crs cf]; [simpl; lia|discriminate]. }
    specialize (IH Hcons Hd). destruct (RemoveChild c) as [c' removed].
    simpl in *. now rewrite IH.
  - destruct c as [[c0|] crs cf]; [discriminate|]. simpl in *.
    rewrite AddAll_extend. simpl. now rewrite Hc.
Qed.

Lemma RemoveFilter_AddFilter_round_trip_witness :
  AddFilter (RemoveChild filteredChain).1 (lastFilter filteredChain)
  = filteredChain.
Proof.
  apply RemoveFilter_AddFilter_round_trip.
  - split; [reflexivity|exact I].
  - simpl. lia.
Defined.

(** X4. The order in which two filters are added does not matter for
    the visible rows, and adding the same filter a second time hides
    nothing more. *)
Theorem AddFilter_commutes (l : renderedRefList) (p q : option RefFilter) :
  RenderedRefs (AddFilter (AddFilter l p) q)
  = RenderedRefs (AddFilter (AddFilter l q) p)
  ∧ RenderedRefs (AddFilter (AddFilter l p) p)
    = RenderedRefs (AddFilter l p).
Proof.
  rewrite !RenderedRefs_AddFilter, !list_filter_filter. split.
  - apply list_filter_iff. intros r. tauto.
  - apply list_filter_iff. intros r. tauto.
Qed.

(** * Further properties of regeneration and of the load callbacks *)

Section RegenerationAgain.

Implicit Types (rv : RefView) (l : renderedRefList).

Lemma Clear_extend l rows : Clear (extend l rows) = Clear l.
Proof.
  revert rows. induction l as [rs f|c rs f IH] using chain_ind;
    intros rows; simpl; [reflexivity|now rewrite IH].
Qed.

Lemma Clear_Clear l : Clear (Clear l) = Clear l.
Proof.
  induction l as [rs f|c rs f IH] using chain_ind; simpl;
    [reflexivity|now rewrite IH].
Qed.

Lemma groupRows_data rv rv' k groups :
  repoData rv = repoData rv' → groupRows rv k groups = groupRows rv' k groups.
Proof.
  intros H. revert k. induction groups as [|g gs IH]; intros k;
    [reflexivity|].
  cbn [groupRows]. now rewrite IH, (generatorRows_data rv rv' g H).
Qed.

Lemma depth_Clear l : depth (Clear l) = depth l.
Proof.
  induction l as [rs f|c rs f IH] using chain_ind; simpl;
    [reflexivity|now rewrite IH].
Qed.

Lemma extend_Clear_single rows0 rows :
  extend (Clear (RenderedRefList None rows0 None)) rows
  = RenderedRefList None rows None.
Proof. simpl. now rewrite filter_passes_None. Qed.

End RegenerationAgain.

(** X5. A regeneration keeps the links and the filters of the chain, and
    leaves it consistent whatever it held before; a second regeneration
    right after the first changes nothing. *)
Theorem regeneration_idempotent (rv rv' : RefView) :
  generateRenderedRefs rv = Ret rv' →
  generateRenderedRefs rv' = Ret rv'
  ∧ Clear (renderedRefs rv') = Clear (renderedRefs rv)
  ∧ Children (renderedRefs rv') = Children (renderedRefs rv)
  ∧ consistent (renderedRefs rv')
  ∧ refLists rv' = refLists rv
  ∧ effects rv' = effects rv.
Proof.
  rewrite generateRenderedRefs_rows.
  destruct (regeneratedRows rv) as [rows|] eqn:Hrows; [|discriminate].
  simpl. intros [= <-]. split.
  - rewrite generateRenderedRefs_rows. unfold regeneratedRows in *. simpl.
    rewrite (groupRows_data _ rv) by reflexivity. rewrite Hrows. simpl.
    now rewrite Clear_extend, Clear_Clear.
  - simpl. split; [now rewrite Clear_extend, Clear_Clear|].
    split; [now rewrite !Children_depth, depth_extend, depth_Clear|].
    split; [|split; reflexivity].
    rewrite <- AddAll_extend. apply consistent_AddAll, consistent_Clear.
Qed.

Lemma regeneration_idempotent_witness :
  generateRenderedRefs regeneratedFilteredView = Ret regeneratedFilteredView
  ∧ Clear (renderedRefs regeneratedFilteredView)
    = Clear (renderedRefs filteredView)
  ∧ Children (renderedRefs regeneratedFilteredView)
    = Children (renderedRefs filteredView)
  ∧ consistent (renderedRefs regeneratedFilteredView)
  ∧ refLists regeneratedFilteredView = refLists filteredView
  ∧ effects regeneratedFilteredView = effects filteredView.
Proof.
  apply (regeneration_idempotent filteredView).
  vm_compute. reflexivity.
Defined.

(** X6. [Initialise] returns the error of the first load that fails and
    then neither regenerates nor notifies.  When the three loads
    succeed it regenerates the rows and notifies the listeners with the
    head object id and the name of the head branch, or, with HEAD
    detached, with "HEAD detached at " and the first 7 characters of the
    head object id (without indentation); detached with no head object
    id, or one shorter than 7 characters, it panics. *)
Theorem Initialise_outcomes
    (errLoadHead errLoadBranches errLoadLocalTags : option error)
    (rv : RefView) :
  (∀ e, errLoadHead = Some e →
        Initialise errLoadHead errLoadBranches errLoadLocalTags rv
        = Ret (rv, Some e))
  ∧ (∀ e, errLoadHead = None → errLoadBranches = Some e →
          Initialise errLoadHead errLoadBranches errLoadLocalTags rv
          = Ret (rv, Some e))
  ∧ (∀ e, errLoadHead = None → errLoadBranches = None →
          errLoadLocalTags = Some e →
          Initialise errLoadHead errLoadBranches errLoadLocalTags rv
          = Ret (rv, Some e))
  ∧ (errLoadHead = None → errLoadBranches = None →
     errLoadLocalTags = None →
     (∀ b, headBranch (repoData rv) = Some b →
           ∃ rv1, generateRenderedRefs rv = Ret rv1
                  ∧ Initialise errLoadHead errLoadBranches errLoadLocalTags rv
                    = Ret (notifyRefListeners (Branch_name b)
                             (head (repoData rv)) rv1))
     ∧ (∀ o, headBranch (repoData rv) = None →
             head (repoData rv) = Some o →
             (7 ≤ String.length (Oid_String o))%nat →
             ∃ rv1, generateRenderedRefs rv = Ret rv1
                    ∧ Initialise errLoadHead errLoadBranches errLoadLocalTags
                                 rv
                      = Ret (notifyRefListeners
                               ("HEAD detached at "
                                +:+ substring 0 7 (Oid_String o))
                               (Some o) rv1))
     ∧ (headBranch (repoData rv) = None →
        (∀ o, head (repoData rv) = Some o →
              (String.length (Oid_String o) < 7)%nat) →
        Initialise errLoadHead errLoadBranches errLoadLocalTags rv = Panic)).
Proof.
  split; [now intros e ->|]. split; [now intros e -> ->|].
  split; [now intros e -> -> ->|].
  intros -> -> ->. unfold Initialise.
  assert (Hsame : ∀ rv1, generateRenderedRefs rv = Ret rv1 →
                         repoData rv1 = repoData rv).
  { intros rv1. rewrite generateRenderedRefs_rows.
    destruct (regeneratedRows rv); [|discriminate]. now intros [= <-]. }
  split; [|split].
  - intros b Hb.
    destruct (generateRenderedRefs_returns rv) as [rv1 H1].
    { right. left. rewrite Hb. eauto. }
    exists rv1. split; [exact H1|]. rewrite H1. simpl.
    now rewrite (Hsame rv1 H1), Hb.
  - intros o Hdet Hhead Hlen.
    destruct (generateRenderedRefs_returns rv) as [rv1 H1].
    { right. right. eauto. }
    exists rv1. split; [exact H1|]. rewrite H1. simpl.
    rewrite (Hsame rv1 H1), Hdet, Hhead.
    now rewrite getDetachedHeadDisplayValue_ok.
  - intros Hdet Hshort.
    destruct (generateRenderedRefs rv) as [rv1|] eqn:H1; [|reflexivity].
    simpl. rewrite (Hsame rv1 eq_refl), Hdet.
    destruct (head (repoData rv)) as [o|] eqn:Hhead; [|reflexivity].
    simpl. unfold slice_to. specialize (Hshort o eq_refl).
    apply Nat.leb_gt in Hshort. now rewrite Hshort.
Qed.

Section BranchCallback.

Implicit Types (rv : RefView) (local : list Branch) (hb : Branch).

Lemma headBranchRow_first local hb start k b :
  local !! k = Some b →
  Branch_name b = Branch_name hb →
  (∀ j b', (j < k)%nat → local !! j = Some b' →
           Branch_name b' ≠ Branch_name hb) →
  headBranchRow local hb (Uint.wrap start) = Uint.wrap (start + N.of_nat k).
Proof.
  revert start k. induction local as [|b0 local IH]; intros start k Hk Hb Hfirst;
    [discriminate|].
  destruct k as [|k]; simpl in *.
  - injection Hk as ->. rewrite (proj2 (String.eqb_eq _ _) Hb).
    now rewrite N.add_0_r.
  - rewrite (proj2 (String.eqb_neq _ _) (Hfirst 0%nat b0 ltac:(lia) eq_refl)).
    unfold Uint.add. rewrite wrap_add_l, (IH (start + 1) k Hk Hb).
    + f_equal. lia.
    + intros j b' Hj Hb'. apply (Hfirst (S j)); [lia|exact Hb'].
Qed.

Lemma headBranchRow_absent local hb start :
  Forall (λ b, Branch_name b ≠ Branch_name hb) local →
  headBranchRow local hb (Uint.wrap start)
  = Uint.wrap (start + N.of_nat (length local)).
Proof.
  intros H. revert start. induction H as [|b0 local Hb _ IH]; intros start;
    simpl.
  - now rewrite N.add_0_r.
  - rewrite (proj2 (String.eqb_neq _ _) Hb).
    unfold Uint.add. rewrite wrap_add_l, IH. f_equal. lia.
Qed.

(** The rows after a regeneration of a view without filter whose first
    group is expanded. *)
Lemma first_group_regenerated rv g gs rows0 :
  refLists rv = g :: gs →
  expanded g = true →
  renderedRefs rv = RenderedRefList None rows0 None →
  headDisplayable rv →
  ∃ body rest,
    generatorRows rv g = Ret body
    ∧ groupRows rv 1 gs = Ret rest
    ∧ generateRenderedRefs rv
      = Ret (set_renderedRefs
               (RenderedRefList None
                  (headerRow 0 g :: body
                   ++ match gs with [] => [] | _ :: _ => [spaceRow] end
                   ++ rest) None) rv).
Proof.
  intros Hgroups Hexp Hchain Hhead.
  destruct (generatorRows_returns rv g Hhead) as [body Hbody].
  destruct (groupRows_returns rv 1 gs Hhead) as [rest Hrest].
  exists body, rest. split; [exact Hbody|]. split; [exact Hrest|].
  rewrite generateRenderedRefs_rows. unfold regeneratedRows.
  rewrite Hgroups, groupRows_unfold, Hexp, Hbody, Hrest. simpl.
  now rewrite Hchain, extend_Clear_single.
Qed.

End BranchCallback.

(** X7. In a view without filter whose first group is the expanded local
    branches group, the branch callback leaves the cursor on the row of
    the head branch (the first local branch with the name of the head
    branch), or on the detached-head row when HEAD is detached; when the
    head branch is not among the local branches it leaves the cursor just
    after the branch rows, on no selectable row. *)
Theorem onBranchesLoaded_cursor
    (rv : RefView) (g : refList_t) (gs : list refList_t)
    (rows0 : list RenderedRef) (remote : list Branch) :
  refLists rv = g :: gs →
  expanded g = true →
  renderer g = generateBranches_fn →
  refList_renderedRefType g = RvLocalBranchGroup →
  renderedRefs rv = RenderedRefList None rows0 None →
  branchesLoading (repoData rv) = false →
  N.of_nat (length (localBranches (repoData rv))) + 2 ≤ Uint.modulus →
  let local := localBranches (repoData rv) in
  (∀ hb k b,
     headBranch (repoData rv) = Some hb →
     local !! k = Some b →
     Branch_name b = Branch_name hb →
     (∀ j b', (j < k)%nat → local !! j = Some b' →
              Branch_name b' ≠ Branch_name hb) →
     ∃ rv', onBranchesLoaded local remote rv = Ret (rv', None)
            ∧ ActiveRowIndex (viewPos rv') = N.of_nat k + 1
            ∧ cursorRow rv'
              = Some (entryRow RvLocalBranch (Branch_name b) (Branch_oid b)
                               (N.of_nat k + 1)))
  ∧ (∀ o,
       headBranch (repoData rv) = None →
       head (repoData rv) = Some o →
       (7 ≤ String.length (Oid_String o))%nat →
       ∃ rv', onBranchesLoaded local remote rv = Ret (rv', None)
              ∧ ActiveRowIndex (viewPos rv') = 1
              ∧ cursorRow rv'
                = Some (entryRow RvLocalBranch
                          ("HEAD detached at "
                           +:+ substring 0 7 (Oid_String o))
                          (Some o) 1))
  ∧ (∀ hb,
       headBranch (repoData rv) = Some hb →
       Forall (λ b, Branch_name b ≠ Branch_name hb) local →
       ∃ rv', onBranchesLoaded local remote rv = Ret (rv', None)
              ∧ ActiveRowIndex (viewPos rv') = N.of_nat (length local) + 1
              ∧ cursorSelectable rv' = false).
Proof.
  intros Hgroups Hexp Hrend Hkind Hchain Hload Hlen local. subst local.
  assert (Hgen : ∀ hb, headBranch (repoData rv) = Some hb →
            generatorRows rv g
            = Ret (imap (λ i b, entryRow RvLocalBranch (Branch_name b)
                                         (Branch_oid b) (1 + N.of_nat i))
                        (localBranches (repoData rv)))).
  { intros hb Hhb. unfold generatorRows.
    rewrite Hrend, Hload, Hkind, Hhb. simpl.
    now rewrite branchRows_plain by lia. }
  split; [|split].
  - intros hb k b Hhb Hk Hname Hfirst.
    destruct (first_group_regenerated rv g gs rows0 Hgroups Hexp Hchain)
      as (body & rest & Hbody & _ & Hregen).
    { right. left. rewrite Hhb. eauto. }
    rewrite (Hgen hb Hhb) in Hbody. injection Hbody as <-.
    unfold onBranchesLoaded. rewrite Hregen. simpl. rewrite Hhb.
    rewrite (headBranchRow_first _ hb 1 k b Hk Hname Hfirst
             : headBranchRow _ hb 1 = _).
    pose proof (lookup_lt_Some _ _ _ Hk) as Hklt.
    rewrite wrap_small by lia.
    eexists. split; [reflexivity|]. split; [simpl; lia|].
    unfold cursorRow. simpl.
    replace (N.to_nat (1 + N.of_nat k)) with (S k) by lia. simpl.
    rewrite lookup_app_l by (rewrite length_imap; lia).
    rewrite list_lookup_imap, Hk. simpl. do 2 f_equal. lia.
  - intros o Hdet Hhead Holen.
    destruct (first_group_regenerated rv g gs rows0 Hgroups Hexp Hchain)
      as (body & rest & Hbody & _ & Hregen).
    { right. right. eauto. }
    unfold generatorRows in Hbody.
    rewrite Hrend, Hload, Hkind, Hdet, Hhead in Hbody.
    rewrite getDetachedHeadDisplayValue_ok in Hbody by assumption.
    simpl in Hbody. injection Hbody as <-.
    unfold onBranchesLoaded. rewrite Hregen. simpl. rewrite Hdet.
    eexists. split; [reflexivity|]. split; reflexivity.
  - intros hb Hhb Habsent.
    destruct (first_group_regenerated rv g gs rows0 Hgroups Hexp Hchain)
      as (body & rest & Hbody & Hrest & Hregen).
    { right. left. rewrite Hhb. eauto. }
    rewrite (Hgen hb Hhb) in Hbody. injection Hbody as <-.
    unfold onBranchesLoaded. rewrite Hregen. simpl. rewrite Hhb.
    rewrite (headBranchRow_absent _ hb 1 Habsent
             : headBranchRow _ hb 1 = _).
    rewrite wrap_small by lia.
    eexists. split; [reflexivity|]. split; [simpl; lia|].
    unfold cursorSelectable, cursorRow. simpl.
    replace (N.to_nat (1 + N.of_nat (length (localBranches (repoData rv)))))
      with (S (length (localBranches (repoData rv)))) by lia.
    simpl. rewrite lookup_app_r by (rewrite length_imap; lia).
    rewrite length_imap, Nat.sub_diag.
    destruct gs as [|g' gs']; simpl.
    + simpl in Hrest. injection Hrest as <-. reflexivity.
    + reflexivity.
Qed.

Lemma onBranchesLoaded_cursor_witness :
  ∃ rv',
    onBranchesLoaded (localBranches exampleRepo) [] exampleView
    = Ret (rv', None)
    ∧ ActiveRowIndex (viewPos rv') = 1
    ∧ cursorRow rv'
      = Some (entryRow RvLocalBranch "master" (Some exampleOid) 1).
Proof.
  assert (Hsmall : N.of_nat (length (localBranches (repoData exampleView)))
                   + 2 ≤ Uint.modulus) by (vm_compute; discriminate).
  refine (proj1 (onBranchesLoaded_cursor exampleView _ _ [] []
                   eq_refl eq_refl eq_refl eq_refl eq_refl eq_refl Hsmall)
            (mkBranch "master" (Some exampleOid)) 0%nat
            (mkBranch "master" (Some exampleOid))
            eq_refl eq_refl eq_refl _).
  intros j b' Hj. lia.
Defined.

(** * Further properties of the cursor movements *)

Section Nearest.

Implicit Types (rv : RefView) (rows : list RenderedRef).

Lemma selectableAt_index rows j r :
  index rows j = Ret r →
  isSelectableRenderedRef (renderedRefType r) = selectableAt rows j.
Proof.
  intros H. apply index_Ret in H. unfold selectableAt. now rewrite H.
Qed.

Lemma selectableAt_lt rows j :
  selectableAt rows j = true → j < N.of_nat (length rows).
Proof.
  unfold selectableAt. destruct (rows !! N.to_nat j) eqn:E; [|discriminate].
  intros _. apply lookup_lt_Some in E. lia.
Qed.

Lemma scanDown_spec rows gap i j :
  i + N.of_nat gap < N.of_nat (length rows) →
  i + N.of_nat gap < Uint.modulus →
  scanDown rows gap i = Ret j →
  i ≤ j ∧ j ≤ i + N.of_nat gap
  ∧ (∀ m, i ≤ m → m < j → selectableAt rows m = false)
  ∧ (j < i + N.of_nat gap → selectableAt rows j = true).
Proof.
  revert i. induction gap as [|gap IH]; intros i Hrange Hsmall; simpl.
  - intros [= <-]. repeat split; lia.
  - destruct (index_lt rows i) as (r & Hr & _); [lia|].
    rewrite Hr. simpl. rewrite (selectableAt_index _ _ _ Hr).
    destruct (selectableAt rows i) eqn:Hsel.
    + intros [= <-]. repeat split; try lia. intros _. exact Hsel.
    + rewrite add_small by lia. intros H.
      apply IH in H as (H1 & H2 & H3 & H4); [|lia|lia].
      repeat split; try lia.
      * intros m Hm1 Hm2. destruct (N.eq_dec m i) as [->|Hne];
          [exact Hsel|]. apply H3; lia.
      * intros Hj. apply H4. lia.
Qed.

Lemma scanUp_spec rows (i : nat) j :
  (i < length rows)%nat →
  scanUp rows i = Ret j →
  j ≤ N.of_nat i
  ∧ (∀ m, j < m → m ≤ N.of_nat i → selectableAt rows m = false)
  ∧ (0 < j → selectableAt rows j = true).
Proof.
  induction i as [|i IH]; intros Hi; cbn [scanUp].
  - intros [= <-]. repeat split; lia.
  - destruct (index_lt rows (N.of_nat (S i))) as (r & Hr & _); [lia|].
    rewrite Hr. cbn [mbind outcome_bind].
    rewrite (selectableAt_index _ _ _ Hr).
    destruct (selectableAt rows (N.of_nat (S i))) eqn:Hsel.
    + intros [= <-]. repeat split; try lia. intros _. exact Hsel.
    + intros H. apply IH in H as (H1 & H2 & H3); [|lia].
      repeat split; try lia; [|exact H3].
      intros m Hm1 Hm2. destruct (N.eq_dec m (N.of_nat (S i))) as [->|Hne];
        [exact Hsel|]. apply H2; lia.
Qed.

End Nearest.

(** X8. [moveDownRef] never panics.  It moves the cursor to the nearest
    selectable row below it, skipping the rows that are not selectable,
    and requests a redraw; when no row below the cursor is selectable it
    leaves the view as it is. *)
Theorem moveDownRef_nearest (rv : RefView) :
  let rows := RenderedRefs (renderedRefs rv) in
  let a := ActiveRowIndex (viewPos rv) in
  N.of_nat (length rows) < Uint.modulus →
  (∀ j, a < j →
        selectableAt rows j = true →
        (∀ m, a < m → m < j → selectableAt rows m = false) →
        moveDownRef rv = Ret (movedTo j rv, None))
  ∧ ((∀ j, a < j → selectableAt rows j = false) →
     moveDownRef rv = Ret (rv, None))
  ∧ ∃ rv', moveDownRef rv = Ret (rv', None).
Proof.
  intros rows a Hsmall.
  assert (Hlen : Uint.len rows = N.of_nat (length rows))
    by now apply wrap_small.
  split; [|split];
    [| |destruct (moveDownRef_step rv) as (rv' & H & _); eauto].
  - intros j Haj Hj Hbetween.
    pose proof (selectableAt_lt _ _ Hj) as Hjlt.
    unfold moveDownRef. fold rows a. rewrite Hlen.
    destruct (N.of_nat (length rows) =? 0) eqn:E0;
      [apply N.eqb_eq in E0; lia|].
    rewrite sub_small by lia.
    destruct (a <? N.of_nat (length rows) - 1) eqn:Ea;
      [|apply N.ltb_ge in Ea; lia].
    simpl. rewrite add_small by lia.
    destruct (scanDown_returns rows
                (N.to_nat (N.of_nat (length rows) - 1 - (a + 1))) (a + 1))
      as (j' & Hscan & _); [lia|lia|].
    rewrite Hscan.
    apply scanDown_spec in Hscan as (H1 & H2 & H3 & H4); [|lia|lia].
    assert (j' = j) as ->.
    { destruct (N.lt_trichotomy j' j) as [Hlt|[->|Hgt]]; [|reflexivity|].
      - rewrite Hbetween in H4 by lia. exfalso.
        assert (j' < a + 1 + N.of_nat (N.to_nat (N.of_nat (length rows) - 1 - (a + 1))))
          by lia.
        specialize (H4 H). discriminate.
      - rewrite H3 in Hj by lia. discriminate. }
    simpl. destruct (index_lt rows j) as (r & Hr & _); [lia|].
    rewrite Hr. simpl. rewrite (selectableAt_index _ _ _ Hr), Hj.
    reflexivity.
  - intros Hnone. unfold moveDownRef. fold rows a. rewrite Hlen.
    destruct (N.of_nat (length rows) =? 0) eqn:E0; [reflexivity|].
    apply N.eqb_neq in E0. rewrite sub_small by lia.
    destruct (a <? N.of_nat (length rows) - 1) eqn:Ea; [|reflexivity].
    apply N.ltb_lt in Ea. simpl. rewrite add_small by lia.
    destruct (scanDown_returns rows
                (N.to_nat (N.of_nat (length rows) - 1 - (a + 1))) (a + 1))
      as (j' & Hscan & Hj1 & Hj2); [lia|lia|].
    rewrite Hscan. simpl.
    destruct (index_lt rows j') as (r & Hr & _); [lia|].
    rewrite Hr. simpl. rewrite (selectableAt_index _ _ _ Hr).
    now rewrite Hnone by lia.
Qed.

Lemma moveDownRef_nearest_witness :
  moveDownRef aboveSpacerView = Ret (movedTo 4 aboveSpacerView, None).
Proof.
  assert (Hsmall : N.of_nat (length (RenderedRefs
                                       (renderedRefs aboveSpacerView)))
                   < Uint.modulus) by (vm_compute; reflexivity).
  refine (proj1 (moveDownRef_nearest aboveSpacerView Hsmall) 4 _ _ _).
  - vm_compute. reflexivity.
  - reflexivity.
  - intros m Hlo Hhi. assert (m = 3) as -> by (simpl in Hlo; lia).
    reflexivity.
Defined.

(** X9. With the cursor at most one row past the last row, [moveUpRef]
    moves it to the nearest selectable row above it and requests a
    redraw, or leaves the view as it is when no row above the cursor is
    selectable; with the cursor further past the end it panics. *)
Theorem moveUpRef_nearest (rv : RefView) :
  let rows := RenderedRefs (renderedRefs rv) in
  let a := ActiveRowIndex (viewPos rv) in
  a < Uint.modulus →
  (a ≤ N.of_nat (length rows) →
   (∀ j, j < a →
         selectableAt rows j = true →
         (∀ m, j < m → m < a → selectableAt rows m = false) →
         moveUpRef rv = Ret (movedTo j rv, None))
   ∧ ((∀ j, j < a → selectableAt rows j = false) →
      moveUpRef rv = Ret (rv, None)))
  ∧ (N.of_nat (length rows) < a → moveUpRef rv = Panic).
Proof.
  intros rows a Hsmall. split.
  - intros Hrange.
    assert (Hscan : 0 < a →
              ∃ j', scanUp rows (N.to_nat (a - 1)) = Ret j'
                    ∧ j' ≤ a - 1
                    ∧ (∀ m, j' < m → m < a → selectableAt rows m = false)
                    ∧ (0 < j' → selectableAt rows j' = true)).
    { intros Ha.
      destruct (scanUp_returns rows (N.to_nat (a - 1))) as (j' & Hs & _);
        [lia|].
      exists j'. split; [exact Hs|].
      apply scanUp_spec in Hs as (H1 & H2 & H3); [|lia].
      repeat split; [lia| |exact H3]. intros m Hm1 Hm2. apply H2; lia. }
    split.
    + intros j Hja Hj Hbetween. unfold moveUpRef. fold rows a.
      destruct (a =? 0) eqn:E0; [apply N.eqb_eq in E0; lia|].
      rewrite sub_small by lia.
      destruct Hscan as (j' & -> & H1 & H2 & H3); [lia|].
      assert (j' = j) as ->.
      { destruct (N.lt_trichotomy j' j) as [Hlt|[->|Hgt]]; [|reflexivity|].
        - rewrite H2 in Hj by lia. discriminate.
        - rewrite Hbetween in H3 by lia.
          specialize (H3 ltac:(lia)). discriminate. }
      simpl. destruct (index_lt rows j) as (r & Hr & _); [lia|].
      rewrite Hr. simpl. rewrite (selectableAt_index _ _ _ Hr), Hj.
      reflexivity.
    + intros Hnone. unfold moveUpRef. fold rows a.
      destruct (a =? 0) eqn:E0; [reflexivity|]. apply N.eqb_neq in E0.
      rewrite sub_small by lia.
      destruct Hscan as (j' & -> & H1 & _); [lia|].
      simpl. destruct (index_lt rows j') as (r & Hr & _); [lia|].
      rewrite Hr. simpl. rewrite (selectableAt_index _ _ _ Hr).
      now rewrite Hnone by lia.
  - intros Hout. unfold moveUpRef. fold rows a.
    destruct (a =? 0) eqn:E0; [apply N.eqb_eq in E0; lia|].
    rewrite sub_small by lia.
    destruct (N.to_nat (a - 1)) as [|i] eqn:Ei; cbn [scanUp].
    + simpl. rewrite index_ge; [reflexivity|]. lia.
    + rewrite index_ge; [reflexivity|]. lia.
Qed.

Lemma moveUpRef_nearest_witness :
  moveUpRef belowSpacerView = Ret (movedTo 2 belowSpacerView, None).
Proof.
  assert (Hsmall : ActiveRowIndex (viewPos belowSpacerView) < Uint.modulus)
    by (vm_compute; reflexivity).
  assert (Hrange : ActiveRowIndex (viewPos belowSpacerView)
                   ≤ N.of_nat (length (RenderedRefs
                                         (renderedRefs belowSpacerView))))
    by (vm_compute; discriminate).
  refine (proj1 (proj1 (moveUpRef_nearest belowSpacerView Hsmall) Hrange)
            2 _ _ _).
  - vm_compute. reflexivity.
  - reflexivity.
  - intros m Hlo Hhi. assert (m = 3) as -> by (simpl in Hhi; lia).
    reflexivity.
Defined.

(** * Further properties of the queries and of rendering *)

(** X10. [OnSearchMatch] panics when the match index is not below the
    number of visible rows.  Otherwise it moves the cursor to the match
    exactly when the row there is selectable and leaves the view as it
    is when it is not, so it never puts the cursor on a Spacer or
    Loading row; it changes nothing but the selected index: the view is
    the one it was with that index set, its first visible row and
    column included. *)
Theorem OnSearchMatch_selectable_only (matchLineIndex : N) (rv : RefView) :
  let rows := RenderedRefs (renderedRefs rv) in
  (N.of_nat (length rows) ≤ matchLineIndex →
   OnSearchMatch matchLineIndex rv = Panic)
  ∧ (matchLineIndex < N.of_nat (length rows) →
     ∃ rv', OnSearchMatch matchLineIndex rv = Ret rv'
            ∧ repoData rv' = repoData rv
            ∧ refLists rv' = refLists rv
            ∧ refListeners rv' = refListeners rv
            ∧ active rv' = active rv
            ∧ renderedRefs rv' = renderedRefs rv
            ∧ viewDimension rv' = viewDimension rv
            ∧ viewSearch rv' = viewSearch rv
            ∧ effects rv' = effects rv
            ∧ viewStartRowIndex (viewPos rv')
              = viewStartRowIndex (viewPos rv)
            ∧ viewStartColumn (viewPos rv') = viewStartColumn (viewPos rv)
            ∧ (selectableAt rows matchLineIndex = true →
               rv' = set_viewPos
                       (mkViewPos matchLineIndex
                                  (viewStartRowIndex (viewPos rv))
                                  (viewStartColumn (viewPos rv))) rv
               ∧ ActiveRowIndex (viewPos rv') = matchLineIndex
               ∧ cursorSelectable rv' = true)
            ∧ (selectableAt rows matchLineIndex = false → rv' = rv)).
Proof.
  intros rows. split.
  - intros H. unfold OnSearchMatch. now rewrite index_ge.
  - intros H. unfold OnSearchMatch. fold rows.
    destruct (index_lt rows matchLineIndex H) as (r & Hr & Hlook).
    rewrite Hr. simpl.
    assert (Hsel : selectableAt rows matchLineIndex
                   = isSelectableRenderedRef (renderedRefType r)).
    { unfold selectableAt. now rewrite Hlook. }
    rewrite Hsel.
    destruct (isSelectableRenderedRef (renderedRefType r)) eqn:E.
    + eexists. split; [reflexivity|]. repeat split; try discriminate.
      unfold cursorSelectable, cursorRow. simpl. fold rows.
      now rewrite Hlook.
    + exists rv. repeat split; discriminate.
Qed.

(** X11. [Line] never panics: for an index below [LineNumber] it returns
    the text of the visible row at that index, and for any other index
    the empty string. *)
Theorem Line_total (lineIndex : N) (rv : RefView) :
  let rows := RenderedRefs (renderedRefs rv) in
  LineNumber rv ≤ N.of_nat (length rows)
  ∧ (lineIndex < LineNumber rv →
     ∃ r, rows !! N.to_nat lineIndex = Some r
          ∧ Line lineIndex rv = Ret (value r))
  ∧ (LineNumber rv ≤ lineIndex → Line lineIndex rv = Ret "")
  ∧ (N.of_nat (length rows) < Uint.modulus →
     LineNumber rv = N.of_nat (length rows)).
Proof.
  intros rows. unfold LineNumber, Line. fold rows.
  pose proof (len_le rows) as Hle.
  split; [exact Hle|]. split; [|split].
  - intros H. destruct (index_lt rows lineIndex) as (r & Hr & Hlook); [lia|].
    exists r. split; [exact Hlook|].
    destruct (Uint.len rows <=? lineIndex) eqn:E;
      [apply N.leb_le in E; lia|].
    now rewrite Hr.
  - intros H. apply N.leb_le in H. now rewrite H.
  - apply wrap_small.
Qed.

Section RenderFacts.

Implicit Types (rv : RefView) (win : RenderWindow).

Lemma renderRows_accepting win startColumn rows renderedRefNum rest
    winRowIndex refIndex :
  (∀ call, answer win call = None) →
  rows < Uint.modulus →
  renderedRefNum < Uint.modulus →
  renderedRefNum ≤ N.of_nat (length rest) + refIndex →
  renderRows win startColumn rows renderedRefNum rest winRowIndex refIndex
  = Ret (rowCalls startColumn winRowIndex
           (take (N.to_nat (N.min (rows - winRowIndex)
                                  (renderedRefNum - refIndex))) rest),
         None).
Proof.
  intros Hwin Hrows Hnum. revert winRowIndex refIndex.
  induction rest as [|r rest IH]; intros w i Hrest; simpl.
  - destruct (w <? rows) eqn:Ew; simpl; [|now rewrite take_nil].
    destruct (i <? renderedRefNum) eqn:Ei; [|now rewrite take_nil].
    apply N.ltb_lt in Ei. simpl in Hrest. lia.
  - destruct (w <? rows) eqn:Ew; simpl.
    2:{ apply N.ltb_ge in Ew.
        replace (N.to_nat (N.min (rows - w) (renderedRefNum - i)))
          with 0%nat by lia.
        reflexivity. }
    destruct (i <? renderedRefNum) eqn:Ei.
    2:{ apply N.ltb_ge in Ei.
        replace (N.to_nat (N.min (rows - w) (renderedRefNum - i)))
          with 0%nat by lia.
        reflexivity. }
    apply N.ltb_lt in Ew, Ei. rewrite Hwin.
    rewrite !add_small by lia. rewrite IH by (simpl in Hrest; lia).
    simpl.
    replace (N.to_nat (N.min (rows - w) (renderedRefNum - i)))
      with (S (N.to_nat (N.min (rows - (w + 1))
                               (renderedRefNum - (i + 1))))) by lia.
    simpl. unfold rowCalls. rewrite imap_cons. simpl.
    rewrite N.add_0_r. unfold themeOf at 2. do 3 f_equal.
    apply imap_ext. intros k x _. simpl. f_equal. lia.
Qed.


End RenderFacts.



(** X13. On a window that accepts every call, a [Render] that returns
    first draws the visible rows from the first row of the view on, in
    order, on the window rows 1, 2, ..., as many as there are but no more
    than the window's row count less 2 (a [uint] difference), each with
    the theme component of its kind and with its text; then it sets the
    selected row, draws the border and sets the title "Refs". *)
Theorem Render_rows_drawn
    (win : RenderWindow) (rv rv' : RefView) (calls : list WinCall)
    (err : option error) :
  (∀ call, answer win call = None) →
  Render win rv = Ret (rv', calls, err) →
  let rows := RenderedRefs (renderedRefs rv) in
  let viewRows := Uint.sub (Rows win) 2 in
  let start := ViewStartRowIndex (viewPos rv') in
  ∃ rest,
    calls
    = rowCalls (ViewStartColumn (viewPos rv')) 0
               (take (N.to_nat (N.min viewRows (Uint.len rows - start)))
                     (drop (N.to_nat start) rows))
      ++ SetSelectedRow (Uint.add (SelectedRowIndex (viewPos rv')) 1)
                        (active rv)
         :: DrawBorder :: SetTitle CmpRefviewTitle "Refs" :: rest.
Proof.
  intros Hwin. unfold Render.
  rewrite renderRows_accepting; try assumption.
  - simpl. rewrite !Hwin.
    destruct (index _ _) as [sel|]; [|discriminate]. simpl.
    assert (Hfoot : (renderFooter win
                       (set_viewPos
                          (DetermineViewStartRow (Uint.sub (Rows win) 2)
                             (Uint.len (RenderedRefs (renderedRefs rv)))
                             (viewPos rv))
                          (set_viewDimension (ViewDimensions win) rv))
                       sel).2 = None).
    { unfold renderFooter. destruct (negb _); [apply Hwin|reflexivity]. }
    destruct (renderFooter _ _ _) as [fcalls ferr]. simpl in Hfoot.
    subst ferr.
    destruct (_ && _); intros [= <- <- <-]; simpl;
      rewrite N.sub_0_r, <- !app_assoc; simpl; eauto.
  - apply wrap_lt.
  - apply len_lt.
  - pose proof (len_le (RenderedRefs (renderedRefs rv))).
    rewrite length_drop. simpl. lia.
Qed.

Lemma Render_rows_drawn_witness :
  ∃ rest,
    renderedExample.1.2
    = rowCalls 0 0 (RenderedRefs (renderedRefs regeneratedView))
      ++ SetSelectedRow 1 false
         :: DrawBorder :: SetTitle CmpRefviewTitle "Refs" :: rest.
Proof.
  apply (Render_rows_drawn plainWindow regeneratedView renderedExample.1.1
           renderedExample.1.2 renderedExample.2).
  - reflexivity.
  - vm_compute. reflexivity.
Defined.

(** * Further properties of the commands *)

Section CommandFacts.

Implicit Types (rv : RefView) (win : RenderWindow).

(** On a window that accepts every call, [Render] panics when the cursor
    is not on a visible row. *)
Lemma Render_cursor_out_of_range win rv :
  (∀ call, answer win call = None) →
  N.of_nat (length (RenderedRefs (renderedRefs rv)))
    ≤ ActiveRowIndex (viewPos rv) →
  Render win rv = Panic.
Proof.
  intros Hwin Hout. unfold Render.
  rewrite renderRows_accepting; try assumption.
  - simpl. rewrite !Hwin. now rewrite index_ge.
  - apply wrap_lt.
  - apply len_lt.
  - pose proof (len_le (RenderedRefs (renderedRefs rv))).
    rewrite length_drop. simpl. lia.
Qed.

Lemma filter_none (rows : list RenderedRef) (f : option RefFilter) :
  (∀ r, passes f r = false) → filter (λ r, passes f r) rows = [].
Proof.
  intros H. induction rows as [|r rows IH]; [reflexivity|].
  rewrite filter_cons_False; [exact IH|]. now rewrite H.
Qed.

Lemma scanUp_empty (i : nat) :
  (scanUp [] i ≫= λ j, index (A:=RenderedRef) [] j ≫= λ _, Ret tt) = Panic.
Proof. destruct i; reflexivity. Qed.

End CommandFacts.

(** X14. When the compiled filter matches none of the rows, the
    add-filter command succeeds and leaves no row visible, and it does
    not touch the cursor: whatever the selected index, the next
    [selectRef] panics, and so does the next [Render] on a window that
    accepts its calls, and the next [moveUpRef] unless the index is 0. *)
Theorem addRefFilter_matching_nothing
    (CreateRefFilter : string → option RefFilter * list error)
    (query : string) (rest : list Arg) (f : RefFilter) (rv : RefView) :
  CreateRefFilter query = (Some f, []) →
  (∀ r, MatchesFilter f r = false) →
  ∃ rv' status,
    addRefFilter CreateRefFilter (ArgString query :: rest) rv
    = Ret (rv', None)
    ∧ effects rv' = effects rv ++ [ReportStatus status]
    ∧ RenderedRefs (renderedRefs rv') = []
    ∧ viewPos rv' = viewPos rv
    ∧ selectRef rv' = Panic
    ∧ (∀ win, (∀ call, answer win call = None) → Render win rv' = Panic)
    ∧ (ActiveRowIndex (viewPos rv) ≠ 0 → moveUpRef rv' = Panic)
    ∧ moveDownRef rv' = Ret (rv', None).
Proof.
  intros Hcompile Hnone.
  assert (Hvisible : RenderedRefs (AddFilter (renderedRefs rv) (Some f)) = []).
  { rewrite RenderedRefs_AddFilter. apply filter_none. intros r.
    unfold passes. simpl. now rewrite Hnone. }
  assert (Hrun : ∃ status,
            addRefFilter CreateRefFilter (ArgString query :: rest) rv
            = Ret (emit (ReportStatus status)
                     (set_renderedRefs (AddFilter (renderedRefs rv) (Some f))
                        rv), None)).
  { unfold addRefFilter. rewrite Hcompile. simpl.
    destruct (_ <? _)%nat; eauto. }
  destruct Hrun as [status Hrun].
  eexists _, status. split; [exact Hrun|]. simpl.
  split; [reflexivity|]. split; [exact Hvisible|]. split; [reflexivity|].
  split; [|split; [|split]].
  - unfold selectRef. simpl. rewrite Hvisible. reflexivity.
  - intros win Hwin. apply Render_cursor_out_of_range; [exact Hwin|].
    simpl. rewrite Hvisible. simpl. lia.
  - intros Hne. unfold moveUpRef. simpl. rewrite Hvisible.
    destruct (ActiveRowIndex (viewPos rv) =? 0) eqn:E;
      [apply N.eqb_eq in E; contradiction|].
    destruct (N.to_nat _) as [|i]; reflexivity.
  - unfold moveDownRef. simpl. rewrite Hvisible. reflexivity.
Qed.

Lemma addRefFilter_matching_nothing_witness :
  ∃ rv' status,
    addRefFilter compileMatchNothing [ArgString "nothing"] regeneratedView
    = Ret (rv', None)
    ∧ effects rv' = effects regeneratedView ++ [ReportStatus status]
    ∧ RenderedRefs (renderedRefs rv') = []
    ∧ viewPos rv' = viewPos regeneratedView
    ∧ selectRef rv' = Panic
    ∧ (∀ win, (∀ call, answer win call = None) → Render win rv' = Panic)
    ∧ (ActiveRowIndex (viewPos regeneratedView) ≠ 0 → moveUpRef rv' = Panic)
    ∧ moveDownRef rv' = Ret (rv', None).
Proof.
  apply (addRefFilter_matching_nothing compileMatchNothing "nothing" []
           matchNothing regeneratedView); reflexivity.
Defined.

(** X15. The remove-filter command never fails.  With a filter installed
    it removes the last one and reports "Removed ref filter"; with none
    installed it leaves the chain as it is and reports "No ref filter
    applied to remove".  It touches neither the cursor nor the groups. *)
Theorem removeRefFilter_outcomes (rv : RefView) :
  ∃ rv',
    removeRefFilter rv = Ret (rv', None)
    ∧ renderedRefs rv' = (RemoveChild (renderedRefs rv)).1
    ∧ depth (renderedRefs rv') = pred (depth (renderedRefs rv))
    ∧ effects rv'
      = effects rv
        ++ [ReportStatus
              (if decide (0 < depth (renderedRefs rv))%nat
               then "Removed ref filter"
               else "No ref filter applied to remove")]
    ∧ (depth (renderedRefs rv) = 0%nat → renderedRefs rv' = renderedRefs rv)
    ∧ viewPos rv' = viewPos rv
    ∧ refLists rv' = refLists rv.
Proof.
  unfold removeRefFilter.
  pose proof (removed_RemoveChild (renderedRefs rv)) as Hremoved.
  pose proof (depth_RemoveChild (renderedRefs rv)) as Hdepth.
  destruct (RemoveChild (renderedRefs rv)) as [chain removed] eqn:E.
  simpl in *. subst removed.
  assert (Hzero : depth (renderedRefs rv) = 0%nat → chain = renderedRefs rv).
  { intros H0. destruct (renderedRefs rv) as [[c|] rs f]; [discriminate|].
    simpl in E. now injection E as <-. }
  destruct (decide (0 < depth (renderedRefs rv))%nat) as [Hpos|Hzero'].
  - rewrite bool_decide_eq_true_2 by exact Hpos.
    eexists. split; [reflexivity|]. simpl. repeat split; auto.
  - rewrite bool_decide_eq_false_2 by exact Hzero'.
    eexists. split; [reflexivity|]. simpl. repeat split; auto.
Qed.

(** X16. A successful add-filter command followed by the remove-filter
    command gives back the chain as it was; the cursor and the groups are
    untouched and the two statuses are reported in order. *)
Theorem addRefFilter_removeRefFilter_round_trip
    (CreateRefFilter : string → option RefFilter * list error)
    (query : string) (rest : list Arg) (rv : RefView) :
  (CreateRefFilter query).2 = [] →
  ∃ rv1 rv2 status,
    addRefFilter CreateRefFilter (ArgString query :: rest) rv
    = Ret (rv1, None)
    ∧ removeRefFilter rv1 = Ret (rv2, None)
    ∧ rv2 = add_effects [ReportStatus status;
                         ReportStatus "Removed ref filter"] rv.
Proof.
  intros Hok. unfold addRefFilter.
  destruct (CreateRefFilter query) as [refFilter errors]. simpl in Hok.
  subst errors. simpl.
  assert (Hremove : ∀ status,
            removeRefFilter
              (emit (ReportStatus status)
                 (set_renderedRefs
                    (AddChild (renderedRefs rv)
                       (newFilteredRenderedRefList refFilter)) rv))
            = Ret (add_effects [ReportStatus status;
                                ReportStatus "Removed ref filter"] rv, None)).
  { intros status. unfold removeRefFilter. simpl.
    rewrite RemoveChild_AddChild by reflexivity.
    unfold add_effects, emit. simpl. now rewrite <- app_assoc. }
  destruct (_ <? _)%nat; eexists _, _, _;
    (split; [reflexivity|]); (split; [apply Hremove|reflexivity]).
Qed.

Lemma addRefFilter_removeRefFilter_round_trip_witness :
  ∃ rv1 rv2 status,
    addRefFilter compileOnlyLocalBranches [ArgString "local"] regeneratedView
    = Ret (rv1, None)
    ∧ removeRefFilter rv1 = Ret (rv2, None)
    ∧ rv2 = add_effects [ReportStatus status;
                         ReportStatus "Removed ref filter"] regeneratedView.
Proof.
  apply (addRefFilter_removeRefFilter_round_trip compileOnlyLocalBranches
           "local" [] regeneratedView).
  reflexivity.
Defined.

(** * Further properties of the generators *)

Section Numbering.

Implicit Types (rv : RefView) (r : RenderedRef).

Lemma branchRows_numbers kind first branches r :
  first + N.of_nat (length branches) ≤ Uint.modulus →
  r ∈ branchRows kind first branches →
  renderedRefType r = kind
  ∧ first ≤ refNum r < first + N.of_nat (length branches).
Proof.
  intros Hsmall Hin. unfold branchRows in Hin.
  apply elem_of_lookup_imap in Hin as (i & b & -> & Hb).
  apply lookup_lt_Some in Hb. simpl. split; [reflexivity|].
  rewrite wrap_small by lia. lia.
Qed.

Lemma tagRows_numbers tags r :
  N.of_nat (length tags) < Uint.modulus →
  r ∈ tagRows 0 tags →
  renderedRefType r = RvTag ∧ 1 ≤ refNum r ≤ N.of_nat (length tags).
Proof.
  intros Hsmall Hin. unfold tagRows in Hin.
  apply elem_of_lookup_imap in Hin as (i & b & -> & Hb).
  apply lookup_lt_Some in Hb. simpl. split; [reflexivity|].
  rewrite wrap_small by lia. lia.
Qed.

Lemma generatorRows_numbers rv g rows r :
  countable rv →
  generatorRows rv g = Ret rows → r ∈ rows → numbered rv r.
Proof.
  intros (Hlocal & Hremote & Htags) Hrows Hin. unfold generatorRows in Hrows.
  assert (Hload : ∀ r', r' ∈ [loadingRow] → numbered rv r').
  { intros r' ->%list_elem_of_singleton. reflexivity. }
  destruct (renderer g).
  - destruct (branchesLoading _); [injection Hrows as <-; auto|].
    destruct (decide _).
    + destruct (headBranch (repoData rv)) eqn:Hhead.
      * injection Hrows as <-.
        apply branchRows_numbers in Hin as [Hkind Hnum]; [|lia].
        unfold numbered. rewrite Hkind, Hhead. lia.
      * destruct (getDetachedHeadDisplayValue _); [|discriminate].
        injection Hrows as <-. apply elem_of_cons in Hin as [->|Hin].
        -- unfold numbered. simpl. rewrite Hhead. lia.
        -- apply branchRows_numbers in Hin as [Hkind Hnum]; [|lia].
           unfold numbered. rewrite Hkind, Hhead. lia.
    + injection Hrows as <-.
      apply branchRows_numbers in Hin as [Hkind Hnum]; [|lia].
      unfold numbered. rewrite Hkind. lia.
  - destruct (tagsLoading _); [injection Hrows as <-; auto|].
    injection Hrows as <-.
    apply tagRows_numbers in Hin as [Hkind Hnum]; [|lia].
    unfold numbered. rewrite Hkind. lia.
Qed.

Lemma groupRows_numbers rv k groups rows r :
  countable rv →
  Forall (λ g, isGroupHeader (refList_renderedRefType g) = true) groups →
  groupRows rv k groups = Ret rows → r ∈ rows → numbered rv r.
Proof.
  intros Hcount Hgroups. revert k rows.
  induction Hgroups as [|g gs Hg _ IH]; intros k rows Hrows Hin.
  - injection Hrows as <-. now apply elem_of_nil in Hin.
  - apply groupRows_cons in Hrows as (body & rest & _ & Hbody & Hrest & ->).
    rewrite !elem_of_app in Hin.
    destruct Hin as [Hin|[Hin|[Hin|Hin]]].
    + apply list_elem_of_singleton in Hin as ->.
      unfold numbered. simpl.
      destruct (refList_renderedRefType g); try discriminate; reflexivity.
    + destruct (expanded g).
      * eapply generatorRows_numbers; eassumption.
      * injection Hbody as <-. now apply elem_of_nil in Hin.
    + destruct gs; [now apply elem_of_nil in Hin|].
      apply list_elem_of_singleton in Hin as ->. reflexivity.
    + eapply IH; eassumption.
Qed.

End Numbering.

(** X17. After a regeneration every visible entry row carries a number
    between 1 and the size of its collection, the size the footer prints
    after "of"; the one exception is the local branches while HEAD is
    detached, where the synthetic row takes number 1 and the numbers run
    up to the size plus one.  Every other row carries the number 0.
    (The groups are of the header kinds and the collections are small
    enough for the counters.) *)
Theorem regenerated_entry_numbers (rv rv' : RefView) (r : RenderedRef) :
  generateRenderedRefs rv = Ret rv' →
  Forall (λ g, isGroupHeader (refList_renderedRefType g) = true)
         (refLists rv) →
  countable rv →
  r ∈ RenderedRefs (renderedRefs rv') →
  numbered rv' r.
Proof.
  intros Hgen Hgroups Hcount Hin.
  rewrite generateRenderedRefs_rows in Hgen. unfold regeneratedRows in Hgen.
  destruct (groupRows rv 0 (refLists rv)) as [rows|] eqn:Hrows;
    [|discriminate].
  injection Hgen as <-. simpl in Hin.
  rewrite RenderedRefs_extend in Hin.
  rewrite (RenderedRefs_allEmpty _ (allEmpty_Clear _)) in Hin.
  rewrite app_nil_l in Hin. apply list_elem_of_filter in Hin as [_ Hin].
  exact (groupRows_numbers rv 0 (refLists rv) rows r Hcount Hgroups Hrows Hin).
Qed.

Lemma regenerated_entry_numbers_witness :
  numbered detachedRegeneratedView
    (entryRow RvLocalBranch "dev" (Some (mkOid "1111111222222233333")) 3).
Proof.
  apply (regenerated_entry_numbers detachedView).
  - vm_compute. reflexivity.
  - repeat constructor.
  - repeat split.
  - apply (list_elem_of_lookup_2 _ 3%nat). reflexivity.
Defined.

(** * Further properties of the selection *)

Section ToggleTwice.

Implicit Types (rv : RefView) (rows : list RenderedRef).

(** A generated row with a group pointer is the header of that group. *)
Lemma groupRows_pointer rv k groups rows r i :
  groupRows rv k groups = Ret rows →
  r ∈ rows → refList r = Some i →
  (k ≤ i)%nat ∧ ∃ g, groups !! (i - k)%nat = Some g ∧ r = headerRow i g.
Proof.
  revert k rows. induction groups as [|g gs IH]; intros k rows Hrows Hin Hi.
  - injection Hrows as <-. now apply elem_of_nil in Hin.
  - apply groupRows_cons in Hrows as (body & rest & Hbody & _ & Hrest & ->).
    rewrite !elem_of_app in Hin.
    destruct Hin as [Hin|[Hin|[Hin|Hin]]].
    + apply list_elem_of_singleton in Hin as ->. simpl in Hi.
      injection Hi as <-. split; [lia|]. exists g.
      now rewrite Nat.sub_diag.
    + rewrite Forall_forall in Hbody. destruct (Hbody r Hin) as [Hnone _].
      congruence.
    + destruct gs; [now apply elem_of_nil in Hin|].
      apply list_elem_of_singleton in Hin as ->. discriminate.
    + destruct (IH _ _ Hrest Hin Hi) as (Hle & g' & Hg' & ->).
      split; [lia|]. exists g'. split; [|reflexivity].
      replace (i - k)%nat with (S (i - S k)) by lia. exact Hg'.
Qed.

Lemma toggle_toggle (g : refList_t) : toggle (toggle g) = g.
Proof. destruct g. unfold toggle. simpl. now rewrite negb_involutive. Qed.

End ToggleTwice.

(** X18. In a view with no filter installed whose rows are exactly the
    rows a regeneration would produce from its groups and its repository
    data as they are now, activating a group header twice gives back the
    view as it was: the same groups, the same rows and the same cursor;
    all that is left of the two activations are the two requests to
    redraw.  (The detached-head text can be built, so that no
    regeneration panics.  On stale rows the second activation may find
    the cursor on another row: see [selectRef_on_stale_rows].) *)
Theorem selectRef_twice_on_header
    (rv : RefView) (rows : list RenderedRef) (r : RenderedRef) (i : nat) :
  renderedRefs rv = RenderedRefList None rows None →
  regeneratedRows rv = Ret rows →
  headDisplayable rv →
  rows !! N.to_nat (ActiveRowIndex (viewPos rv)) = Some r →
  isGroupHeader (renderedRefType r) = true →
  refList r = Some i →
  ∃ rv1 g,
    refLists rv !! i = Some g
    ∧ selectRef rv = Ret (rv1, None)
    ∧ refLists rv1 = <[i := toggle g]> (refLists rv)
    ∧ selectRef rv1
      = Ret (add_effects [UpdateDisplay; UpdateDisplay] rv, None).
Proof.
  intros Hchain Hrows Hhead Hrow Hheader Hi.
  destruct (groupRows_pointer rv 0 (refLists rv) rows r i Hrows
              (list_elem_of_lookup_2 _ _ _ Hrow) Hi) as (_ & g & Hg & Hr).
  rewrite Nat.sub_0_r in Hg.
  set (rv_t := set_refLists (<[i := toggle g]> (refLists rv)) rv).
  destruct (groupRows_returns rv_t 0 (refLists rv_t) Hhead) as [rows' Hrows'].
  pose proof (toggle_keeps_header rv rows _ r i g rows' Hrows Hrow Hi Hg
                Hrows') as Hrow'.
  assert (Hvisible : RenderedRefs (renderedRefs rv) = rows).
  { rewrite Hchain. reflexivity. }
  assert (Hfirst : selectRef rv
                   = Ret (emit UpdateDisplay
                            (set_renderedRefs
                               (RenderedRefList None rows' None) rv_t),
                          None)).
  { rewrite (selectRef_header rv r i g); try assumption;
      [|now rewrite Hvisible].
    fold rv_t. rewrite generateRenderedRefs_rows.
    unfold regeneratedRows at 1. rewrite Hrows'. simpl.
    rewrite Hchain. simpl. now rewrite filter_passes_None. }
  eexists _, g. split; [exact Hg|]. split; [exact Hfirst|].
  split; [reflexivity|].
  set (rv1 := emit UpdateDisplay _).
  pose proof (lookup_lt_Some _ _ _ Hg) as Hlt.
  rewrite (selectRef_header rv1 (headerRow i (toggle g)) i (toggle g)).
  - cbn [refLists rv1 emit set_renderedRefs rv_t set_refLists].
    rewrite list_insert_insert_eq, toggle_toggle, (list_insert_id _ _ _ Hg).
    rewrite generateRenderedRefs_rows. unfold regeneratedRows at 1.
    cbn [refLists set_refLists].
    rewrite (groupRows_data _ rv) by reflexivity.
    unfold regeneratedRows in Hrows. rewrite Hrows. simpl.
    rewrite filter_passes_None. f_equal. f_equal.
    unfold add_effects, set_renderedRefs, set_refLists. simpl.
    unfold emit. simpl. now rewrite <- app_assoc, <- Hchain.
  - exact Hrow'.
  - simpl. subst r. exact Hheader.
  - reflexivity.
  - simpl. now apply list_lookup_insert_eq.
Qed.

Lemma selectRef_twice_on_header_witness :
  ∃ rv1 g,
    refLists regeneratedView !! 0%nat = Some g
    ∧ selectRef regeneratedView = Ret (rv1, None)
    ∧ refLists rv1 = <[0%nat := toggle g]> (refLists regeneratedView)
    ∧ selectRef rv1
      = Ret (add_effects [UpdateDisplay; UpdateDisplay] regeneratedView,
             None).
Proof.
  apply (selectRef_twice_on_header regeneratedView
           (RenderedRefs (renderedRefs regeneratedView))
           (headerRow 0 localGroup) 0).
  - reflexivity.
  - reflexivity.
  - right. left. eexists. reflexivity.
  - reflexivity.
  - reflexivity.
  - reflexivity.
Defined.

(** * Further properties of the page movements and of the dispatch *)

Section PageMoves.

Implicit Types (rv : RefView).

(** A movement that leaves the view as it is does so however often it is
    run. *)
Lemma repeatMove_fixed n move rv :
  move rv = Ret (rv, None) → repeatMove n move rv = Ret (rv, None).
Proof.
  intros Hfix. induction n as [|n IH]; [reflexivity|].
  simpl. rewrite Hfix. simpl. exact IH.
Qed.

Lemma moveUpRefPage_loop_repeat pageSize rv :
  moveUpRefPage_loop pageSize rv = repeatMove pageSize moveUpRef rv.
Proof.
  revert rv. induction pageSize as [|p IH]; intros rv; [reflexivity|].
  cbn [moveUpRefPage_loop repeatMove].
  destruct (0 <? ActiveRowIndex (viewPos rv)) eqn:E.
  - destruct (moveUpRef rv) as [[rv' [err|]]|]; simpl;
      [reflexivity|apply IH|reflexivity].
  - apply N.ltb_ge in E.
    assert (Hfix : moveUpRef rv = Ret (rv, None)).
    { unfold moveUpRef.
      replace (ActiveRowIndex (viewPos rv)) with 0 by lia. reflexivity. }
    rewrite Hfix. simpl. symmetry. now apply repeatMove_fixed.
Qed.

(** Where the loop of [moveDownRefPage] stops, a step down would have
    done nothing. *)
Lemma moveDownRef_at_end rv :
  (Uint.add (ActiveRowIndex (viewPos rv)) 1
   <? Uint.len (RenderedRefs (renderedRefs rv))) = false →
  moveDownRef rv = Ret (rv, None).
Proof.
  intros E. apply N.ltb_ge in E. unfold moveDownRef.
  set (rows := RenderedRefs (renderedRefs rv)) in *.
  set (a := ActiveRowIndex (viewPos rv)) in *.
  destruct (Uint.len rows =? 0) eqn:E0; [reflexivity|].
  apply N.eqb_neq in E0. simpl.
  pose proof (len_lt rows) as Hlt.
  rewrite sub_small by lia.
  assert (Ha : (a <? Uint.len rows - 1) = false).
  { apply N.ltb_ge.
    destruct (decide (a + 1 < Uint.modulus)) as [Hs|Hs].
    - rewrite add_small in E by exact Hs. lia.
    - lia. }
  now rewrite Ha.
Qed.

Lemma moveDownRef_rows rv rv' err :
  moveDownRef rv = Ret (rv', err) → renderedRefs rv' = renderedRefs rv.
Proof.
  destruct (moveDownRef_step rv) as (rv1 & -> & Hrows & _).
  now intros [= <- _].
Qed.

Lemma moveDownRefPage_loop_repeat pageSize rv :
  moveDownRefPage_loop (Uint.len (RenderedRefs (renderedRefs rv))) pageSize rv
  = repeatMove pageSize moveDownRef rv.
Proof.
  revert rv. induction pageSize as [|p IH]; intros rv; [reflexivity|].
  cbn [moveDownRefPage_loop repeatMove].
  destruct (_ <? _) eqn:E.
  - destruct (moveDownRef rv) as [[rv' [err|]]|] eqn:Hstep; simpl;
      [reflexivity| |reflexivity].
    rewrite <- IH. now rewrite (moveDownRef_rows _ _ _ Hstep).
  - rewrite (moveDownRef_at_end rv E). simpl. symmetry.
    apply repeatMove_fixed, moveDownRef_at_end, E.
Qed.

End PageMoves.

(** X19. A page movement is the one-row movement run page-size times (the
    height of the view less two), stopping at the first error: the tests
    with which the two page loops leave early only skip runs that would
    have changed nothing. *)
Theorem page_moves_repeat_steps (rv : RefView) :
  let pageSize := N.to_nat (Uint.sub (rows (viewDimension rv)) 2) in
  moveUpRefPage rv = repeatMove pageSize moveUpRef rv
  ∧ moveDownRefPage rv = repeatMove pageSize moveDownRef rv.
Proof.
  split.
  - apply moveUpRefPage_loop_repeat.
  - apply moveDownRefPage_loop_repeat.
Qed.

Section MovementFrame.

Implicit Types (rv : RefView).

Lemma onlyCursorMoved_refl rv : onlyCursorMoved rv rv.
Proof.
  repeat split. exists 0%nat. simpl. now rewrite app_nil_r.
Qed.

Lemma onlyCursorMoved_viewPos rv p :
  onlyCursorMoved rv (set_viewPos p rv).
Proof.
  repeat split. exists 0%nat. simpl. now rewrite app_nil_r.
Qed.

Lemma onlyCursorMoved_redraw rv p :
  onlyCursorMoved rv (emit UpdateDisplay (set_viewPos p rv)).
Proof. repeat split. now exists 1%nat. Qed.

Lemma onlyCursorMoved_trans rv1 rv2 rv3 :
  onlyCursorMoved rv1 rv2 → onlyCursorMoved rv2 rv3 →
  onlyCursorMoved rv1 rv3.
Proof.
  intros (? & ? & ? & ? & ? & ? & ? & n & Hn)
         (? & ? & ? & ? & ? & ? & ? & m & Hm).
  repeat split; try congruence.
  exists (n + m)%nat. rewrite Hm, Hn, <- app_assoc.
  now rewrite replicate_add.
Qed.

Lemma moveUpRef_frame rv rv' err :
  moveUpRef rv = Ret (rv', err) → err = None ∧ onlyCursorMoved rv rv'.
Proof.
  unfold moveUpRef.
  destruct (ActiveRowIndex (viewPos rv) =? 0).
  { intros [= <- <-]. split; [reflexivity|apply onlyCursorMoved_refl]. }
  destruct (scanUp _ _) as [i|]; [|discriminate]. simpl.
  destruct (index _ i) as [r|]; [|discriminate]. simpl.
  destruct (isSelectableRenderedRef _); intros [= <- <-];
    (split; [reflexivity|]);
    [apply onlyCursorMoved_redraw|apply onlyCursorMoved_refl].
Qed.

Lemma moveDownRef_frame rv rv' err :
  moveDownRef rv = Ret (rv', err) → err = None ∧ onlyCursorMoved rv rv'.
Proof.
  unfold moveDownRef.
  destruct (_ || _).
  { intros [= <- <-]. split; [reflexivity|apply onlyCursorMoved_refl]. }
  destruct (scanDown _ _ _) as [i|]; [|discriminate]. simpl.
  destruct (index _ i) as [r|]; [|discriminate]. simpl.
  destruct (isSelectableRenderedRef _); intros [= <- <-];
    (split; [reflexivity|]);
    [apply onlyCursorMoved_redraw|apply onlyCursorMoved_refl].
Qed.

Lemma repeatMove_frame n move rv rv' err :
  (∀ rv1 rv2 e, move rv1 = Ret (rv2, e) →
                e = None ∧ onlyCursorMoved rv1 rv2) →
  repeatMove n move rv = Ret (rv', err) →
  err = None ∧ onlyCursorMoved rv rv'.
Proof.
  intros Hmove. revert rv. induction n as [|n IH]; intros rv; simpl.
  - intros [= <- <-]. split; [reflexivity|apply onlyCursorMoved_refl].
  - destruct (move rv) as [[rv1 e]|] eqn:Hstep; [|discriminate].
    destruct (Hmove _ _ _ Hstep) as [-> Hframe]. simpl. intros Hrest.
    destruct (IH _ Hrest) as [-> Hframe']. split; [reflexivity|].
    eapply onlyCursorMoved_trans; eassumption.
Qed.

End MovementFrame.

(** X20. Whatever [HandleAction] does for one of the eight actions that
    move the cursor or scroll the view, when it returns it returns no
    error, and it has changed nothing but the cursor: the repository
    data, the groups, the listeners, the chain of rows, the dimensions
    and the search state are as before, no listener has been notified
    and no status reported; all it has sent are requests to redraw. *)
Theorem HandleAction_movements_frame
    (CreateRefFilter : string → option RefFilter * list error)
    (MovePageRight : N → ViewPos → ViewPos)
    (MovePageLeft : N → ViewPos → ViewPos * bool)
    (searchHandleAction : Action → RefView → outcome (RefView * option error))
    (action : Action) (rv rv' : RefView) (err : option error) :
  movementAction (Action_ActionType action) = true →
  HandleAction CreateRefFilter MovePageRight MovePageLeft searchHandleAction
               action rv
  = Ret (rv', err) →
  err = None ∧ onlyCursorMoved rv rv'.
Proof.
  intros Hmove. unfold HandleAction.
  destruct (Action_ActionType action); try discriminate; clear Hmove.
  - apply moveUpRef_frame.
  - apply moveDownRef_frame.
  - unfold moveUpRefPage. rewrite moveUpRefPage_loop_repeat.
    apply repeatMove_frame. exact moveUpRef_frame.
  - unfold moveDownRefPage. rewrite moveDownRefPage_loop_repeat.
    apply repeatMove_frame. exact moveDownRef_frame.
  - unfold scrollRefViewRight. intros [= <- <-].
    split; [reflexivity|apply onlyCursorMoved_redraw].
  - unfold scrollRefViewLeft.
    destruct (MovePageLeft _ _) as [p [|]]; intros [= <- <-];
      (split; [reflexivity|]);
      [apply onlyCursorMoved_redraw|apply onlyCursorMoved_viewPos].
  - unfold moveToFirstRef.
    destruct (MoveToFirstLine _) as [p [|]]; intros [= <- <-];
      (split; [reflexivity|]);
      [apply onlyCursorMoved_redraw|apply onlyCursorMoved_viewPos].
  - unfold moveToLastRef.
    destruct (MoveToLastLine _ _) as [p [|]]; intros [= <- <-];
      (split; [reflexivity|]);
      [apply onlyCursorMoved_redraw|apply onlyCursorMoved_viewPos].
Qed.

Lemma HandleAction_movements_frame_witness :
  pagedDownExample.2 = None
  ∧ onlyCursorMoved renderedExample.1.1 pagedDownExample.1.
Proof.
  apply (HandleAction_movements_frame compileMatchNothing (λ _ p, p)
           (λ _ p, (p, false)) idleSearch pageDownAction).
  - reflexivity.
  - vm_compute. reflexivity.
Defined.

Example paged_down_cursor :
  ActiveRowIndex (viewPos pagedDownExample.1) = 6
  ∧ effects pagedDownExample.1
    = [UpdateDisplay; UpdateDisplay; UpdateDisplay; UpdateDisplay].
Proof. vm_compute. split; reflexivity. Qed.

(** * Further properties of the creation of the view and of its listeners *)

Section Listeners.

Implicit Types (rv : RefView) (listeners : list RefListener).

Lemma notifyFrom_app k listeners1 listeners2 refName oid rv :
  notifyFrom k (listeners1 ++ listeners2) refName oid rv
  = match notifyFrom k listeners1 refName oid rv with
    | (rv1, Some e) => (rv1, Some e)
    | (rv1, None) =>
        notifyFrom (k + length listeners1) listeners2 refName oid rv1
    end.
Proof.
  revert k rv. induction listeners1 as [|l ls IH]; intros k rv.
  - simpl. now rewrite Nat.add_0_r.
  - cbn [app notifyFrom length].
    destruct (OnRefSelect l refName oid); [reflexivity|].
    rewrite IH. now replace (S k + length ls)%nat with (k + S (length ls))%nat
      by lia.
Qed.

Lemma notifyFrom_registered k listeners refName oid l rv :
  notifyFrom k listeners refName oid (RegisterRefListener l rv)
  = (RegisterRefListener l (notifyFrom k listeners refName oid rv).1,
     (notifyFrom k listeners refName oid rv).2).
Proof.
  revert k rv. induction listeners as [|l0 ls IH]; intros k rv;
    [reflexivity|].
  cbn [notifyFrom]. destruct (OnRefSelect l0 refName oid); [reflexivity|].
  rewrite <- IH. reflexivity.
Qed.

End Listeners.

(** X21. A listener is notified after every listener registered before
    it, and only when none of them has returned an error: registering
    one more listener leaves what the earlier ones receive as it is; if
    one of them fails, the new listener is not called and that error is
    returned; otherwise the new listener is called last and its answer
    is the result. *)
Theorem RegisterRefListener_notified_last
    (l : RefListener) (refName : string) (oid : option Oid) (rv : RefView) :
  notifyRefListeners refName oid (RegisterRefListener l rv)
  = match notifyRefListeners refName oid rv with
    | (rv1, Some e) => (RegisterRefListener l rv1, Some e)
    | (rv1, None) =>
        (emit (Notified (length (refListeners rv)) refName oid)
              (RegisterRefListener l rv1),
         OnRefSelect l refName oid)
    end.
Proof.
  unfold notifyRefListeners. cbn [refListeners RegisterRefListener].
  rewrite notifyFrom_app, notifyFrom_registered.
  destruct (notifyFrom 0 (refListeners rv) refName oid rv) as [rv1 [e|]];
    cbn [fst snd]; [reflexivity|].
  cbn [notifyFrom Nat.add]. now destruct (OnRefSelect l refName oid).
Qed.

(** X22. The first regeneration of a view made by [NewRefView] lists the
    local branches under an expanded "Branches" header and, whatever the
    repository holds, nothing under the two collapsed headers "Remote
    Branches" and "Tags": the visible rows are five more than the rows of
    the local-branches generator.  It panics exactly when that generator
    does, and leaves the initial cursor alone. *)
Theorem NewRefView_first_rows (data : RepoData) (pos : ViewPos) :
  let rv := NewRefView data pos in
  let branches :=
    mkRefList "Branches" true generateBranches_fn RvLocalBranchGroup in
  match generatorRows rv branches with
  | Ret body =>
      ∃ rv',
        generateRenderedRefs rv = Ret rv'
        ∧ map value (RenderedRefs (renderedRefs rv'))
          = "  [-] Branches" :: map value body
            ++ [""; "  [+] Remote Branches"; ""; "  [+] Tags"]
        ∧ map renderedRefType (RenderedRefs (renderedRefs rv'))
          = RvLocalBranchGroup :: map renderedRefType body
            ++ [RvSpace; RvRemoteBranchGroup; RvSpace; RvTagGroup]
        ∧ omap refList (RenderedRefs (renderedRefs rv'))
          = [0; 1; 2]%nat
        ∧ viewPos rv' = pos
  | Panic => generateRenderedRefs rv = Panic
  end.
Proof.
  intros rv branches. rewrite generateRenderedRefs_rows.
  unfold regeneratedRows. cbn [refLists rv NewRefView groupRows expanded].
  fold rv. fold branches.
  destruct (generatorRows rv branches) as [body|] eqn:Hbody; [|reflexivity].
  cbn [mbind outcome_bind mret outcome_ret].
  eexists. split; [reflexivity|].
  cbn [renderedRefs set_renderedRefs viewPos rv NewRefView].
  unfold newRenderedRefList, newFilteredRenderedRefList.
  rewrite extend_Clear_single. cbn [RenderedRefs].
  rewrite !map_cons, !map_app. repeat split.
  cbn [omap]. cbn [headerRow refList]. simpl.
  rewrite omap_app, (omap_refList_generator body); [reflexivity|].
  eapply generatorRows_kind, Hbody.
Qed.
